(** * Bitonic sort, serial, with OpenMP and with MPI: models and properties

    The C programs are embedded shallowly.  C [int] values are integers of
    [Z] with the 32-bit two's-complement wrap-around written out where the
    code shifts or doubles (index sums stay below the length of the array
    they index); arrays are lists; loops that may not end take fuel; the
    SPMD processes are run in lockstep on a list of partitions indexed by
    rank, one list per process.

    The first part is MPI/bitonicMPI_fixed.c (with the check at the end of
    Extra/bitonicMPI.c, which reports where the order breaks, next to
    [verify_sorted]); the second part is the other programs: bitonic.c,
    the OpenMP programs and Extra/bitonicMPI.c. *)

From Stdlib Require Import ZArith Lia.
From stdpp Require Import base tactics option list list_numbers sorting.

Local Open Scope Z_scope.

(** ** Machine integers *)

Definition INT_MAX : Z := 2147483647.
Definition INT_MIN : Z := -2147483648.

Definition int_range (x : Z) : Prop := INT_MIN <= x <= INT_MAX.

(** Reduction of a mathematical integer to a 32-bit signed [int]. *)
Definition wrap_int (z : Z) : Z := (z + 2 ^ 31) mod 2 ^ 32 - 2 ^ 31.

(** [x <<= 1] and [x >>= 1] on [int]. *)
Definition shl1 (x : Z) : Z := wrap_int (Z.shiftl x 1).
Definition shr1 (x : Z) : Z := Z.shiftr x 1.

(** ** Helper functions of the program *)

(** [while (p < n) p <<= 1;] *)
Fixpoint next_power_of_two_loop (fuel : nat) (p n : Z) : option Z :=
  match fuel with
  | O => None
  | S fuel' =>
      if p <? n then next_power_of_two_loop fuel' (shl1 p) n else Some p
  end.

Definition next_power_of_two (fuel : nat) (n : Z) : option Z :=
  if n <=? 0 then Some 1 else next_power_of_two_loop fuel 1 n.

Definition is_power_of_two (x : Z) : bool :=
  (0 <? x) && (Z.land x (x - 1) =? 0).

(** [while (N % size != 0) N <<= 1;] *)
Fixpoint pad_loop (fuel : nat) (N size : Z) : option Z :=
  match fuel with
  | O => None
  | S fuel' =>
      if Z.rem N size =? 0 then Some N else pad_loop fuel' (shl1 N) size
  end.

(** The partition sizer of [main]: the padded length [N] and [local_size]. *)
Definition partition_sizer (fuel : nat) (n size : Z) : option (Z * Z) :=
  N0 ← next_power_of_two fuel n;
  N ← pad_loop fuel N0 size;
  Some (N, Z.quot N size).

(** ** Arrays *)

(** [arr[i]]; the index is a C [int]. *)
Definition get (arr : list Z) (i : Z) : Z := arr !!! Z.to_nat i.

(** [swap_int(&arr[i], &arr[j])] *)
Definition swap_int (arr : list Z) (i j : Z) : list Z :=
  <[Z.to_nat j := get arr i]> (<[Z.to_nat i := get arr j]> arr).

(** ** Local bitonic sort *)

(** The body of the [for] loop of [bitonic_compare_and_swap]. *)
Definition compare_and_swap_at (k dir : Z) (arr : list Z) (i : Z) : list Z :=
  if negb (dir =? 0) then
    if get arr i >? get arr (i + k) then swap_int arr i (i + k) else arr
  else
    if get arr i <? get arr (i + k) then swap_int arr i (i + k) else arr.

(** [for (int i = low; i < low + k; ++i) ...] *)
Definition bitonic_compare_and_swap (arr : list Z) (low k dir : Z) : list Z :=
  foldl (compare_and_swap_at k dir) arr (seqZ low k).

Fixpoint bitonic_merge_fuel (fuel : nat) (arr : list Z) (low cnt dir : Z)
  : list Z :=
  match fuel with
  | O => arr
  | S fuel' =>
      if cnt <=? 1 then arr
      else
        let k := Z.quot cnt 2 in
        let arr1 := bitonic_compare_and_swap arr low k dir in
        let arr2 := bitonic_merge_fuel fuel' arr1 low k dir in
        bitonic_merge_fuel fuel' arr2 (low + k) k dir
  end.

(** The recursion halves [cnt], so [cnt] levels are more than it ever
    uses (lemma [bitonic_merge_recursive_unfold]). *)
Definition bitonic_merge_recursive (arr : list Z) (low cnt dir : Z) : list Z :=
  bitonic_merge_fuel (Z.to_nat cnt) arr low cnt dir.

Fixpoint bitonic_sort_fuel (fuel : nat) (arr : list Z) (low cnt dir : Z)
  : list Z :=
  match fuel with
  | O => arr
  | S fuel' =>
      if cnt <=? 1 then arr
      else
        let k := Z.quot cnt 2 in
        let arr1 := bitonic_sort_fuel fuel' arr low k 1 in
        let arr2 := bitonic_sort_fuel fuel' arr1 (low + k) k 0 in
        bitonic_merge_recursive arr2 low cnt dir
  end.

Definition bitonic_sort_recursive (arr : list Z) (low cnt dir : Z) : list Z :=
  bitonic_sort_fuel (Z.to_nat cnt) arr low cnt dir.

(** ** Pairwise merge-select *)

(** The three [while] loops of [merge_and_select], on the unread parts
    [a[i..]] and [b[j..]]: the result is what they append to [tmp].  The
    allocation of [tmp] is taken to succeed. *)
Fixpoint merge_runs (a : list Z) : list Z → list Z :=
  fix merge_b (b : list Z) : list Z :=
    match a, b with
    | [], _ => b
    | _, [] => a
    | x :: a', y :: b' =>
        if x <=? y then x :: merge_runs a' b else y :: merge_b b'
    end.

Definition merge_and_select (a b : list Z) (len : Z) (keep_low : bool)
  : list Z :=
  let L := Z.to_nat len in
  let tmp := merge_runs (take L a) (take L b) in
  if keep_low then take L tmp else take L (drop L tmp).

(** ** Verifier *)

(** [verify_sorted] of bitonicMPI_fixed.c. *)
Definition verify_sorted (global : list Z) (n : Z) : bool :=
  forallb (λ i, negb (get global (i - 1) >? get global i)) (seqZ 1 (n - 1)).

(** The check at the end of [main] in Extra/bitonicMPI.c: the flag
    [sorted] and [first_error]. *)
Fixpoint verify_scan (global : list Z) (idx : list Z) : bool * Z :=
  match idx with
  | [] => (true, -1)
  | i :: idx' =>
      if get global (i - 1) >? get global i then (false, i)
      else verify_scan global idx'
  end.

Definition verify_first_error (global : list Z) (n : Z) : bool * Z :=
  verify_scan global (seqZ 1 (n - 1)).

(** What that [main] prints after "NOT SORTED": the index and the two
    values around it. *)
Definition verify_report (global : list Z) (n : Z) : option (Z * Z * Z) :=
  let '(sorted, first_error) := verify_first_error global n in
  if sorted then None
  else Some (first_error, get global (first_error - 1), get global first_error).

(** ** The distributed exchange network *)

Definition partner (rank j : Z) : Z := Z.lxor rank j.

Definition keep_low (rank k j : Z) : bool :=
  let ascending_block := Z.land rank k =? 0 in
  let lower_partner := Z.land rank j =? 0 in
  if ascending_block then lower_partner else negb lower_partner.

(** What happens in the run, in order. *)
Inductive event : Type :=
  | EvUsage
  | EvErrorNotPowerOfTwo (size : Z)
  | EvErrorLocalSize (N size : Z)
  | EvBanner (n N size local_size : Z)
  | EvAllocate
  | EvLocalSort
  | EvRound (k j : Z)
  | EvGather
  | EvResult (ok : bool).

(** A run ends normally, is aborted ([MPI_Abort]), or is still going when
    the fuel is used up; in the last two cases with the events so far. *)
Inductive run (A : Type) : Type :=
  | Done (a : A)
  | Abort (log : list event)
  | Timeout (log : list event).
Arguments Done {A} a.
Arguments Abort {A} log.
Arguments Timeout {A} log.

Global Instance run_ret : MRet run := λ A a, Done a.
Global Instance run_bind : MBind run := λ A B f m,
  match m with
  | Done a => f a
  | Abort log => Abort log
  | Timeout log => Timeout log
  end.

(** The partitions of all processes by rank, and the events so far. *)
Record world : Type := World {
  parts : list (list Z);
  log : list event
}.

(** [MPI_Sendrecv] with the partner: the buffer received is the partner's
    partition; a rank outside the communicator is an MPI error. *)
Definition sendrecv (ps : list (list Z)) (p : Z) : option (list Z) :=
  if 0 <=? p then ps !! Z.to_nat p else None.

(** One round (k, j) on one process. *)
Definition exchange_at (local_size k j : Z) (ps : list (list Z)) (r : nat)
  : option (list Z) :=
  let rank := Z.of_nat r in
  local ← ps !! r;
  recv_buf ← sendrecv ps (partner rank j);
  Some (merge_and_select local recv_buf local_size (keep_low rank k j)).

(** One round (k, j) on every process, between two barriers. *)
Definition exchange_round (local_size k j : Z) (ps : list (list Z))
  : option (list (list Z)) :=
  mapM (exchange_at local_size k j ps) (seq 0 (length ps)).

(** [for (int j = k >> 1; j > 0; j >>= 1)] *)
Fixpoint inner_loop (fuel : nat) (local_size k j : Z) (w : world) : run world :=
  match fuel with
  | O => Timeout (log w)
  | S fuel' =>
      if 0 <? j then
        match exchange_round local_size k j (parts w) with
        | Some ps =>
            inner_loop fuel' local_size k (shr1 j)
              (World ps (log w ++ [EvRound k j]))
        | None => Abort (log w)
        end
      else Done w
  end.

(** [for (int k = 2; k <= size; k <<= 1)] *)
Fixpoint outer_loop (fuel : nat) (local_size size k : Z) (w : world) : run world :=
  match fuel with
  | O => Timeout (log w)
  | S fuel' =>
      if k <=? size then
        w' ← inner_loop fuel' local_size k (shr1 k) w;
        outer_loop fuel' local_size size (shl1 k) w'
      else Done w
  end.

Definition network (fuel : nat) (local_size size : Z) (w : world) : run world :=
  outer_loop fuel local_size size 2 w.

(** ** The program *)

(** [MPI_Scatter]: process [r] gets [global_arr[r*local_size ..]]. *)
Definition scatter (global_arr : list Z) (local_size size : Z) : list (list Z) :=
  (λ r, take (Z.to_nat local_size) (drop (r * Z.to_nat local_size) global_arr))
    <$> seq 0 (Z.to_nat size).

(** [MPI_Gather] on rank 0. *)
Definition gather (ps : list (list Z)) : list Z := mjoin ps.

(** [n] as [main] reads it from the command line. *)
Definition requested_n (arg : option Z) : Z :=
  match arg with
  | None => 1024
  | Some v => if v <=? 0 then 1024 else v
  end.

(** [global_arr] as rank 0 fills it; [rnd i] is the i-th [rand() % 1000000]. *)
Definition initial_global (rnd : nat → Z) (n N : Z) : list Z :=
  (rnd <$> seq 0 (Z.to_nat n)) ++ replicate (Z.to_nat (N - n)) INT_MAX.

(** The partitions when the network starts: the chunks of [global_arr],
    each sorted by its process. *)
Definition initial_partitions (rnd : nat → Z) (n N local_size size : Z)
  : list (list Z) :=
  (λ local, bitonic_sort_recursive local 0 local_size 1)
    <$> scatter (initial_global rnd n N) local_size size.

(** What [main] has printed when it reaches the check of [size]. *)
Definition usage_log (arg : option Z) : list event :=
  match arg with None => [EvUsage] | Some _ => [] end.

(** [main] from the padding of the array size on.  Allocations are taken
    to succeed; the dump of the first values after "NOT SORTED" is left
    out. *)
Definition main_body (fuel : nat) (arg : option Z) (size : Z) (rnd : nat → Z)
  : run (list event * list Z) :=
  let n := requested_n arg in
  match partition_sizer fuel n size with
  | None => Timeout (usage_log arg)
  | Some (N, local_size) =>
      if local_size <=? 0 then
        Abort (usage_log arg ++ [EvErrorLocalSize N size])
      else
        let log1 :=
          usage_log arg ++ [EvBanner n N size local_size; EvAllocate] in
        let sorted_locals := initial_partitions rnd n N local_size size in
        w ← network fuel local_size size
              (World sorted_locals (log1 ++ [EvLocalSort]));
        let global_arr' := gather (parts w) in
        let ok := verify_sorted global_arr' n in
        Done (log w ++ [EvGather; EvResult ok], global_arr')
  end.

Definition main (fuel : nat) (arg : option Z) (size : Z) (rnd : nat → Z)
  : run (list event * list Z) :=
  if negb (is_power_of_two size) then
    Abort (usage_log arg ++ [EvErrorNotPowerOfTwo size])
  else main_body fuel arg size rnd.

(** ** Notions used to state the properties *)

Definition pow2 (x : Z) : Prop := ∃ e, 0 <= e ∧ x = 2 ^ e.

(** [arr'] holds the elements of [arr] in another order, and the same
    element as [arr] at every index outside [low, low + cnt). *)
Definition permutes_within (low cnt : Z) (arr arr' : list Z) : Prop :=
  arr' ≡ₚ arr ∧
  ∀ i : nat, Z.of_nat i < low ∨ low + cnt <= Z.of_nat i → arr' !! i = arr !! i.

(** The events of a run of the network, however it ends. *)
Definition run_log (r : run world) : list event :=
  match r with
  | Done w => log w
  | Abort lg => lg
  | Timeout lg => lg
  end.

(** A round as [exchange_round] computes it when every partner is a rank of
    the communicator. *)
Definition round_of (local_size k j : Z) (ps : list (list Z))
  : list (list Z) :=
  (λ r : nat,
     merge_and_select (ps !!! r) (ps !!! Z.to_nat (partner (Z.of_nat r) j))
       local_size (keep_low (Z.of_nat r) k j)) <$> seq 0 (length ps).

(** The rounds j = 2^(a-1), ..., 2, 1 of the phase [k], and their events. *)
Fixpoint phase_rounds (local_size k : Z) (a : nat) (ps : list (list Z))
  : list (list Z) :=
  match a with
  | O => ps
  | S a' =>
      phase_rounds local_size k a' (round_of local_size k (2 ^ Z.of_nat a') ps)
  end.

Fixpoint phase_events (k : Z) (a : nat) : list event :=
  match a with
  | O => []
  | S a' => EvRound k (2 ^ Z.of_nat a') :: phase_events k a'
  end.

(** The [c] phases k = 2^(m+1), 2^(m+2), ..., and their events. *)
Fixpoint phases (local_size : Z) (m c : nat) (ps : list (list Z))
  : list (list Z) :=
  match c with
  | O => ps
  | S c' =>
      phases local_size (S m) c'
        (phase_rounds local_size (2 ^ Z.of_nat (S m)) (S m) ps)
  end.

Fixpoint schedule (m c : nat) : list event :=
  match c with
  | O => []
  | S c' => phase_events (2 ^ Z.of_nat (S m)) (S m) ++ schedule (S m) c'
  end.

(** Every process holds [L] elements in ascending order. *)
Definition partitions_ok (L : Z) (ps : list (list Z)) : Prop :=
  Forall (λ local, Z.of_nat (length local) = L ∧ Sorted Z.le local) ps.

Definition is_round (e : event) : bool :=
  match e with EvRound _ _ => true | _ => false end.

(** The number of exchange rounds among the events. *)
Definition rounds (lg : list event) : Z := Z.of_nat (length (filter is_round lg)).

(** ** Thresholds (the zero-one view of the data)

    For a threshold [t], a partition "has a low" when one of its elements is
    at most [t], and "has a high" when one is above [t]. *)

Definition has_le (t : Z) (l : list Z) : Prop := ∃ x, x ∈ l ∧ x <= t.
Definition has_gt (t : Z) (l : list Z) : Prop := ∃ x, x ∈ l ∧ t < x.

(** No four positions [i1 < i2 < i3 < i4] of [lo, hi) alternate X, Y, X, Y. *)
Definition no4 (X Y : Z → Prop) (lo hi : Z) : Prop :=
  ∀ i1 i2 i3 i4, lo <= i1 → i1 < i2 → i2 < i3 → i3 < i4 → i4 < hi →
    ¬ (X i1 ∧ Y i2 ∧ X i3 ∧ Y i4).

(** The positions of [lo, hi) form a bitonic sequence of lows and highs. *)
Definition bitonic01 (X Y : Z → Prop) (lo hi : Z) : Prop :=
  no4 X Y lo hi ∧ no4 Y X lo hi.

(** No position of [lo, hi) with X comes before one with Y. *)
Definition ordered01 (X Y : Z → Prop) (lo hi : Z) : Prop :=
  ∀ r s, lo <= r → r < s → s < hi → ¬ (X r ∧ Y s).

(** The partition of rank [r] has a high, or a low. *)
Definition high_at (t : Z) (ps : list (list Z)) (r : Z) : Prop :=
  has_gt t (ps !!! Z.to_nat r).
Definition low_at (t : Z) (ps : list (list Z)) (r : Z) : Prop :=
  has_le t (ps !!! Z.to_nat r).

(** In an ascending block no high comes before a low; in a descending block
    no low comes before a high. *)
Definition first_of (asc : bool) (t : Z) (ps : list (list Z)) : Z → Prop :=
  if asc then high_at t ps else low_at t ps.
Definition second_of (asc : bool) (t : Z) (ps : list (list Z)) : Z → Prop :=
  if asc then low_at t ps else high_at t ps.

(** Every aligned block of [2^a] ranks below [2^d] is bitonic. *)
Definition blocks_bitonic (d a t : Z) (ps : list (list Z)) : Prop :=
  ∀ q, 0 <= q → (q + 1) * 2 ^ a <= 2 ^ d →
    bitonic01 (high_at t ps) (low_at t ps) (q * 2 ^ a) ((q + 1) * 2 ^ a).

(** Two ranks below [2^d] of the same block of [2^m] ranks but of different
    blocks of [2^a] ranks are in the order of the block of [2^m] ranks:
    ascending when its number is even, descending when it is odd. *)
Definition blocks_ordered (d m a t : Z) (ps : list (list Z)) : Prop :=
  ∀ r s, 0 <= r → r < s → s < 2 ^ d →
    r / 2 ^ m = s / 2 ^ m → r / 2 ^ a ≠ s / 2 ^ a →
    ¬ (first_of (Z.even (r / 2 ^ m)) t ps r ∧
       second_of (Z.even (r / 2 ^ m)) t ps s).

(** The element at position [i] is on the side of the threshold [t] that
    comes first, or second, in the direction [dir]: above it and at most it
    when ascending, the other way round when descending. *)
Definition first_at (dir t : Z) (arr : list Z) (i : Z) : Prop :=
  if dir =? 0 then get arr i <= t else t < get arr i.
Definition second_at (dir t : Z) (arr : list Z) (i : Z) : Prop :=
  if dir =? 0 then t < get arr i else get arr i <= t.

(** The segment [low, low + cnt) is in the order [dir]. *)
Definition segment_sorted (dir : Z) (arr : list Z) (low cnt : Z) : Prop :=
  ∀ r s, low <= r → r < s → s < low + cnt →
    if dir =? 0 then get arr s <= get arr r else get arr r <= get arr s.

(** The events of a run that goes through. *)
Definition full_log (n N size L : Z) (d : nat) : list event :=
  [EvBanner n N size L; EvAllocate; EvLocalSort] ++ schedule 0 d
    ++ [EvGather; EvResult true].

(** A sequence of values of [rand() % 1000000] to run the program on. *)
Definition sample_rnd (i : nat) : Z := (Z.of_nat i * 7 + 3) mod 10.

(** * The other programs of the repository

    bitonic.c, Parallel/bitonicOmp.c, Extra/bitonicOmp.c,
    OpenMP/bitonicOmp02.c and Extra/bitonicMPI.c define [bitonic_merge],
    [bitonic_sort_recursive] and [next_power_of_two] with one text (the
    OpenMP files add pragmas to it, and bitonicOmp02.c a test that makes
    the same two calls as tasks or as plain calls).  They differ from
    MPI/bitonicMPI_fixed.c in the tests [dir == 1] and [n <= 1]. *)

Module Serial.

(** The body of the [for] loop of [bitonic_merge]. *)
Definition compare_exchange_at (k dir : Z) (arr : list Z) (i : Z) : list Z :=
  if dir =? 1 then
    if get arr i >? get arr (i + k) then swap_int arr i (i + k) else arr
  else
    if get arr i <? get arr (i + k) then swap_int arr i (i + k) else arr.

Fixpoint bitonic_merge_fuel (fuel : nat) (arr : list Z) (low cnt dir : Z)
  : list Z :=
  match fuel with
  | O => arr
  | S fuel' =>
      if 1 <? cnt then
        let k := Z.quot cnt 2 in
        let arr1 := foldl (compare_exchange_at k dir) arr (seqZ low k) in
        let arr2 := bitonic_merge_fuel fuel' arr1 low k dir in
        bitonic_merge_fuel fuel' arr2 (low + k) k dir
      else arr
  end.

Definition bitonic_merge (arr : list Z) (low cnt dir : Z) : list Z :=
  bitonic_merge_fuel (Z.to_nat cnt) arr low cnt dir.

Fixpoint bitonic_sort_fuel (fuel : nat) (arr : list Z) (low cnt dir : Z)
  : list Z :=
  match fuel with
  | O => arr
  | S fuel' =>
      if 1 <? cnt then
        let k := Z.quot cnt 2 in
        let arr1 := bitonic_sort_fuel fuel' arr low k 1 in
        let arr2 := bitonic_sort_fuel fuel' arr1 (low + k) k 0 in
        bitonic_merge arr2 low cnt dir
      else arr
  end.

Definition bitonic_sort_recursive (arr : list Z) (low cnt dir : Z) : list Z :=
  bitonic_sort_fuel (Z.to_nat cnt) arr low cnt dir.

Definition next_power_of_two (fuel : nat) (n : Z) : option Z :=
  if n <=? 1 then Some 1 else next_power_of_two_loop fuel 1 n.

(** What [main] of bitonic.c finds on its standard input: no line
    ([fgets] returns NULL), a line [sscanf] reads no [int] from, or a line
    with an [int]. *)
Inductive stdin_line : Type :=
  | NoLine
  | NoNumber
  | Number (v : Z).

(** How that [main] ends: [return 1] after the prompt, [return 1] after
    "Number of elements must be positive.", or [return 0] after it has
    printed the input array and the first n elements of the sorted one. *)
Inductive outcome : Type :=
  | ExitNoInput
  | ExitNotPositive
  | Printed (input sorted : list Z).

(** [main] of bitonic.c (Parallel/bitonicOmp.c has the same [main]);
    [rnd i] is the i-th [rand() % 1000]; the allocation is taken to
    succeed; [None] when the loop of [next_power_of_two] is still going at
    the end of the fuel. *)
Definition main (fuel : nat) (line : stdin_line) (rnd : nat → Z)
  : option outcome :=
  match line with
  | NoLine => Some ExitNoInput
  | _ =>
      let n := match line with Number v => v | _ => 16 end in
      if n <=? 0 then Some ExitNotPositive
      else
        m ← next_power_of_two fuel n;
        let arr := initial_global rnd n m in
        let arr' := bitonic_sort_recursive arr 0 m 1 in
        Some (Printed (take (Z.to_nat n) arr) (take (Z.to_nat n) arr'))
  end.

End Serial.

(** ** The first distributed program (Extra/bitonicMPI.c)

    Its [swap_int], [bitonic_merge], [bitonic_sort_recursive] and
    [next_power_of_two] are those of [Serial].  In a round each process
    compares its partition with the partner's element by element. *)

Module ExtraMPI.

(** [int keep_min = ((rank & k) == 0);] *)
Definition keep_min (rank k : Z) : bool := Z.land rank k =? 0.

(** The body of the loop over [i] of a round, on [local_arr] and
    [recv_arr]. *)
Definition compare_exchange_at (keep_min : bool) (bufs : list Z * list Z)
    (i : Z) : list Z * list Z :=
  let '(local_arr, recv_arr) := bufs in
  let swapped :=
    (<[Z.to_nat i := get recv_arr i]> local_arr,
     <[Z.to_nat i := get local_arr i]> recv_arr) in
  if keep_min then
    if get local_arr i >? get recv_arr i then swapped else bufs
  else
    if get local_arr i <? get recv_arr i then swapped else bufs.

(** [for (int i = 0; i < local_size; i++) ...]: what [local_arr] holds
    afterwards ([recv_arr] is freed). *)
Definition compare_exchange (local_arr recv_arr : list Z) (local_size : Z)
    (keep_min : bool) : list Z :=
  (foldl (compare_exchange_at keep_min) (local_arr, recv_arr)
     (seqZ 0 local_size)).1.

(** One round (k, j) on one process. *)
Definition exchange_at (local_size k j : Z) (ps : list (list Z)) (r : nat)
  : option (list Z) :=
  let rank := Z.of_nat r in
  local_arr ← ps !! r;
  recv_arr ← sendrecv ps (partner rank j);
  Some (compare_exchange local_arr recv_arr local_size (keep_min rank k)).

(** One round (k, j) on every process. *)
Definition exchange_round (local_size k j : Z) (ps : list (list Z))
  : option (list (list Z)) :=
  mapM (exchange_at local_size k j ps) (seq 0 (length ps)).

(** [for (int j = k / 2; j > 0; j /= 2)] *)
Fixpoint inner_loop (fuel : nat) (local_size k j : Z) (w : world) : run world :=
  match fuel with
  | O => Timeout (log w)
  | S fuel' =>
      if 0 <? j then
        match exchange_round local_size k j (parts w) with
        | Some ps =>
            inner_loop fuel' local_size k (Z.quot j 2)
              (World ps (log w ++ [EvRound k j]))
        | None => Abort (log w)
        end
      else Done w
  end.

(** [for (int k = 2; k <= size; k *= 2)], the product reduced to an
    [int]. *)
Fixpoint outer_loop (fuel : nat) (local_size size k : Z) (w : world) : run world :=
  match fuel with
  | O => Timeout (log w)
  | S fuel' =>
      if k <=? size then
        w' ← inner_loop fuel' local_size k (Z.quot k 2) w;
        outer_loop fuel' local_size size (wrap_int (k * 2)) w'
      else Done w
  end.

Definition network (fuel : nat) (local_size size : Z) (w : world) : run world :=
  outer_loop fuel local_size size 2 w.

(** [total_size] and [local_size]. *)
Definition sizes (fuel : nat) (n size : Z) : option (Z * Z) :=
  p ← Serial.next_power_of_two fuel n;
  let total_size := if p <? size then size else p in
  Some (total_size, Z.quot total_size size).

(** [MPI_Gather] into [global_arr] on rank 0: the partitions overwrite the
    array from its start. *)
Definition gather_into (global_arr : list Z) (ps : list (list Z)) : list Z :=
  let received := mjoin ps in
  received ++ drop (length received) global_arr.

(** [main]; [rnd i] is the i-th [rand() % 10000].  The result is the
    gathered array and what the check after "Result:" reports
    ([verify_report]); the allocations are taken to succeed, and the dump
    of the first and last ten values is left out. *)
Definition main (fuel : nat) (arg : option Z) (size : Z) (rnd : nat → Z)
  : run (list Z * option (Z * Z * Z)) :=
  let n := requested_n arg in
  match sizes fuel n size with
  | None => Timeout []
  | Some (total_size, local_size) =>
      let global_arr := initial_global rnd n total_size in
      let sorted_locals :=
        (λ local_arr, Serial.bitonic_sort_recursive local_arr 0 local_size 1)
          <$> scatter global_arr local_size size in
      w ← network fuel local_size size (World sorted_locals []);
      let global_arr' := gather_into global_arr (parts w) in
      Done (global_arr', verify_report global_arr' n)
  end.

End ExtraMPI.

(** ** The OpenMP programs (Extra/bitonicOmp.c, OpenMP/bitonicOmp02.c)

    Their [bitonic_merge] and [bitonic_sort_recursive] are those of
    [Serial] with pragmas; the parallel regions are taken in program
    order. *)

Module OpenMP.

(** [bitonic_sort_parallel] of bitonicOmp02.c: one thread of the team
    makes the call. *)
Definition bitonic_sort_parallel (arr : list Z) (n : Z) : list Z :=
  Serial.bitonic_sort_recursive arr 0 n 1.

(** How [main] ends: [return 1] after "Number of elements must be
    positive.", or [return 0] after "Result: SORTED" or "Result: NOT
    SORTED", with the array it has sorted. *)
Inductive outcome : Type :=
  | ExitNotPositive
  | Result (arr : list Z) (sorted : bool).

(** [main]; [arg] is the first command-line argument as [atoi] reads it,
    [rnd i] the i-th [rand() % 10000]; the allocation is taken to
    succeed, and the number of threads has no part in the result. *)
Definition main (fuel : nat) (arg : option Z) (rnd : nat → Z)
  : option outcome :=
  let n := match arg with Some v => v | None => 1024 end in
  if n <=? 0 then Some ExitNotPositive
  else
    m ← Serial.next_power_of_two fuel n;
    let arr := bitonic_sort_parallel (initial_global rnd n m) m in
    Some (Result arr (verify_sorted arr n)).

End OpenMP.

(** ** Notions used to state the properties of the first distributed
    program *)

(** Every process holds [L] elements. *)
Definition partitions_sized (L : Z) (ps : list (list Z)) : Prop :=
  Forall (λ local, Z.of_nat (length local) = L) ps.

(** The processes whose ranks differ in no bit but those of [b, m) hold
    the same elements. *)
Definition blocks_equal (m b : Z) (ps : list (list Z)) : Prop :=
  ∀ r r' : nat, (r < length ps)%nat → (r' < length ps)%nat →
    (∀ i, 0 <= i → i < b ∨ m <= i →
       Z.testbit (Z.of_nat r) i = Z.testbit (Z.of_nat r') i) →
    ps !! r = ps !! r'.

(** * Properties *)

(** ** Integers *)

Lemma wrap_int_id z : int_range z → wrap_int z = z.
Proof.
  unfold int_range, INT_MIN, INT_MAX, wrap_int. intros Hz.
  rewrite Z.mod_small; lia.
Qed.

Lemma shl1_double x : int_range (2 * x) → shl1 x = 2 * x.
Proof.
  intros Hx. unfold shl1. rewrite Z.shiftl_mul_pow2 by lia.
  change (2 ^ 1) with 2. rewrite Z.mul_comm. by apply wrap_int_id.
Qed.

Lemma shl1_pow2 e : 0 <= e < 30 → shl1 (2 ^ e) = 2 ^ (e + 1).
Proof.
  intros He. rewrite shl1_double.
  - rewrite Z.pow_add_r by lia. lia.
  - assert (2 ^ e <= 2 ^ 29) by (apply Z.pow_le_mono_r; lia).
    assert (0 < 2 ^ e) by (apply Z.pow_pos_nonneg; lia).
    unfold int_range, INT_MIN, INT_MAX. lia.
Qed.

Lemma shr1_pow2 e : 0 <= e → shr1 (2 ^ (e + 1)) = 2 ^ e.
Proof.
  intros He. unfold shr1. rewrite Z.shiftr_div_pow2 by lia.
  rewrite Z.pow_add_r by lia. change (2 ^ 1) with 2.
  by rewrite Z.div_mul.
Qed.

Lemma pow2_pos e : 0 <= e → 0 < 2 ^ e.
Proof. intros. by apply Z.pow_pos_nonneg. Qed.

Lemma pow2_le_inv a b : 0 <= a → 0 <= b → 2 ^ a <= 2 ^ b → a <= b.
Proof. intros ?? Hle. apply (Z.pow_le_mono_r_iff 2); lia. Qed.

Lemma pow2_lt_inv a b : 0 <= a → 0 <= b → 2 ^ a < 2 ^ b → a < b.
Proof. intros ?? Hlt. apply (Z.pow_lt_mono_r_iff 2); lia. Qed.

(** ** [is_power_of_two] *)

Lemma land_pow2_pred e : 0 <= e → Z.land (2 ^ e) (2 ^ e - 1) = 0.
Proof.
  intros He. replace (2 ^ e - 1) with (Z.ones e).
  - rewrite Z.land_ones by lia. apply Z.mod_same. pose proof (pow2_pos e). lia.
  - rewrite Z.ones_equiv. lia.
Qed.

Lemma is_power_of_two_pow2 e : 0 <= e → is_power_of_two (2 ^ e) = true.
Proof.
  intros He. unfold is_power_of_two. rewrite land_pow2_pred by done.
  pose proof (pow2_pos e He). rewrite andb_true_iff, Z.ltb_lt, Z.eqb_eq. lia.
Qed.

Lemma is_power_of_two_inv x : is_power_of_two x = true → pow2 x.
Proof.
  unfold is_power_of_two. rewrite andb_true_iff, Z.ltb_lt, Z.eqb_eq.
  intros [Hx Hland]. exists (Z.log2 x). split; [apply Z.log2_nonneg|].
  destruct (Z.log2_spec x Hx) as [Hlo Hhi].
  destruct (decide (x = 2 ^ Z.log2 x)) as [|Hne]; [done|exfalso].
  assert (Hlog : Z.log2 (x - 1) = Z.log2 x).
  { apply Z.log2_unique; [apply Z.log2_nonneg|]. lia. }
  assert (Hb1 : Z.testbit x (Z.log2 x) = true) by (apply Z.bit_log2; lia).
  assert (Hb2 : Z.testbit (x - 1) (Z.log2 x) = true).
  { rewrite <- Hlog. apply Z.bit_log2.
    pose proof (pow2_pos (Z.log2 x) (Z.log2_nonneg x)). lia. }
  assert (Hb : Z.testbit (Z.land x (x - 1)) (Z.log2 x) = true).
  { by rewrite Z.land_spec, Hb1, Hb2. }
  rewrite Hland, Z.bits_0 in Hb. done.
Qed.

Lemma is_power_of_two_iff x : is_power_of_two x = true ↔ pow2 x.
Proof.
  split; [apply is_power_of_two_inv|].
  intros (e & He & ->). by apply is_power_of_two_pow2.
Qed.

Lemma pow2_int_range x :
  pow2 x → int_range x → ∃ e, 0 <= e <= 30 ∧ x = 2 ^ e.
Proof.
  intros (e & He & ->) [_ Hmax]. exists e. split; [|done].
  split; [done|]. unfold INT_MAX in Hmax.
  assert (e < 31); [|lia]. apply pow2_lt_inv; [done|lia|].
  change (2 ^ 31) with 2147483648. lia.
Qed.

Global Instance int_range_dec x : Decision (int_range x).
Proof. unfold int_range. apply _. Defined.

Global Instance pow2_dec x : Decision (pow2 x).
Proof.
  refine (cast_if (decide (is_power_of_two x = true)));
    by rewrite <- is_power_of_two_iff.
Defined.

Global Instance partitions_ok_dec L ps : Decision (partitions_ok L ps).
Proof. unfold partitions_ok. apply _. Defined.

(** Closed side conditions on concrete numbers. *)
Ltac int_range_tac := unfold int_range, INT_MIN, INT_MAX; lia.
Ltac pow2_tac e := exists e; split; [lia|reflexivity].

(** ** The partition sizer *)

Lemma next_power_of_two_loop_spec n (d : nat) : ∀ e fuel,
  0 <= e → e + Z.of_nat d <= 30 →
  n <= 2 ^ (e + Z.of_nat d) →
  (∀ e', e <= e' < e + Z.of_nat d → 2 ^ e' < n) →
  (d < fuel)%nat →
  next_power_of_two_loop fuel (2 ^ e) n = Some (2 ^ (e + Z.of_nat d)).
Proof.
  induction d as [|d IH]; intros e fuel He Hed Hn Hlt Hfuel;
    (destruct fuel as [|fuel]; [lia|]); simpl next_power_of_two_loop.
  - rewrite Z.add_0_r in *. by rewrite (proj2 (Z.ltb_ge _ _)).
  - rewrite (proj2 (Z.ltb_lt _ _)) by (apply Hlt; lia).
    rewrite shl1_pow2 by lia.
    rewrite (IH (e + 1) fuel); try lia.
    + do 2 f_equal. lia.
    + by replace (e + 1 + Z.of_nat d) with (e + Z.of_nat (S d)) by lia.
    + intros e' He'. apply Hlt. lia.
Qed.

Lemma next_power_of_two_spec n fuel :
  0 < n <= 2 ^ 30 → (32 <= fuel)%nat →
  next_power_of_two fuel n = Some (2 ^ Z.log2_up n).
Proof.
  intros [Hn0 Hn] Hfuel. unfold next_power_of_two.
  rewrite (proj2 (Z.leb_gt _ _)) by done.
  pose proof (Z.log2_up_nonneg n) as Hc0.
  assert (Hc : Z.log2_up n <= 30) by (by apply Z.log2_up_le_pow2).
  pose proof (next_power_of_two_loop_spec n (Z.to_nat (Z.log2_up n)) 0 fuel)
    as Hloop.
  rewrite Z.add_0_l, Z2Nat.id in Hloop by done. apply Hloop; try lia.
  - by apply Z.log2_up_le_pow2.
  - intros e' He'. apply Z.log2_up_lt_pow2; lia.
Qed.

Lemma rem_pow2 c a :
  0 <= c → 0 <= a → Z.rem (2 ^ c) (2 ^ a) = 0 ↔ a <= c.
Proof.
  intros Hc Ha. pose proof (pow2_pos c Hc). pose proof (pow2_pos a Ha).
  rewrite Z.rem_mod_nonneg by lia. split.
  - intros Hmod. destruct (decide (a <= c)) as [|Hac]; [done|exfalso].
    rewrite Z.mod_small in Hmod; [lia|]. split; [lia|].
    apply Z.pow_lt_mono_r; lia.
  - intros Hac. replace c with ((c - a) + a) by lia.
    rewrite Z.pow_add_r by lia. by apply Z.mod_mul; lia.
Qed.

Lemma pad_loop_spec a (d : nat) : ∀ c fuel,
  0 <= a → 0 <= c → c + Z.of_nat d <= 30 → a <= c + Z.of_nat d →
  (∀ c', c <= c' < c + Z.of_nat d → c' < a) →
  (d < fuel)%nat →
  pad_loop fuel (2 ^ c) (2 ^ a) = Some (2 ^ (c + Z.of_nat d)).
Proof.
  induction d as [|d IH]; intros c fuel Ha Hc Hcd Hac Hlt Hfuel;
    (destruct fuel as [|fuel]; [lia|]); simpl pad_loop.
  - rewrite Z.add_0_r in *.
    by rewrite (proj2 (Z.eqb_eq _ _)) by (apply rem_pow2; lia).
  - assert (Z.rem (2 ^ c) (2 ^ a) ≠ 0) as Hrem.
    { rewrite rem_pow2 by lia. specialize (Hlt c). lia. }
    rewrite (proj2 (Z.eqb_neq _ _)) by done.
    rewrite shl1_pow2 by lia.
    rewrite (IH (c + 1) fuel); try lia.
    + do 2 f_equal. lia.
    + intros c' Hc'. apply Hlt. lia.
Qed.

Lemma partition_sizer_value n a fuel :
  0 < n <= 2 ^ 30 → 0 <= a <= 30 → (32 <= fuel)%nat →
  let N := 2 ^ Z.max (Z.log2_up n) a in
  partition_sizer fuel n (2 ^ a) = Some (N, Z.quot N (2 ^ a)).
Proof.
  intros Hn Ha Hfuel N. unfold partition_sizer.
  rewrite next_power_of_two_spec by done. cbn [mbind option_bind].
  pose proof (Z.log2_up_nonneg n) as Hc0.
  assert (Hc : Z.log2_up n <= 30) by (apply Z.log2_up_le_pow2; lia).
  rewrite (pad_loop_spec a (Z.to_nat (Z.max (Z.log2_up n) a - Z.log2_up n)));
    try lia.
  cbn [mbind option_bind].
  by replace (Z.log2_up n + Z.of_nat (Z.to_nat (Z.max (Z.log2_up n) a - Z.log2_up n)))
    with (Z.max (Z.log2_up n) a) by lia.
Qed.

Lemma pow2_divide a b : 0 <= a → 0 <= b → (2 ^ a | 2 ^ b) ↔ a <= b.
Proof.
  intros Ha Hb. pose proof (pow2_pos a Ha). rewrite <- rem_pow2 by done.
  rewrite Z.rem_mod_nonneg by (pose proof (pow2_pos b Hb); lia).
  split.
  - intros Hdiv. apply Z.mod_divide in Hdiv; lia.
  - intros Hmod. apply Z.mod_divide; lia.
Qed.

Lemma log2_up_pow2_le n e : 0 < n → 0 <= e → n <= 2 ^ e → Z.log2_up n <= e.
Proof. intros Hn He Hle. by apply Z.log2_up_le_pow2. Qed.

Lemma next_power_of_two_loop_zero n fuel :
  0 < n → next_power_of_two_loop fuel 0 n = None.
Proof.
  intros Hn. induction fuel as [|fuel IH]; [done|]. simpl.
  by rewrite (proj2 (Z.ltb_lt _ _)) by done.
Qed.

Lemma next_power_of_two_loop_overflow n (d : nat) : ∀ e fuel,
  2 ^ 30 < n → int_range n → 0 <= e → e + Z.of_nat d = 30 →
  next_power_of_two_loop fuel (2 ^ e) n = None.
Proof.
  induction d as [|d IH]; intros e fuel Hn Hr He Hed;
    (destruct fuel as [|fuel]; [done|]); simpl.
  - replace e with 30 by lia. rewrite (proj2 (Z.ltb_lt _ _)) by done.
    destruct fuel as [|fuel]; [done|]. simpl.
    change (shl1 (2 ^ 30)) with (-2147483648).
    rewrite (proj2 (Z.ltb_lt _ _))
      by (change (2 ^ 30) with 1073741824 in Hn; lia).
    change (shl1 (-2147483648)) with 0.
    apply next_power_of_two_loop_zero. lia.
  - assert (2 ^ e <= 2 ^ 30) by (apply Z.pow_le_mono_r; lia).
    rewrite (proj2 (Z.ltb_lt _ _)) by lia.
    rewrite shl1_pow2 by lia. apply IH; [done|done|lia|lia].
Qed.

Lemma partition_sizer_overflow n size fuel :
  2 ^ 30 < n → int_range n → partition_sizer fuel n size = None.
Proof.
  intros Hn Hr. unfold partition_sizer, next_power_of_two.
  rewrite (proj2 (Z.leb_gt _ _)) by lia.
  change 1 with (2 ^ 0).
  by rewrite (next_power_of_two_loop_overflow n 30 0 fuel).
Qed.

Lemma partition_sizer_exp n a fuel :
  0 < n <= 2 ^ 30 → 0 <= a <= 30 → (32 <= fuel)%nat →
  partition_sizer fuel n (2 ^ a) =
    Some (2 ^ Z.max (Z.log2_up n) a, 2 ^ (Z.max (Z.log2_up n) a - a)).
Proof.
  intros Hn Ha Hfuel. rewrite partition_sizer_value by done. cbv zeta.
  do 2 f_equal. pose proof (Z.log2_up_nonneg n). pose proof (pow2_pos a).
  replace (Z.max (Z.log2_up n) a) with ((Z.max (Z.log2_up n) a - a) + a) at 1
    by lia.
  rewrite Z.pow_add_r by lia. apply Z.quot_mul. lia.
Qed.

Lemma partition_sizer_pow2 n P :
  0 < n <= 2 ^ 30 → int_range P → pow2 P →
  ∃ a, 0 <= a <= 30 ∧ P = 2 ^ a ∧
    ∀ fuel, (32 <= fuel)%nat →
      partition_sizer fuel n P =
        Some (2 ^ Z.max (Z.log2_up n) a, 2 ^ (Z.max (Z.log2_up n) a - a)).
Proof.
  intros Hn Hr HP. destruct (pow2_int_range P HP Hr) as (a & Ha & ->).
  exists a. split_and!; [lia|lia|done|]. intros fuel Hfuel.
  by apply partition_sizer_exp.
Qed.

(** C3 (amended): for every n with 0 < n <= 2^30 and every power of two P
    that is an [int], the partition sizer returns totalSize, the smallest
    power of two that is at least n and a multiple of P, and
    localSize = totalSize / P; totalSize is the smallest power of two that
    is at least n, doubled until P divides it. *)
Theorem partition_sizer_correct n P :
  0 < n <= 2 ^ 30 → int_range P → pow2 P →
  ∃ N N0 c,
    (∀ fuel, (32 <= fuel)%nat → partition_sizer fuel n P = Some (N, N / P)) ∧
    pow2 N ∧ n <= N ∧ (P | N) ∧
    (∀ M, pow2 M → n <= M → (P | M) → N <= M) ∧
    pow2 N0 ∧ n <= N0 ∧ (∀ M, pow2 M → n <= M → N0 <= M) ∧
    0 <= c ∧ N = N0 * 2 ^ c ∧ (∀ c', 0 <= c' < c → ¬ (P | N0 * 2 ^ c')).
Proof.
  intros Hn Hr HP.
  destruct (partition_sizer_pow2 n P Hn Hr HP) as (a & Ha & -> & Hsz).
  pose proof (Z.log2_up_nonneg n) as Hc0.
  assert (Hc : Z.log2_up n <= 30) by (apply Z.log2_up_le_pow2; lia).
  set (c := Z.log2_up n) in *. set (m := Z.max c a).
  assert (Hnc : n <= 2 ^ c) by (apply Z.log2_up_le_pow2; subst c; lia).
  exists (2 ^ m), (2 ^ c), (m - c).
  assert (Hmin : ∀ M, pow2 M → n <= M → 2 ^ c <= M).
  { intros M (e & He & ->) HnM. apply Z.pow_le_mono_r; [lia|].
    apply log2_up_pow2_le; lia. }
  split_and!.
  - intros fuel Hfuel. rewrite Hsz by done. do 2 f_equal. fold m.
    replace (2 ^ m) with (2 ^ (m - a) * 2 ^ a)
      by (rewrite <- Z.pow_add_r by lia; f_equal; lia).
    rewrite Z.div_mul; [done|]. pose proof (pow2_pos a). lia.
  - exists m. split; [lia|done].
  - etrans; [exact Hnc|]. apply Z.pow_le_mono_r; lia.
  - apply pow2_divide; lia.
  - intros M HM HnM Hdiv. pose proof (Hmin M HM HnM) as HcM.
    destruct HM as (e & He & ->). apply pow2_divide in Hdiv; [|lia..].
    apply pow2_le_inv in HcM; [|lia..]. apply Z.pow_le_mono_r; lia.
  - exists c. split; [lia|done].
  - done.
  - done.
  - lia.
  - rewrite <- Z.pow_add_r by lia. f_equal. lia.
  - intros c' Hc'. rewrite <- Z.pow_add_r by lia.
    rewrite pow2_divide by lia. lia.
Qed.

Lemma partition_sizer_correct_witness :
  ∃ N N0 c,
    (∀ fuel, (32 <= fuel)%nat → partition_sizer fuel 5 8 = Some (N, N / 8)) ∧
    pow2 N ∧ 5 <= N ∧ (8 | N) ∧
    (∀ M, pow2 M → 5 <= M → (8 | M) → N <= M) ∧
    pow2 N0 ∧ 5 <= N0 ∧ (∀ M, pow2 M → 5 <= M → N0 <= M) ∧
    0 <= c ∧ N = N0 * 2 ^ c ∧ (∀ c', 0 <= c' < c → ¬ (8 | N0 * 2 ^ c')).
Proof.
  apply (partition_sizer_correct 5 8).
  - change (2 ^ 30) with 1073741824. lia.
  - int_range_tac.
  - pow2_tac 3.
Defined.

(** C3 as stated fails where no power of two >= n is an [int]: for
    n = 2^30 + 1 the loop of [next_power_of_two] shifts p past the sign bit
    to 0 and never ends, whatever the fuel. *)
Lemma partition_sizer_overflow_counterexample :
  ¬ ∃ fuel r, partition_sizer fuel (2 ^ 30 + 1) 4 = Some r.
Proof.
  intros (fuel & r & Hsz). rewrite partition_sizer_overflow in Hsz; [done| |].
  - lia.
  - change (2 ^ 30 + 1) with 1073741825.
    int_range_tac.
Qed.

(** C6: when the process count is not a power of two, [main] aborts at the
    check, whatever the fuel: all that has happened is the usage line (when
    no argument was given) and the error message, so nothing was allocated,
    sorted, exchanged, gathered or reported; when it is a power of two the
    check passes and [main] goes on with the rest of its body. *)
Theorem power_of_two_check fuel arg size rnd :
  (is_power_of_two size = true ↔ pow2 size) ∧
  (¬ pow2 size →
     main fuel arg size rnd =
       Abort (usage_log arg ++ [EvErrorNotPowerOfTwo size])) ∧
  (pow2 size → main fuel arg size rnd = main_body fuel arg size rnd).
Proof.
  split_and!; [apply is_power_of_two_iff|..]; intros Hp; unfold main.
  - destruct (is_power_of_two size) eqn:E; [|done].
    by apply is_power_of_two_iff in E.
  - apply is_power_of_two_iff in Hp. by rewrite Hp.
Qed.

Lemma power_of_two_check_witness :
  main 0 None 3 (λ _, 0) = Abort [EvUsage; EvErrorNotPowerOfTwo 3] ∧
  main 40 (Some 8) 2 (λ _, 0) = main_body 40 (Some 8) 2 (λ _, 0).
Proof.
  split.
  - apply (power_of_two_check 0 None 3 (λ _, 0)).
    intros Hp. by apply is_power_of_two_iff in Hp.
  - apply (power_of_two_check 40 (Some 8) 2 (λ _, 0)).
    pow2_tac 1.
Defined.

(** ** Pairwise merge-select *)

Lemma merge_runs_list_merge a b : merge_runs a b = list_merge Z.le a b.
Proof.
  revert b. induction a as [|x a IHa]; intros b; [by destruct b|].
  induction b as [|y b IHb]; [done|].
  rewrite list_merge_cons. simpl merge_runs.
  destruct (Z.leb_spec x y); case_decide; try lia.
  - by rewrite IHa.
  - f_equal. exact IHb.
Qed.

Lemma merge_runs_perm a b : merge_runs a b ≡ₚ a ++ b.
Proof. rewrite merge_runs_list_merge. apply merge_Permutation. Qed.

Lemma merge_runs_sorted a b :
  Sorted Z.le a → Sorted Z.le b → Sorted Z.le (merge_runs a b).
Proof. rewrite merge_runs_list_merge. apply Sorted_list_merge, _. Qed.

Lemma merge_runs_length a b :
  length (merge_runs a b) = (length a + length b)%nat.
Proof. by rewrite merge_runs_perm, length_app. Qed.

(** Two ascending runs with the same elements merge to the same array,
    whichever comes first. *)
Lemma merge_runs_comm a b :
  Sorted Z.le a → Sorted Z.le b → merge_runs a b = merge_runs b a.
Proof.
  intros Ha Hb. apply (Sorted_unique Z.le); try by apply merge_runs_sorted.
  rewrite !merge_runs_perm. apply Permutation_app_comm.
Qed.

Lemma Sorted_take (l : list Z) n : Sorted Z.le l → Sorted Z.le (take n l).
Proof.
  intros Hl. apply Sorted_StronglySorted in Hl; [|apply _].
  rewrite <- (take_drop n l) in Hl.
  by apply StronglySorted_app_1_l, StronglySorted_Sorted in Hl.
Qed.

Lemma Sorted_drop (l : list Z) n : Sorted Z.le l → Sorted Z.le (drop n l).
Proof.
  intros Hl. apply Sorted_StronglySorted in Hl; [|apply _].
  rewrite <- (take_drop n l) in Hl.
  by apply StronglySorted_app_1_r, StronglySorted_Sorted in Hl.
Qed.

Lemma Sorted_take_drop_le (l : list Z) n x y :
  Sorted Z.le l → x ∈ take n l → y ∈ drop n l → x <= y.
Proof.
  intros Hl Hx Hy. apply Sorted_StronglySorted in Hl; [|apply _].
  rewrite <- (take_drop n l) in Hl.
  by apply (StronglySorted_app_1_elem_of _ _ _ x y) in Hl.
Qed.

(** The merged array [tmp] when both inputs have [len] elements. *)
Lemma merge_and_select_low a b len :
  Z.of_nat (length a) = len → Z.of_nat (length b) = len →
  merge_and_select a b len true = take (length a) (merge_runs a b).
Proof.
  intros Ha Hb. unfold merge_and_select.
  replace (Z.to_nat len) with (length a) by lia.
  rewrite (take_ge a) by done. by rewrite (take_ge b) by lia.
Qed.

Lemma merge_and_select_high a b len :
  Z.of_nat (length a) = len → Z.of_nat (length b) = len →
  merge_and_select a b len false = drop (length a) (merge_runs a b).
Proof.
  intros Ha Hb. unfold merge_and_select.
  replace (Z.to_nat len) with (length a) by lia.
  rewrite (take_ge a) by done. rewrite (take_ge b) by lia.
  apply take_ge. rewrite length_drop, merge_runs_length. lia.
Qed.

Lemma merge_and_select_length a b len keep :
  Z.of_nat (length a) = len → Z.of_nat (length b) = len →
  length (merge_and_select a b len keep) = length a.
Proof.
  intros Ha Hb. destruct keep.
  - rewrite merge_and_select_low by done.
    rewrite length_take, merge_runs_length. lia.
  - rewrite merge_and_select_high by done.
    rewrite length_drop, merge_runs_length. lia.
Qed.

Lemma merge_and_select_sorted a b len keep :
  Sorted Z.le a → Sorted Z.le b →
  Sorted Z.le (merge_and_select a b len keep).
Proof.
  intros Hsa Hsb. unfold merge_and_select.
  pose proof (merge_runs_sorted _ _ (Sorted_take a (Z.to_nat len) Hsa)
                (Sorted_take b (Z.to_nat len) Hsb)) as Hm.
  destruct keep; [by apply Sorted_take|by apply Sorted_take, Sorted_drop].
Qed.

(** The two halves kept by the two partners make up the union again. *)
Lemma merge_and_select_pair a b len :
  Z.of_nat (length a) = len → Z.of_nat (length b) = len →
  Sorted Z.le a → Sorted Z.le b →
  merge_and_select a b len true ++ merge_and_select b a len false ≡ₚ a ++ b.
Proof.
  intros Ha Hb Hsa Hsb.
  rewrite merge_and_select_low, merge_and_select_high by done.
  rewrite (merge_runs_comm b a) by done.
  replace (length b) with (length a) by lia.
  by rewrite take_drop, merge_runs_perm.
Qed.

(** C2: on two ascending arrays of [len] elements each, [merge_and_select]
    returns [len] elements in ascending order, whatever [keep_low]; with the
    elements it leaves out they make up the union of the two inputs, and
    every element returned is at most (keep_low) or at least (otherwise)
    every element left out: the result is the [len] smallest, or the [len]
    largest, of the 2 len values. *)
Theorem merge_and_select_correct a b len keep :
  Sorted Z.le a → Sorted Z.le b →
  Z.of_nat (length a) = len → Z.of_nat (length b) = len →
  let dst := merge_and_select a b len keep in
  Z.of_nat (length dst) = len ∧
  Sorted Z.le dst ∧
  ∃ rest,
    dst ++ rest ≡ₚ a ++ b ∧
    ∀ x y, x ∈ dst → y ∈ rest → if keep then x <= y else y <= x.
Proof.
  intros Hsa Hsb Ha Hb dst. subst dst. split_and!.
  - rewrite merge_and_select_length by done. done.
  - by apply merge_and_select_sorted.
  - pose proof (merge_runs_sorted a b Hsa Hsb) as Hs. destruct keep.
    + rewrite merge_and_select_low by done.
      exists (drop (length a) (merge_runs a b)). split.
      * by rewrite take_drop, merge_runs_perm.
      * intros x y. by apply Sorted_take_drop_le.
    + rewrite merge_and_select_high by done.
      exists (take (length a) (merge_runs a b)). split.
      * rewrite (comm (++)). by rewrite take_drop, merge_runs_perm.
      * intros x y Hx Hy.
        by apply (Sorted_take_drop_le (merge_runs a b) (length a)).
Qed.

Lemma merge_and_select_correct_witness :
  let dst := merge_and_select [1; 3; 5; 8] [2; 4; 7; 9] 4 false in
  Z.of_nat (length dst) = 4 ∧
  Sorted Z.le dst ∧
  ∃ rest,
    dst ++ rest ≡ₚ [1; 3; 5; 8] ++ [2; 4; 7; 9] ∧
    ∀ x y, x ∈ dst → y ∈ rest → y <= x.
Proof.
  apply (merge_and_select_correct [1; 3; 5; 8] [2; 4; 7; 9] 4 false);
    try reflexivity; repeat constructor; lia.
Defined.

(** ** Verifier *)

Lemma verify_scan_flag global idx :
  (verify_scan global idx).1 =
    forallb (λ i, negb (get global (i - 1) >? get global i)) idx.
Proof.
  induction idx as [|i idx IH]; [done|]. simpl.
  by destruct (get global (i - 1) >? get global i).
Qed.

Lemma verify_first_error_flag global n :
  (verify_first_error global n).1 = verify_sorted global n.
Proof. apply verify_scan_flag. Qed.

Lemma seqZ_of_nat_to_nat m len : seqZ m len = seqZ m (Z.of_nat (Z.to_nat len)).
Proof. unfold seqZ. by rewrite Nat2Z.id. Qed.

Lemma verify_scan_seqZ global (len : nat) : ∀ m,
  let r := verify_scan global (seqZ m (Z.of_nat len)) in
  if r.1 then
    r.2 = -1 ∧
    ∀ i, m <= i < m + Z.of_nat len → get global (i - 1) <= get global i
  else
    m <= r.2 < m + Z.of_nat len ∧
    get global (r.2 - 1) > get global r.2 ∧
    ∀ i, m <= i < r.2 → get global (i - 1) <= get global i.
Proof.
  induction len as [|len IH]; intros m; cbv zeta.
  - simpl. split; [done|]. lia.
  - rewrite seqZ_cons by lia. simpl verify_scan.
    replace (Z.pred (Z.of_nat (S len))) with (Z.of_nat len) by lia.
    destruct (Z.gtb_spec (get global (m - 1)) (get global m)) as [Hgt|Hle].
    + simpl. split_and!; lia.
    + specialize (IH (Z.succ m)). cbv zeta in IH.
      destruct (verify_scan global (seqZ (Z.succ m) (Z.of_nat len))) as [[] e];
        simpl in *.
      * destruct IH as [-> IH]. split; [done|]. intros i Hi.
        destruct (decide (i = m)) as [->|]; [done|]. apply IH. lia.
      * destruct IH as (He & Hbad & IH). split_and!; [lia..|done|].
        intros i Hi. destruct (decide (i = m)) as [->|]; [done|].
        apply IH. lia.
Qed.

Lemma verify_first_error_spec global n :
  let r := verify_first_error global n in
  if r.1 then
    r.2 = -1 ∧ ∀ i, 1 <= i < n → get global (i - 1) <= get global i
  else
    1 <= r.2 < n ∧
    get global (r.2 - 1) > get global r.2 ∧
    ∀ i, 1 <= i < r.2 → get global (i - 1) <= get global i.
Proof.
  unfold verify_first_error. rewrite seqZ_of_nat_to_nat.
  pose proof (verify_scan_seqZ global (Z.to_nat (n - 1)) 1) as H.
  cbv zeta in *.
  destruct (verify_scan global (seqZ 1 (Z.of_nat (Z.to_nat (n - 1)))))
    as [[] e]; simpl in *.
  - destruct H as [-> H]. split; [done|]. intros i Hi. apply H. lia.
  - destruct H as (He & Hbad & H). split_and!; [lia..|done|done].
Qed.

Lemma verify_sorted_true global n :
  verify_sorted global n = true ↔
  ∀ i, 1 <= i < n → get global (i - 1) <= get global i.
Proof.
  rewrite <- verify_first_error_flag.
  pose proof (verify_first_error_spec global n) as H. cbv zeta in H.
  destruct (verify_first_error global n) as [[] e]; simpl in *.
  - by destruct H.
  - destruct H as (He & Hbad & _). split; [done|].
    intros Hall. specialize (Hall e He). lia.
Qed.

Lemma get_take global (n : nat) i :
  0 <= i < Z.of_nat n → get (take n global) i = get global i.
Proof.
  intros Hi. unfold get. rewrite !list_lookup_total_alt.
  by rewrite lookup_take_lt by lia.
Qed.

Lemma verify_sorted_prefix global global' n :
  take (Z.to_nat n) global' = take (Z.to_nat n) global →
  verify_sorted global' n = verify_sorted global n.
Proof.
  intros Htake.
  assert (∀ g, verify_sorted g n = verify_sorted (take (Z.to_nat n) g) n)
    as Hpre; [|by rewrite (Hpre global'), (Hpre global), Htake].
  intros g. apply eq_true_iff_eq. rewrite !verify_sorted_true.
  split; intros H i Hi; specialize (H i Hi);
    by rewrite !get_take in * by lia.
Qed.

(** C8: the verifier answers "sorted" exactly when every adjacent pair among
    the first n elements is in order, and what lies at the indices from n on
    does not change its answer; the flag computed at the end of [main] in
    Extra/bitonicMPI.c is the same, and when it is "not sorted" that [main]
    prints the first index whose element is less than the one before it,
    with these two elements. *)
Theorem verifier_correct global n :
  (verify_sorted global n = true ↔
     ∀ i, 1 <= i < n → get global (i - 1) <= get global i) ∧
  (∀ global', take (Z.to_nat n) global' = take (Z.to_nat n) global →
     verify_sorted global' n = verify_sorted global n) ∧
  (verify_first_error global n).1 = verify_sorted global n ∧
  (verify_sorted global n = true → verify_report global n = None) ∧
  (verify_sorted global n = false →
     ∃ i, verify_report global n =
            Some (i, get global (i - 1), get global i) ∧
          1 <= i < n ∧ get global (i - 1) > get global i ∧
          ∀ i', 1 <= i' < i → get global (i' - 1) <= get global i').
Proof.
  split_and!.
  - apply verify_sorted_true.
  - intros global'. apply verify_sorted_prefix.
  - apply verify_first_error_flag.
  - rewrite <- verify_first_error_flag. unfold verify_report.
    by destruct (verify_first_error global n) as [[] e].
  - rewrite <- verify_first_error_flag. unfold verify_report.
    pose proof (verify_first_error_spec global n) as H. cbv zeta in H.
    destruct (verify_first_error global n) as [[] e]; simpl in *; [done|].
    intros _. by exists e.
Qed.

Lemma verifier_correct_witness :
  ∃ i, verify_report [1; 2; 5; 3; 4; 0] 5 =
         Some (i, get [1; 2; 5; 3; 4; 0] (i - 1), get [1; 2; 5; 3; 4; 0] i) ∧
       1 <= i < 5 ∧
       get [1; 2; 5; 3; 4; 0] (i - 1) > get [1; 2; 5; 3; 4; 0] i ∧
       ∀ i', 1 <= i' < i →
         get [1; 2; 5; 3; 4; 0] (i' - 1) <= get [1; 2; 5; 3; 4; 0] i'.
Proof.
  apply (verifier_correct [1; 2; 5; 3; 4; 0] 5). reflexivity.
Defined.

(** ** The local sort: what it touches *)

Lemma permutes_within_refl low cnt arr : permutes_within low cnt arr arr.
Proof. by split. Qed.

Lemma permutes_within_trans low cnt arr1 arr2 arr3 :
  permutes_within low cnt arr1 arr2 → permutes_within low cnt arr2 arr3 →
  permutes_within low cnt arr1 arr3.
Proof.
  intros [Hp1 Hf1] [Hp2 Hf2]. split; [by etrans|].
  intros i Hi. by rewrite Hf2, Hf1.
Qed.

Lemma permutes_within_mono low cnt low' cnt' arr arr' :
  low <= low' → low' + cnt' <= low + cnt →
  permutes_within low' cnt' arr arr' → permutes_within low cnt arr arr'.
Proof. intros Hlo Hhi [Hp Hf]. split; [done|]. intros i Hi. apply Hf. lia. Qed.

Lemma permutes_within_length low cnt arr arr' :
  permutes_within low cnt arr arr' → length arr' = length arr.
Proof. intros [Hp _]. by rewrite Hp. Qed.

Lemma swap_lookup (arr : list Z) (i j : nat) x y :
  arr !! i = Some x → arr !! j = Some y → ∀ m,
  <[j := x]> (<[i := y]> arr) !! m =
    arr !! (if decide (m = i) then j else if decide (m = j) then i else m).
Proof.
  intros Hi Hj m.
  pose proof (lookup_lt_Some _ _ _ Hi). pose proof (lookup_lt_Some _ _ _ Hj).
  destruct (decide (m = j)) as [->|Hmj].
  - rewrite list_lookup_insert_eq by (by rewrite length_insert).
    case_decide; by simplify_eq.
  - rewrite list_lookup_insert_ne by done.
    destruct (decide (m = i)) as [->|Hmi].
    + by rewrite list_lookup_insert_eq.
    + by rewrite list_lookup_insert_ne.
Qed.

Lemma swap_int_permutes low cnt arr i j :
  low <= i < low + cnt → low <= j < low + cnt → 0 <= low →
  low + cnt <= Z.of_nat (length arr) →
  permutes_within low cnt arr (swap_int arr i j).
Proof.
  intros Hi Hj Hlow Hlen. unfold swap_int, get.
  destruct (lookup_lt_is_Some_2 arr (Z.to_nat i)) as [x Hx]; [lia|].
  destruct (lookup_lt_is_Some_2 arr (Z.to_nat j)) as [y Hy]; [lia|].
  rewrite (list_lookup_total_correct _ _ _ Hx).
  rewrite (list_lookup_total_correct _ _ _ Hy).
  pose proof (swap_lookup arr _ _ x y Hx Hy) as Hsw. split.
  - apply Permutation_inj. split; [by rewrite !length_insert|].
    eexists. split; [|exact Hsw].
    intros m1 m2. repeat case_decide; lia.
  - intros m Hm. rewrite Hsw. repeat case_decide; (done || lia).
Qed.

Lemma compare_and_swap_at_permutes low k dir arr i :
  low <= i < low + k → 0 <= low →
  low + 2 * k <= Z.of_nat (length arr) →
  permutes_within low (2 * k) arr (compare_and_swap_at k dir arr i).
Proof.
  intros Hi Hlow Hlen. unfold compare_and_swap_at.
  repeat case_match; try apply permutes_within_refl;
    apply swap_int_permutes; lia.
Qed.

Lemma bitonic_compare_and_swap_permutes arr low k dir :
  0 <= low → low + 2 * k <= Z.of_nat (length arr) →
  permutes_within low (2 * k) arr (bitonic_compare_and_swap arr low k dir).
Proof.
  intros Hlow Hlen. unfold bitonic_compare_and_swap.
  assert (Forall (λ i, low <= i < low + k) (seqZ low k)) as Hidx.
  { apply Forall_forall. intros i Hi. apply elem_of_seqZ in Hi. lia. }
  revert arr Hlen. induction Hidx as [|i idx Hi _ IH]; intros arr Hlen.
  - apply permutes_within_refl.
  - simpl. pose proof (compare_and_swap_at_permutes low k dir arr i Hi Hlow Hlen)
      as Hstep.
    eapply permutes_within_trans; [exact Hstep|]. apply IH.
    by rewrite (permutes_within_length _ _ _ _ Hstep).
Qed.

Lemma half_bound cnt : 1 < cnt → 0 < Z.quot cnt 2 ∧ 2 * Z.quot cnt 2 <= cnt.
Proof.
  intros Hc. rewrite Z.quot_div_nonneg by lia.
  pose proof (Z.div_mod cnt 2). pose proof (Z.mod_pos_bound cnt 2). lia.
Qed.

Lemma bitonic_merge_fuel_permutes fuel : ∀ arr low cnt dir,
  0 <= low → low + cnt <= Z.of_nat (length arr) →
  permutes_within low cnt arr (bitonic_merge_fuel fuel arr low cnt dir).
Proof.
  induction fuel as [|fuel IH]; intros arr low cnt dir Hlow Hlen;
    [apply permutes_within_refl|].
  simpl. destruct (Z.leb_spec cnt 1) as [|Hcnt]; [apply permutes_within_refl|].
  destruct (half_bound cnt Hcnt) as [Hk0 Hk].
  set (k := Z.quot cnt 2) in *.
  pose proof (bitonic_compare_and_swap_permutes arr low k dir Hlow) as H1.
  set (arr1 := bitonic_compare_and_swap arr low k dir) in *.
  specialize (H1 ltac:(lia)).
  pose proof (permutes_within_length _ _ _ _ H1) as Hl1.
  pose proof (IH arr1 low k dir Hlow ltac:(lia)) as H2.
  set (arr2 := bitonic_merge_fuel fuel arr1 low k dir) in *.
  pose proof (permutes_within_length _ _ _ _ H2) as Hl2.
  pose proof (IH arr2 (low + k) k dir ltac:(lia) ltac:(lia)) as H3.
  eapply permutes_within_trans;
    [|eapply permutes_within_mono; [| |exact H3]; lia].
  eapply permutes_within_trans;
    eapply permutes_within_mono; [| |exact H1| | |exact H2]; lia.
Qed.

Lemma bitonic_merge_recursive_permutes arr low cnt dir :
  0 <= low → low + cnt <= Z.of_nat (length arr) →
  permutes_within low cnt arr (bitonic_merge_recursive arr low cnt dir).
Proof. apply bitonic_merge_fuel_permutes. Qed.

Lemma bitonic_sort_fuel_permutes fuel : ∀ arr low cnt dir,
  0 <= low → low + cnt <= Z.of_nat (length arr) →
  permutes_within low cnt arr (bitonic_sort_fuel fuel arr low cnt dir).
Proof.
  induction fuel as [|fuel IH]; intros arr low cnt dir Hlow Hlen;
    [apply permutes_within_refl|].
  simpl. destruct (Z.leb_spec cnt 1) as [|Hcnt]; [apply permutes_within_refl|].
  destruct (half_bound cnt Hcnt) as [Hk0 Hk].
  set (k := Z.quot cnt 2) in *.
  pose proof (IH arr low k 1 Hlow ltac:(lia)) as H1.
  set (arr1 := bitonic_sort_fuel fuel arr low k 1) in *.
  pose proof (permutes_within_length _ _ _ _ H1) as Hl1.
  pose proof (IH arr1 (low + k) k 0 ltac:(lia) ltac:(lia)) as H2.
  set (arr2 := bitonic_sort_fuel fuel arr1 (low + k) k 0) in *.
  pose proof (permutes_within_length _ _ _ _ H2) as Hl2.
  pose proof (bitonic_merge_recursive_permutes arr2 low cnt dir Hlow ltac:(lia))
    as H3.
  eapply permutes_within_trans; [|exact H3].
  eapply permutes_within_trans;
    eapply permutes_within_mono; [| |exact H1| | |exact H2]; lia.
Qed.

(** What [permutes_within] says about the segment itself. *)
Lemma permutes_within_segment low cnt arr arr' :
  0 <= low → 0 <= cnt → low + cnt <= Z.of_nat (length arr) →
  permutes_within low cnt arr arr' →
  take (Z.to_nat low) arr' = take (Z.to_nat low) arr ∧
  drop (Z.to_nat (low + cnt)) arr' = drop (Z.to_nat (low + cnt)) arr ∧
  take (Z.to_nat cnt) (drop (Z.to_nat low) arr') ≡ₚ
    take (Z.to_nat cnt) (drop (Z.to_nat low) arr).
Proof.
  intros Hlow Hcnt Hlen [Hp Hf].
  assert (Hl : length arr' = length arr) by (by rewrite Hp).
  assert (Hpre : take (Z.to_nat low) arr' = take (Z.to_nat low) arr).
  { apply list_eq. intros i. destruct (decide (i < Z.to_nat low)%nat).
    - rewrite !lookup_take_lt by done. apply Hf. lia.
    - by rewrite !lookup_take_ge by lia. }
  assert (Hpost : drop (Z.to_nat (low + cnt)) arr' =
                  drop (Z.to_nat (low + cnt)) arr).
  { apply list_eq. intros i. rewrite !lookup_drop. apply Hf. lia. }
  split_and!; [done..|].
  apply (Permutation_app_inv_l (take (Z.to_nat low) arr)).
  apply (Permutation_app_inv_r (drop (Z.to_nat (low + cnt)) arr)).
  rewrite <- Hpre at 1. rewrite <- Hpost at 1.
  rewrite !take_take_drop. rewrite <- !Z2Nat.inj_add by lia.
  by rewrite !take_drop.
Qed.

(** C10: [bitonic_sort_recursive (arr, low, cnt, dir)] with the segment
    [low, low + cnt) inside the array leaves every element outside the
    segment where it is, and the segment holds afterwards a permutation of
    what it held before. *)
Theorem bitonic_sort_recursive_frame arr low cnt dir :
  0 <= low → low + cnt <= Z.of_nat (length arr) →
  let arr' := bitonic_sort_recursive arr low cnt dir in
  length arr' = length arr ∧
  (∀ i : nat, Z.of_nat i < low ∨ low + cnt <= Z.of_nat i →
     arr' !! i = arr !! i) ∧
  take (Z.to_nat cnt) (drop (Z.to_nat low) arr') ≡ₚ
    take (Z.to_nat cnt) (drop (Z.to_nat low) arr).
Proof.
  intros Hlow Hlen arr'.
  destruct (Z.le_gt_cases 0 cnt) as [Hcnt|Hneg].
  - pose proof (bitonic_sort_fuel_permutes (Z.to_nat cnt) arr low cnt dir
                  Hlow Hlen) as H.
    fold (bitonic_sort_recursive arr low cnt dir) in H. fold arr' in H.
    split_and!.
    + by apply (permutes_within_length low cnt).
    + by destruct H.
    + by apply permutes_within_segment.
  - assert (arr' = arr) as ->; [|done].
    subst arr'. unfold bitonic_sort_recursive.
    by replace (Z.to_nat cnt) with 0%nat by lia.
Qed.

Lemma bitonic_sort_recursive_frame_witness :
  let arr := [9; 5; 3; 8; 1; 7; 0] in
  let arr' := bitonic_sort_recursive arr 1 4 1 in
  length arr' = length arr ∧
  (∀ i : nat, Z.of_nat i < 1 ∨ 1 + 4 <= Z.of_nat i → arr' !! i = arr !! i) ∧
  take (Z.to_nat 4) (drop (Z.to_nat 1) arr') ≡ₚ
    take (Z.to_nat 4) (drop (Z.to_nat 1) arr).
Proof.
  apply (bitonic_sort_recursive_frame [9; 5; 3; 8; 1; 7; 0] 1 4 1);
    simpl; lia.
Defined.

(** ** Ranks, partners and directions *)

Lemma land_pow2_eqb r i :
  0 <= i → (Z.land r (2 ^ i) =? 0) = negb (Z.testbit r i).
Proof.
  intros Hi. destruct (Z.testbit r i) eqn:Hbit; simpl.
  - apply Z.eqb_neq. intros Hland.
    assert (Z.testbit (Z.land r (2 ^ i)) i = true) as Hb.
    { by rewrite Z.land_spec, Hbit, Z.pow2_bits_true. }
    by rewrite Hland, Z.bits_0 in Hb.
  - apply Z.eqb_eq. apply Z.bits_inj'. intros n Hn.
    rewrite Z.land_spec, Z.bits_0, Z.pow2_bits_eqb by done.
    destruct (Z.eqb_spec i n) as [->|]; [by rewrite Hbit|].
    apply andb_false_r.
Qed.

Lemma testbit_div_pow2 r i : 0 <= i → Z.testbit r i = Z.odd (r / 2 ^ i).
Proof. intros Hi. by rewrite Z.testbit_odd, Z.shiftr_div_pow2. Qed.

Lemma lxor_pow2_clear r i :
  0 <= i → Z.testbit r i = false → Z.lxor r (2 ^ i) = r + 2 ^ i.
Proof.
  intros Hi Hbit. symmetry. apply Z.add_nocarry_lxor.
  apply Z.eqb_eq. by rewrite land_pow2_eqb, Hbit.
Qed.

Lemma lxor_involutive r j : Z.lxor (Z.lxor r j) j = r.
Proof. by rewrite Z.lxor_assoc, Z.lxor_nilpotent, Z.lxor_0_r. Qed.

Lemma lxor_pow2_testbit r i n :
  0 <= i → 0 <= n →
  Z.testbit (Z.lxor r (2 ^ i)) n = xorb (Z.testbit r n) (i =? n).
Proof. intros Hi Hn. by rewrite Z.lxor_spec, Z.pow2_bits_eqb. Qed.

Lemma lxor_pow2_set r i :
  0 <= i → Z.testbit r i = true → Z.lxor r (2 ^ i) = r - 2 ^ i.
Proof.
  intros Hi Hbit.
  assert (Z.testbit (Z.lxor r (2 ^ i)) i = false) as Hb.
  { by rewrite lxor_pow2_testbit, Hbit, Z.eqb_refl. }
  apply (lxor_pow2_clear _ i Hi) in Hb. rewrite lxor_involutive in Hb. lia.
Qed.

(** The partner lies in the same block of [2^(i+1)] ranks. *)
Lemma lxor_pow2_block r i :
  0 <= i → Z.lxor r (2 ^ i) / 2 ^ (i + 1) = r / 2 ^ (i + 1).
Proof.
  intros Hi. rewrite <- !Z.shiftr_div_pow2 by lia.
  apply Z.bits_inj'. intros n Hn. rewrite !Z.shiftr_spec by done.
  rewrite lxor_pow2_testbit by lia.
  rewrite (proj2 (Z.eqb_neq _ _)) by lia. apply xorb_false_r.
Qed.

Lemma div_pow2_coarser x y a b :
  0 <= a <= b → x / 2 ^ a = y / 2 ^ a → x / 2 ^ b = y / 2 ^ b.
Proof.
  intros Hab Heq. replace b with (a + (b - a)) by lia.
  rewrite Z.pow_add_r by lia.
  pose proof (pow2_pos a). pose proof (pow2_pos (b - a)).
  rewrite <- !Z.div_div by lia. by rewrite Heq.
Qed.

Lemma partner_partner r j : partner (partner r j) j = r.
Proof. apply lxor_involutive. Qed.

Lemma partner_neq r j : j ≠ 0 → partner r j ≠ r.
Proof.
  unfold partner. intros Hj Heq. apply Hj.
  assert (j = Z.lxor r (Z.lxor r j)) as Hjr.
  { by rewrite <- Z.lxor_assoc, Z.lxor_nilpotent, Z.lxor_0_l. }
  by rewrite Heq, Z.lxor_nilpotent in Hjr.
Qed.

Lemma div_pow2_zero x d : 0 <= d → x / 2 ^ d = 0 ↔ 0 <= x < 2 ^ d.
Proof.
  intros Hd. pose proof (pow2_pos d Hd). rewrite Z.div_small_iff by lia. lia.
Qed.

Lemma partner_range r i d :
  0 <= i < d → 0 <= r < 2 ^ d → 0 <= partner r (2 ^ i) < 2 ^ d.
Proof.
  intros Hi Hr. apply div_pow2_zero; [lia|].
  apply div_pow2_zero in Hr; [|lia]. rewrite <- Hr. unfold partner.
  apply (div_pow2_coarser _ _ (i + 1)); [lia|]. apply lxor_pow2_block. lia.
Qed.

Lemma keep_low_bits r m i :
  0 <= m → 0 <= i →
  keep_low r (2 ^ m) (2 ^ i) =
    if Z.testbit r m then Z.testbit r i else negb (Z.testbit r i).
Proof.
  intros Hm Hi. unfold keep_low. rewrite !land_pow2_eqb by done.
  by destruct (Z.testbit r m), (Z.testbit r i).
Qed.

Lemma keep_low_partner r m i :
  0 <= i < m →
  keep_low (partner r (2 ^ i)) (2 ^ m) (2 ^ i) =
    negb (keep_low r (2 ^ m) (2 ^ i)).
Proof.
  intros Him. rewrite !keep_low_bits by lia. unfold partner.
  rewrite !lxor_pow2_testbit by lia. rewrite Z.eqb_refl.
  rewrite (proj2 (Z.eqb_neq i m)) by lia.
  by destruct (Z.testbit r m), (Z.testbit r i).
Qed.

(** ** One round *)

Lemma round_of_length L k j ps : length (round_of L k j ps) = length ps.
Proof. unfold round_of. by rewrite length_fmap, length_seq. Qed.

Lemma round_of_lookup L k j ps (r : nat) :
  (r < length ps)%nat →
  round_of L k j ps !! r =
    Some (merge_and_select (ps !!! r)
            (ps !!! Z.to_nat (partner (Z.of_nat r) j)) L
            (keep_low (Z.of_nat r) k j)).
Proof.
  intros Hr. unfold round_of. rewrite list_lookup_fmap.
  by rewrite lookup_seq_lt by done.
Qed.

Lemma round_of_lookup_total L k j ps (r : nat) :
  (r < length ps)%nat →
  round_of L k j ps !!! r =
    merge_and_select (ps !!! r)
      (ps !!! Z.to_nat (partner (Z.of_nat r) j)) L
      (keep_low (Z.of_nat r) k j).
Proof.
  intros Hr. apply list_lookup_total_correct. by apply round_of_lookup.
Qed.

(** With every partner inside the communicator no exchange fails. *)
Lemma exchange_round_spec L k j ps :
  (∀ r : nat, (r < length ps)%nat →
     0 <= partner (Z.of_nat r) j < Z.of_nat (length ps)) →
  exchange_round L k j ps = Some (round_of L k j ps).
Proof.
  intros Hp. unfold exchange_round. apply mapM_Some.
  apply Forall2_same_length_lookup. split.
  - by rewrite round_of_length, length_seq.
  - intros i r dst Hi Hdst. apply lookup_seq in Hi as [-> Hi]. simpl in *.
    rewrite round_of_lookup in Hdst by done. simplify_eq.
    unfold exchange_at, sendrecv. specialize (Hp i Hi).
    rewrite (list_lookup_lookup_total_lt ps i) by done. simpl.
    rewrite (proj2 (Z.leb_le _ _)) by lia.
    by rewrite list_lookup_lookup_total_lt by lia.
Qed.

Lemma partitions_ok_lookup L ps (r : nat) :
  partitions_ok L ps → (r < length ps)%nat →
  Z.of_nat (length (ps !!! r)) = L ∧ Sorted Z.le (ps !!! r).
Proof.
  intros Hok Hr. destruct (lookup_lt_is_Some_2 ps r Hr) as [local Hl].
  rewrite (list_lookup_total_correct _ _ _ Hl).
  by apply (Forall_lookup_1 _ _ _ _ Hok Hl).
Qed.

Lemma round_of_ok L k j ps :
  (∀ r : nat, (r < length ps)%nat →
     0 <= partner (Z.of_nat r) j < Z.of_nat (length ps)) →
  partitions_ok L ps → partitions_ok L (round_of L k j ps).
Proof.
  intros Hp Hok. apply Forall_lookup_2. intros r dst Hdst.
  assert (r < length ps)%nat as Hr.
  { rewrite <- (round_of_length L k j). by eapply lookup_lt_Some. }
  rewrite round_of_lookup in Hdst by done. simplify_eq.
  specialize (Hp r Hr).
  destruct (partitions_ok_lookup L ps r Hok Hr) as [Hl Hs].
  destruct (partitions_ok_lookup L ps
              (Z.to_nat (partner (Z.of_nat r) j)) Hok ltac:(lia)) as [Hl' Hs'].
  split.
  - by rewrite merge_and_select_length.
  - by apply merge_and_select_sorted.
Qed.

(** The partitions of two partners after a round hold together what they
    held together before it. *)
Lemma round_of_pair L d m i ps (r : nat) :
  0 <= i < m → Z.of_nat (length ps) = 2 ^ d → i < d →
  partitions_ok L ps → (r < length ps)%nat →
  let p := Z.to_nat (partner (Z.of_nat r) (2 ^ i)) in
  round_of L (2 ^ m) (2 ^ i) ps !!! r ++ round_of L (2 ^ m) (2 ^ i) ps !!! p ≡ₚ
    ps !!! r ++ ps !!! p.
Proof.
  intros Him Hlen Hid Hok Hr p.
  assert (0 <= partner (Z.of_nat r) (2 ^ i) < 2 ^ d) as Hp
    by (apply partner_range; lia).
  pose proof (partner_partner (Z.of_nat r) (2 ^ i)) as Hpp.
  pose proof (keep_low_partner (Z.of_nat r) m i Him) as Hkeep.
  rewrite !round_of_lookup_total by lia. unfold p.
  rewrite Z2Nat.id by lia. rewrite Hpp, Hkeep, Nat2Z.id.
  destruct (partitions_ok_lookup L ps r Hok Hr) as [Hl Hs].
  destruct (partitions_ok_lookup L ps
              (Z.to_nat (partner (Z.of_nat r) (2 ^ i))) Hok ltac:(lia))
    as [Hl' Hs'].
  destruct (keep_low (Z.of_nat r) (2 ^ m) (2 ^ i)); simpl.
  - by apply merge_and_select_pair.
  - rewrite (comm (++)). rewrite (comm (++) (ps !!! r)).
    by apply merge_and_select_pair.
Qed.

(** C9: in a round (k, j) of the schedule, with j < k <= P powers of two,
    the partner [rank XOR j] of a rank below P is again a rank below P, its
    partner is the rank itself and never the rank, and exactly one of the
    two keeps the low half; so, the partitions being ascending runs of
    [local_size] elements as they are in every round, the two partitions
    after the round hold together what they held together before it. *)
Theorem partner_exchange_correct P k j L ps (r : nat) :
  pow2 P → pow2 k → pow2 j → j < k <= P →
  Z.of_nat (length ps) = P → partitions_ok L ps → (r < length ps)%nat →
  let rank := Z.of_nat r in
  let p := partner rank j in
  0 <= p < P ∧ partner p j = rank ∧ p ≠ rank ∧
  keep_low p k j = negb (keep_low rank k j) ∧
  round_of L k j ps !!! r ++ round_of L k j ps !!! Z.to_nat p ≡ₚ
    ps !!! r ++ ps !!! Z.to_nat p.
Proof.
  intros (d & Hd & ->) (m & Hm & ->) (i & Hi & ->) [Hjk HkP] Hlen Hok Hr
    rank p.
  apply pow2_lt_inv in Hjk; [|done..]. apply pow2_le_inv in HkP; [|done..].
  assert (0 <= p < 2 ^ d) as Hp by (apply partner_range; lia).
  split_and!; [lia|lia|..].
  - apply partner_partner.
  - apply partner_neq. pose proof (pow2_pos i Hi). lia.
  - apply keep_low_partner. lia.
  - apply (round_of_pair L d); (done || lia).
Qed.

Lemma partner_exchange_correct_witness :
  let ps := [[1; 3]; [2; 9]; [0; 4]; [5; 6]] in
  0 <= partner 1 2 < 4 ∧ partner (partner 1 2) 2 = 1 ∧ partner 1 2 ≠ 1 ∧
  keep_low (partner 1 2) 4 2 = negb (keep_low 1 4 2) ∧
  round_of 2 4 2 ps !!! 1%nat ++ round_of 2 4 2 ps !!! Z.to_nat (partner 1 2)
    ≡ₚ ps !!! 1%nat ++ ps !!! Z.to_nat (partner 1 2).
Proof.
  apply (partner_exchange_correct 4 4 2 2 [[1; 3]; [2; 9]; [0; 4]; [5; 6]] 1).
  - pow2_tac 2.
  - pow2_tac 2.
  - pow2_tac 1.
  - lia.
  - reflexivity.
  - repeat constructor; lia.
  - simpl. lia.
Defined.

(** ** The loops of the network *)

Lemma partner_valid d j (ps : list (list Z)) :
  Z.of_nat (length ps) = 2 ^ d → 0 <= j < d →
  ∀ r : nat, (r < length ps)%nat →
    0 <= partner (Z.of_nat r) (2 ^ j) < Z.of_nat (length ps).
Proof. intros Hlen Hj r Hr. rewrite Hlen. apply partner_range; lia. Qed.

Lemma phase_rounds_length L k a : ∀ ps,
  length (phase_rounds L k a ps) = length ps.
Proof.
  induction a as [|a IH]; intros ps; [done|]. simpl.
  by rewrite IH, round_of_length.
Qed.

Lemma phases_length L c : ∀ m ps, length (phases L m c ps) = length ps.
Proof.
  induction c as [|c IH]; intros m ps; [done|]. cbn [phases].
  by rewrite IH, phase_rounds_length.
Qed.

Lemma inner_loop_spec L k d (a : nat) : ∀ fuel ps lg,
  (a < fuel)%nat → Z.of_nat a <= d → Z.of_nat (length ps) = 2 ^ d →
  inner_loop fuel L k (shr1 (2 ^ Z.of_nat a)) (World ps lg) =
    Done (World (phase_rounds L k a ps) (lg ++ phase_events k a)).
Proof.
  induction a as [|a IH]; intros fuel ps lg Hfuel Had Hlen;
    (destruct fuel as [|fuel]; [lia|]).
  - simpl. by rewrite app_nil_r.
  - replace (Z.of_nat (S a)) with (Z.of_nat a + 1) by lia.
    rewrite shr1_pow2 by lia. simpl inner_loop.
    rewrite (proj2 (Z.ltb_lt _ _)) by (apply pow2_pos; lia).
    rewrite exchange_round_spec by (apply (partner_valid d); [done|lia]).
    rewrite IH; [|lia|lia|by rewrite round_of_length].
    simpl. by rewrite <- app_assoc.
Qed.

Lemma outer_loop_S fuel L size k w :
  outer_loop (S fuel) L size k w =
    if k <=? size then
      w' ← inner_loop fuel L k (shr1 k) w;
      outer_loop fuel L size (shl1 k) w'
    else Done w.
Proof. done. Qed.

Lemma outer_loop_phases L d (c : nat) : ∀ (m : nat) fuel ps lg,
  Z.of_nat (m + c + 1) = d → d <= 30 → (Z.to_nat d < fuel)%nat →
  Z.of_nat (length ps) = 2 ^ d →
  outer_loop (S c + fuel) L (2 ^ d) (2 ^ Z.of_nat (S m)) (World ps lg) =
    outer_loop fuel L (2 ^ d) (shl1 (2 ^ d))
      (World (phases L m (S c) ps) (lg ++ schedule m (S c))).
Proof.
  induction c as [|c IH]; intros m fuel ps lg Hd Hd30 Hfuel Hlen.
  - change (1 + fuel)%nat with (S fuel). rewrite outer_loop_S.
    replace d with (Z.of_nat (S m)) at 1 by lia. rewrite Z.leb_refl.
    rewrite (inner_loop_spec L _ d); [|lia..|done].
    cbn [mbind run_bind phases schedule]. rewrite app_nil_r.
    by replace (Z.of_nat (S m)) with d by lia.
  - change (S (S c) + fuel)%nat with (S (S c + fuel)). rewrite outer_loop_S.
    rewrite (proj2 (Z.leb_le _ _)) by (apply Z.pow_le_mono_r; lia).
    rewrite (inner_loop_spec L _ d); [|lia..|done].
    cbn [mbind run_bind].
    replace (shl1 (2 ^ Z.of_nat (S m))) with (2 ^ Z.of_nat (S (S m))).
    2:{ rewrite shl1_pow2 by lia. f_equal. lia. }
    rewrite (IH (S m)); [|lia|done|done|by rewrite phase_rounds_length].
    cbn [phases schedule]. by rewrite <- app_assoc.
Qed.

Lemma outer_loop_zero L size fuel w :
  0 <= size → outer_loop fuel L size 0 w = Timeout (log w).
Proof.
  intros Hsize. induction fuel as [|fuel IH]; [done|]. rewrite outer_loop_S.
  rewrite (proj2 (Z.leb_le _ _)) by done.
  destruct fuel as [|fuel]; [done|]. exact IH.
Qed.

(** With fewer than 2^30 processes the loops end, after the phases
    k = 2, 4, ..., size. *)
Lemma network_spec L d fuel ps lg :
  0 <= d < 30 → (2 * Z.to_nat d + 2 <= fuel)%nat →
  Z.of_nat (length ps) = 2 ^ d →
  network fuel L (2 ^ d) (World ps lg) =
    Done (World (phases L 0 (Z.to_nat d) ps) (lg ++ schedule 0 (Z.to_nat d))).
Proof.
  intros Hd Hfuel Hlen. unfold network.
  destruct (Z.to_nat d) as [|c] eqn:Hc.
  - replace d with 0 by lia. destruct fuel as [|fuel]; [lia|].
    simpl. by rewrite app_nil_r.
  - change 2 with (2 ^ Z.of_nat 1) at 2.
    replace fuel with (S c + (fuel - S c))%nat by lia.
    rewrite (outer_loop_phases L d c 0); [|lia..|done].
    destruct (fuel - S c)%nat as [|fuel'] eqn:Hf; [lia|].
    rewrite outer_loop_S, shl1_pow2 by lia.
    rewrite (proj2 (Z.leb_gt _ _)); [done|]. apply Z.pow_lt_mono_r; lia.
Qed.

(** With 2^30 processes the rounds are the same, but [k <<= 1] then takes
    [k] to [INT_MIN] and to 0, and the outer loop does not end. *)
Lemma network_spec_overflow L fuel ps lg :
  (62 <= fuel)%nat → Z.of_nat (length ps) = 2 ^ 30 →
  network fuel L (2 ^ 30) (World ps lg) = Timeout (lg ++ schedule 0 30).
Proof.
  intros Hfuel Hlen. unfold network. change 2 with (2 ^ Z.of_nat 1) at 2.
  replace fuel with (30 + (fuel - 30))%nat by lia.
  rewrite (outer_loop_phases L 30 29 0); [|lia..|done].
  destruct (fuel - 30)%nat as [|fuel'] eqn:Hf; [lia|].
  destruct fuel' as [|fuel']; [lia|].
  rewrite outer_loop_S. change (shl1 (2 ^ 30)) with (-2147483648).
  change (-2147483648 <=? 2 ^ 30) with true. cbv iota.
  change (shr1 (-2147483648)) with (-1073741824).
  change (inner_loop (S fuel') L (-2147483648) (-1073741824) ?w)
    with (Done (A:=world) w).
  cbn [mbind run_bind]. change (shl1 (-2147483648)) with 0.
  by rewrite outer_loop_zero.
Qed.

Lemma phase_events_length k a : length (phase_events k a) = a.
Proof. induction a as [|a IH]; [done|]. simpl. by rewrite IH. Qed.

Lemma schedule_length c : ∀ m,
  2 * Z.of_nat (length (schedule m c)) =
    Z.of_nat c * (2 * Z.of_nat m + Z.of_nat c + 1).
Proof.
  induction c as [|c IH]; intros m; [simpl; lia|].
  cbn [schedule]. rewrite length_app, phase_events_length.
  specialize (IH (S m)). lia.
Qed.

Lemma rounds_app lg1 lg2 : rounds (lg1 ++ lg2) = rounds lg1 + rounds lg2.
Proof. unfold rounds. rewrite filter_app, length_app. lia. Qed.

Lemma rounds_phase_events k a : rounds (phase_events k a) = Z.of_nat a.
Proof.
  unfold rounds. induction a as [|a IH]; [done|]. cbn [phase_events].
  rewrite filter_cons_True by done. cbn [length]. lia.
Qed.

Lemma rounds_schedule c : ∀ m,
  rounds (schedule m c) = Z.of_nat (length (schedule m c)).
Proof.
  induction c as [|c IH]; intros m; [done|]. cbn [schedule].
  rewrite rounds_app, rounds_phase_events, IH, length_app, phase_events_length.
  lia.
Qed.

(** C5: for every power of two P that is an [int], the network on P
    processes goes through exactly log2(P) (log2(P) + 1) / 2 exchange
    rounds, those of the schedule, whatever the partitions and their length;
    with P < 2^30 it then ends.  (With P = 2^30 the rounds are the same but
    the loop on k does not end: see [network_spec_overflow].) *)
Theorem exchange_round_count P L w fuel :
  pow2 P → int_range P → Z.of_nat (length (parts w)) = P →
  (62 <= fuel)%nat →
  let d := Z.log2 P in
  run_log (network fuel L P w) = log w ++ schedule 0 (Z.to_nat d) ∧
  rounds (run_log (network fuel L P w)) = rounds (log w) + d * (d + 1) / 2 ∧
  (P < 2 ^ 30 → ∃ ps,
     network fuel L P w = Done (World ps (log w ++ schedule 0 (Z.to_nat d)))).
Proof.
  intros HP Hr Hlen Hfuel d.
  destruct (pow2_int_range P HP Hr) as (e & He & ->).
  assert (d = e) as -> by (apply Z.log2_pow2; lia).
  destruct w as [ps lg]. simpl in Hlen. cbn [log].
  assert (rounds (schedule 0 (Z.to_nat e)) = e * (e + 1) / 2) as Hcount.
  { rewrite rounds_schedule.
    pose proof (schedule_length (Z.to_nat e) 0) as Hlen2.
    rewrite Z2Nat.id in Hlen2 by lia. apply Z.div_unique_exact; lia. }
  destruct (decide (e = 30)) as [->|Hne].
  - change (Z.to_nat 30) with 30%nat in *.
    rewrite network_spec_overflow by done. cbn [run_log].
    split_and!; [done| |].
    + by rewrite rounds_app, Hcount.
    + intros Hlt. lia.
  - rewrite network_spec by (done || lia). cbn [run_log log].
    split_and!; [done| |by eauto].
    by rewrite rounds_app, Hcount.
Qed.

Lemma exchange_round_count_witness :
  let w := World [[3]; [1]; [2]; [0]] [] in
  run_log (network 62 1 4 w) = log w ++ schedule 0 (Z.to_nat (Z.log2 4)) ∧
  rounds (run_log (network 62 1 4 w)) =
    rounds (log w) + Z.log2 4 * (Z.log2 4 + 1) / 2 ∧
  (4 < 2 ^ 30 → ∃ ps,
     network 62 1 4 w =
       Done (World ps (log w ++ schedule 0 (Z.to_nat (Z.log2 4))))).
Proof.
  apply (exchange_round_count 4 1 (World [[3]; [1]; [2]; [0]] []) 62).
  - pow2_tac 2.
  - int_range_tac.
  - reflexivity.
  - lia.
Defined.

(** ** The half-cleaner on lows and highs

    One step of a bitonic merge on the block [b, b + 2j): position [i] of
    the lower half is compared with position [i + j].  [X] and [Y] are
    "has a high" and "has a low" before the step, in the order of the
    direction; [X'] and [Y'] are the same after the step. *)

Lemma bitonic01_sym X Y lo hi : bitonic01 X Y lo hi → bitonic01 Y X lo hi.
Proof. by intros [??]. Qed.

Lemma bitonic01_of_halves X Y lo mid hi :
  ordered01 X Y lo mid → ordered01 Y X mid hi → bitonic01 X Y lo hi.
Proof.
  intros Hlo Hhi. split; intros i1 i2 i3 i4 ????? (H1 & H2 & H3 & H4).
  - destruct (Z.lt_ge_cases i2 mid).
    + apply (Hlo i1 i2); [lia..|done].
    + apply (Hhi i2 i3); [lia..|done].
  - destruct (Z.lt_ge_cases i3 mid).
    + apply (Hlo i2 i3); [lia..|done].
    + apply (Hhi i3 i4); [lia..|done].
Qed.

Lemma no4_ext X Y X' Y' lo hi :
  (∀ i, lo <= i < hi → X' i → X i) → (∀ i, lo <= i < hi → Y' i → Y i) →
  no4 X Y lo hi → no4 X' Y' lo hi.
Proof.
  intros HX HY H i1 i2 i3 i4 ????? (H1 & H2 & H3 & H4).
  apply (H i1 i2 i3 i4); [lia..|].
  split_and!; (apply HX || apply HY); (lia || done).
Qed.

Lemma bitonic01_ext X Y X' Y' lo hi :
  (∀ i, lo <= i < hi → X' i → X i) → (∀ i, lo <= i < hi → Y' i → Y i) →
  bitonic01 X Y lo hi → bitonic01 X' Y' lo hi.
Proof. intros HX HY [H1 H2]. split; by eapply no4_ext. Qed.

Section half_cleaner.
Context (X Y : Z → Prop) (b j : Z).
Hypothesis Hbit : bitonic01 X Y b (b + 2 * j).

(** [P] needs X at both positions of its pair, [Q] needs Y at one. *)
Lemma half_cleaner_half (P Q : Z → Prop) :
  (∀ i, b <= i < b + j → P i → X i ∧ X (i + j)) →
  (∀ i, b <= i < b + j → Q i → Y i ∨ Y (i + j)) →
  bitonic01 P Q b (b + j).
Proof.
  destruct Hbit as [Hxy Hyx]. intros HP HQ.
  split; intros i1 i2 i3 i4 ????? (H1 & H2 & H3 & H4).
  - apply HP in H1 as [H1 H1']; [|lia]. apply HP in H3 as [H3 H3']; [|lia].
    apply HQ in H2; [|lia]. apply HQ in H4; [|lia].
    destruct H2 as [H2|H2], H4 as [H4|H4].
    + apply (Hxy i1 i2 i3 i4); [lia..|done].
    + apply (Hxy i1 i2 i3 (i4 + j)); [lia..|done].
    + apply (Hyx i4 (i1 + j) (i2 + j) (i3 + j)); [lia..|done].
    + apply (Hxy (i1 + j) (i2 + j) (i3 + j) (i4 + j)); [lia..|done].
  - apply HP in H2 as [H2 H2']; [|lia]. apply HP in H4 as [H4 H4']; [|lia].
    apply HQ in H1; [|lia]. apply HQ in H3; [|lia].
    destruct H1 as [H1|H1], H3 as [H3|H3].
    + apply (Hyx i1 i2 i3 i4); [lia..|done].
    + apply (Hyx i1 i2 (i3 + j) (i4 + j)); [lia..|done].
    + apply (Hxy i2 i3 i4 (i1 + j)); [lia..|done].
    + apply (Hyx (i1 + j) (i2 + j) (i3 + j) (i4 + j)); [lia..|done].
Qed.

Context (X' Y' : Z → Prop).
Hypothesis Hlow_X : ∀ i, b <= i < b + j → X' i → X i ∧ X (i + j).
Hypothesis Hlow_Y : ∀ i, b <= i < b + j → Y' i → Y i ∨ Y (i + j).
Hypothesis Hhigh_Y : ∀ i, b <= i < b + j → Y' (i + j) → Y i ∧ Y (i + j).
Hypothesis Hhigh_X : ∀ i, b <= i < b + j → X' (i + j) → X i ∨ X (i + j).
Hypothesis Hpair : ∀ i, b <= i < b + j → ¬ (X' i ∧ Y' (i + j)).

Lemma half_cleaner_lower : bitonic01 X' Y' b (b + j).
Proof. by apply half_cleaner_half. Qed.

Lemma half_cleaner_sep r s :
  b <= r < b + j → b + j <= s < b + 2 * j → ¬ (X' r ∧ Y' s).
Proof.
  destruct Hbit as [Hxy Hyx]. intros Hr Hs [Hxr Hys].
  destruct (Z.lt_trichotomy r (s - j)) as [Hlt|[Heq|Hgt]].
  - apply Hlow_X in Hxr as [H1 H3]; [|lia].
    replace s with (s - j + j) in Hys by lia.
    apply Hhigh_Y in Hys as [H2 H4]; [|lia].
    apply (Hxy r (s - j) (r + j) (s - j + j)); [lia..|done].
  - apply (Hpair r); [lia|]. split; [done|]. by replace (r + j) with s by lia.
  - apply Hlow_X in Hxr as [H2 H4]; [|lia].
    replace s with (s - j + j) in Hys by lia.
    apply Hhigh_Y in Hys as [H1 H3]; [|lia].
    apply (Hyx (s - j) r (s - j + j) (r + j)); [lia..|done].
Qed.
End half_cleaner.

Lemma half_cleaner_upper (X Y X' Y' : Z → Prop) b j :
  bitonic01 X Y b (b + 2 * j) →
  (∀ i, b <= i < b + j → Y' (i + j) → Y i ∧ Y (i + j)) →
  (∀ i, b <= i < b + j → X' (i + j) → X i ∨ X (i + j)) →
  bitonic01 X' Y' (b + j) (b + 2 * j).
Proof.
  intros Hbit HY HX. apply bitonic01_sym in Hbit.
  pose proof (half_cleaner_half Y X b j Hbit
                (λ i, Y' (i + j)) (λ i, X' (i + j)) HY HX) as [H1 H2].
  split; intros i1 i2 i3 i4 ????? (H1' & H2' & H3' & H4').
  - apply (H2 (i1 - j) (i2 - j) (i3 - j) (i4 - j)); [lia..|].
    by replace (i1 - j + j) with i1 by lia;
       replace (i2 - j + j) with i2 by lia;
       replace (i3 - j + j) with i3 by lia;
       replace (i4 - j + j) with i4 by lia.
  - apply (H1 (i1 - j) (i2 - j) (i3 - j) (i4 - j)); [lia..|].
    by replace (i1 - j + j) with i1 by lia;
       replace (i2 - j + j) with i2 by lia;
       replace (i3 - j + j) with i3 by lia;
       replace (i4 - j + j) with i4 by lia.
Qed.

(** ** Merge-select on lows and highs *)

(** If [u ++ v] holds the elements of [a ++ b], nothing of [u] and not all
    of [v] satisfies [P], and all of [a] does, then [v] is longer than [a]. *)
Lemma count_split (P : Z → Prop) `{!∀ x, Decision (P x)} u v a b x :
  u ++ v ≡ₚ a ++ b → Forall (λ y, ¬ P y) u → x ∈ v → ¬ P x → Forall P a →
  (length a < length v)%nat.
Proof.
  intros Hperm Hu Hx HPx Ha.
  assert (length (filter P (u ++ v)) = length (filter P (a ++ b))) as Hlen
    by (by rewrite Hperm).
  rewrite !filter_app, !length_app in Hlen.
  assert (filter P u = []) as Hfu.
  { clear Hperm Hlen. induction Hu as [|y u Hy _ IH]; [done|].
    by rewrite filter_cons_False. }
  assert (filter P a = a) as Hfa.
  { clear Hperm Hlen. induction Ha as [|y a Hy _ IH]; [done|].
    rewrite filter_cons_True by done. by rewrite IH. }
  rewrite Hfu, Hfa in Hlen.
  pose proof (length_filter_lt P v x Hx HPx). simpl in Hlen. lia.
Qed.

Section merge_select_thresholds.
Context (a b : list Z) (L t : Z).
Hypothesis Ha : Z.of_nat (length a) = L.
Hypothesis Hb : Z.of_nat (length b) = L.
Hypothesis Hsa : Sorted Z.le a.
Hypothesis Hsb : Sorted Z.le b.

Let m := merge_runs a b.

Lemma merged_split : take (length a) m ++ drop (length a) m ≡ₚ a ++ b.
Proof. rewrite take_drop. apply merge_runs_perm. Qed.

Lemma merged_take_le_drop x y :
  x ∈ take (length a) m → y ∈ drop (length a) m → x <= y.
Proof. apply Sorted_take_drop_le. by apply merge_runs_sorted. Qed.

Lemma merged_take_length : length (take (length a) m) = length a.
Proof. rewrite length_take. unfold m. rewrite merge_runs_length. lia. Qed.

Lemma merged_drop_length : length (drop (length a) m) = length a.
Proof. rewrite length_drop. unfold m. rewrite merge_runs_length. lia. Qed.

Lemma has_gt_or_all_le l : has_gt t l ∨ Forall (λ y, y <= t) l.
Proof.
  induction l as [|y l [(x & Hx & Hxt)|IH]].
  - by right.
  - left. exists x. split; [by right|done].
  - destruct (Z.le_gt_cases y t); [right; by constructor|].
    left. exists y. split; [by left|done].
Qed.

Lemma has_le_or_all_gt l : has_le t l ∨ Forall (λ y, t < y) l.
Proof.
  induction l as [|y l [(x & Hx & Hxt)|IH]].
  - by right.
  - left. exists x. split; [by right|done].
  - destruct (Z.le_gt_cases y t); [|right; by constructor].
    left. exists y. split; [by left|done].
Qed.

(** The low half has a high only if both inputs have one. *)
Lemma low_half_has_gt :
  has_gt t (merge_and_select a b L true) → has_gt t a ∧ has_gt t b.
Proof.
  rewrite merge_and_select_low by done. intros (x & Hx & Hxt).
  assert (Forall (λ y, ¬ y <= t) (drop (length a) m)) as Hdrop.
  { apply Forall_forall. intros y Hy.
    pose proof (merged_take_le_drop x y Hx Hy). lia. }
  pose proof merged_split as Hsplit. rewrite (comm (++)) in Hsplit.
  pose proof merged_take_length as Hlen.
  assert (¬ x <= t) as Hnx by lia.
  split.
  - destruct (has_gt_or_all_le a) as [|Hn]; [done|exfalso].
    pose proof (count_split (λ y, y <= t) _ _ a b x Hsplit Hdrop Hx
                  Hnx Hn). lia.
  - destruct (has_gt_or_all_le b) as [|Hn]; [done|exfalso].
    rewrite (comm (++) a) in Hsplit.
    pose proof (count_split (λ y, y <= t) _ _ b a x Hsplit Hdrop Hx
                  Hnx Hn). lia.
Qed.

(** The high half has a low only if both inputs have one. *)
Lemma high_half_has_le :
  has_le t (merge_and_select a b L false) → has_le t a ∧ has_le t b.
Proof.
  rewrite merge_and_select_high by done. intros (y & Hy & Hyt).
  assert (Forall (λ x, ¬ t < x) (take (length a) m)) as Htake.
  { apply Forall_forall. intros x Hx.
    pose proof (merged_take_le_drop x y Hx Hy). lia. }
  pose proof merged_split as Hsplit.
  pose proof merged_drop_length as Hlen.
  assert (¬ t < y) as Hny by lia.
  split.
  - destruct (has_le_or_all_gt a) as [|Hn]; [done|exfalso].
    pose proof (count_split (λ x, t < x) _ _ a b y Hsplit Htake Hy
                  Hny Hn). lia.
  - destruct (has_le_or_all_gt b) as [|Hn]; [done|exfalso].
    rewrite (comm (++) a) in Hsplit.
    pose proof (count_split (λ x, t < x) _ _ b a y Hsplit Htake Hy
                  Hny Hn). lia.
Qed.

(** What is kept comes from one of the two inputs. *)
Lemma merge_and_select_elem keep x :
  x ∈ merge_and_select a b L keep → x ∈ a ∨ x ∈ b.
Proof.
  intros Hx. apply elem_of_app. rewrite <- merged_split. apply elem_of_app.
  destruct keep.
  - rewrite merge_and_select_low in Hx by done. by left.
  - rewrite merge_and_select_high in Hx by done. by right.
Qed.

Lemma merge_and_select_has_le keep :
  has_le t (merge_and_select a b L keep) → has_le t a ∨ has_le t b.
Proof.
  intros (x & Hx & Hxt).
  destruct (merge_and_select_elem keep x Hx); [left|right]; by exists x.
Qed.

Lemma merge_and_select_has_gt keep :
  has_gt t (merge_and_select a b L keep) → has_gt t a ∨ has_gt t b.
Proof.
  intros (x & Hx & Hxt).
  destruct (merge_and_select_elem keep x Hx); [left|right]; by exists x.
Qed.

(** The low half kept by one partner lies below the high half kept by
    the other. *)
Lemma low_half_below_high_half :
  ¬ (has_gt t (merge_and_select a b L true) ∧
     has_le t (merge_and_select b a L false)).
Proof.
  rewrite merge_and_select_low, merge_and_select_high by done.
  rewrite (merge_runs_comm b a) by done.
  replace (length b) with (length a) by lia.
  intros [(x & Hx & Hxt) (y & Hy & Hyt)].
  pose proof (merged_take_le_drop x y Hx Hy). lia.
Qed.
End merge_select_thresholds.

(** ** One round on lows and highs *)

Lemma div_block e q i :
  0 <= e → q * 2 ^ e <= i < (q + 1) * 2 ^ e → i / 2 ^ e = q.
Proof.
  intros He Hi. pose proof (pow2_pos e He). symmetry.
  apply (Z.div_unique i (2 ^ e) q (i - q * 2 ^ e)); lia.
Qed.

Lemma div_block_inv e i :
  0 <= e → (i / 2 ^ e) * 2 ^ e <= i < (i / 2 ^ e + 1) * 2 ^ e.
Proof.
  intros He. pose proof (pow2_pos e He).
  pose proof (Z.div_mod i (2 ^ e)). pose proof (Z.mod_pos_bound i (2 ^ e)).
  lia.
Qed.

Lemma div_half r a : 0 <= a → r / 2 ^ (a + 1) = r / 2 ^ a / 2.
Proof.
  intros Ha. rewrite Z.pow_add_r by lia. change (2 ^ 1) with 2.
  rewrite Z.div_div; [done| |lia]. pose proof (pow2_pos a). lia.
Qed.

Lemma div_lt_inv x y c : 0 < c → x / c < y / c → x < y.
Proof.
  intros Hc Hlt. destruct (Z.lt_ge_cases x y) as [|Hge]; [done|].
  pose proof (Z.div_le_mono y x c Hc Hge). lia.
Qed.

Lemma block_halves r s a :
  0 <= a → r < s → r / 2 ^ (a + 1) = s / 2 ^ (a + 1) → r / 2 ^ a ≠ s / 2 ^ a →
  r / 2 ^ a = 2 * (r / 2 ^ (a + 1)) ∧ s / 2 ^ a = 2 * (r / 2 ^ (a + 1)) + 1.
Proof.
  intros Ha Hrs Heq Hne. rewrite !div_half in * by done.
  pose proof (pow2_pos a Ha).
  pose proof (Z.div_le_mono r s (2 ^ a) ltac:(lia) ltac:(lia)) as Hle.
  revert Heq Hne Hle. generalize (r / 2 ^ a) (s / 2 ^ a). intros u v ???.
  Z.div_mod_to_equations. lia.
Qed.

Section round_facts.
Context (d m a L t : Z) (ps : list (list Z)).
Hypothesis Ham : 0 <= a < m.
Hypothesis Hmd : m <= d.
Hypothesis Hlen : Z.of_nat (length ps) = 2 ^ d.
Hypothesis Hok : partitions_ok L ps.

Let ps' := round_of L (2 ^ m) (2 ^ a) ps.
Let j := 2 ^ a.

Lemma round_at r :
  0 <= r < 2 ^ d →
  ps' !!! Z.to_nat r =
    merge_and_select (ps !!! Z.to_nat r)
      (ps !!! Z.to_nat (partner r j)) L (keep_low r (2 ^ m) j).
Proof.
  intros Hr. unfold ps'. rewrite round_of_lookup_total by lia.
  by rewrite Z2Nat.id by lia.
Qed.

Lemma part_ok r :
  0 <= r < 2 ^ d →
  Z.of_nat (length (ps !!! Z.to_nat r)) = L ∧ Sorted Z.le (ps !!! Z.to_nat r).
Proof. intros Hr. apply partitions_ok_lookup; [done|lia]. Qed.

(** What a partition holds after the round came from it or its partner. *)
Lemma round_low_from r :
  0 <= r < 2 ^ d →
  low_at t ps' r → low_at t ps r ∨ low_at t ps (partner r j).
Proof.
  intros Hr. unfold low_at. rewrite round_at by done.
  pose proof (partner_range r a d ltac:(lia) Hr) as Hp.
  destruct (part_ok r Hr), (part_ok _ Hp).
  by apply merge_and_select_has_le.
Qed.

Lemma round_high_from r :
  0 <= r < 2 ^ d →
  high_at t ps' r → high_at t ps r ∨ high_at t ps (partner r j).
Proof.
  intros Hr. unfold high_at. rewrite round_at by done.
  pose proof (partner_range r a d ltac:(lia) Hr) as Hp.
  destruct (part_ok r Hr), (part_ok _ Hp).
  by apply merge_and_select_has_gt.
Qed.

(** The pair [i], [i + j] of a block whose direction is [asc]. *)
Context (asc : bool) (i : Z).
Hypothesis Hi : 0 <= i.
Hypothesis Hij : i + j < 2 ^ d.
Hypothesis Hbit_a : Z.testbit i a = false.
Hypothesis Hbit_m : Z.testbit i m = negb asc.

Let X := first_of asc t ps.
Let Y := second_of asc t ps.
Let X' := first_of asc t ps'.
Let Y' := second_of asc t ps'.

Lemma pair_partner : partner i j = i + j ∧ partner (i + j) j = i.
Proof.
  assert (partner i j = i + j) as Hp by (apply lxor_pow2_clear; [lia|done]).
  split; [done|]. rewrite <- Hp. apply partner_partner.
Qed.

Lemma pair_keep :
  keep_low i (2 ^ m) j = asc ∧ keep_low (i + j) (2 ^ m) j = negb asc.
Proof.
  assert (keep_low i (2 ^ m) j = asc) as Hk.
  { unfold j. rewrite keep_low_bits, Hbit_a, Hbit_m by lia. by destruct asc. }
  split; [done|]. destruct pair_partner as [<- _].
  unfold j. by rewrite keep_low_partner, <- Hk by lia.
Qed.

Lemma pair_after :
  ps' !!! Z.to_nat i =
    merge_and_select (ps !!! Z.to_nat i) (ps !!! Z.to_nat (i + j)) L asc ∧
  ps' !!! Z.to_nat (i + j) =
    merge_and_select (ps !!! Z.to_nat (i + j)) (ps !!! Z.to_nat i) L
      (negb asc).
Proof.
  pose proof (pow2_pos a ltac:(lia)). fold j in H.
  destruct pair_partner as [Hp1 Hp2], pair_keep as [Hk1 Hk2].
  rewrite !round_at by lia. by rewrite Hp1, Hp2, Hk1, Hk2.
Qed.

Lemma pair_facts :
  (X' i → X i ∧ X (i + j)) ∧
  (Y' i → Y i ∨ Y (i + j)) ∧
  (Y' (i + j) → Y i ∧ Y (i + j)) ∧
  (X' (i + j) → X i ∨ X (i + j)) ∧
  ¬ (X' i ∧ Y' (i + j)).
Proof.
  pose proof (pow2_pos a ltac:(lia)). fold j in H.
  destruct pair_after as [Hi' Hij'].
  destruct (part_ok i ltac:(lia)) as [Hl1 Hs1].
  destruct (part_ok (i + j) ltac:(lia)) as [Hl2 Hs2].
  unfold X, Y, X', Y'.
  destruct asc; unfold first_of, second_of, high_at, low_at;
    rewrite Hi', Hij'; cbn [negb]; split_and!.
  - by apply low_half_has_gt.
  - by apply (merge_and_select_has_le _ _ L t Hl1 Hl2).
  - intros Hlow. apply and_comm. by apply (high_half_has_le _ _ L t Hl2 Hl1).
  - intros Hhigh. apply or_comm.
    by apply (merge_and_select_has_gt _ _ L t Hl2 Hl1 false).
  - by apply low_half_below_high_half.
  - by apply high_half_has_le.
  - by apply (merge_and_select_has_gt _ _ L t Hl1 Hl2).
  - intros Hhigh. apply and_comm. by apply (low_half_has_gt _ _ L t Hl2 Hl1).
  - intros Hlow. apply or_comm.
    by apply (merge_and_select_has_le _ _ L t Hl2 Hl1 true).
  - intros [Hlow Hhigh].
    by apply (low_half_below_high_half _ _ L t Hl2 Hl1 Hs2 Hs1).
Qed.
End round_facts.

Lemma div_pow2_split i a m :
  0 <= a <= m → i / 2 ^ m = i / 2 ^ a / 2 ^ (m - a).
Proof.
  intros Ham. replace m with (a + (m - a)) at 1 by lia.
  rewrite Z.pow_add_r by lia.
  pose proof (pow2_pos a). pose proof (pow2_pos (m - a)).
  rewrite Z.div_div; [done|lia..].
Qed.

Lemma pow2_succ a : 0 <= a → 2 ^ (a + 1) = 2 * 2 ^ a.
Proof. intros Ha. rewrite Z.pow_add_r by lia. lia. Qed.

Lemma bitonic01_dir asc t ps lo hi :
  bitonic01 (first_of asc t ps) (second_of asc t ps) lo hi ↔
  bitonic01 (high_at t ps) (low_at t ps) lo hi.
Proof. destruct asc; [done|]. split; apply bitonic01_sym. Qed.

(** The direction of the block of [2^m] ranks that holds the block
    number [q] of [2^(a+1)] ranks. *)
Lemma block_direction i q a m :
  0 <= a < m → i / 2 ^ (a + 1) = q →
  Z.even (i / 2 ^ m) = Z.even (q / 2 ^ (m - a - 1)).
Proof.
  intros Ham <-. rewrite (div_pow2_split i (a + 1) m) by lia.
  do 3 f_equal. lia.
Qed.

Section block_facts.
Context (d m a L t : Z) (ps : list (list Z)) (q : Z).
Hypothesis Ham : 0 <= a < m.
Hypothesis Hmd : m <= d.
Hypothesis Hlen : Z.of_nat (length ps) = 2 ^ d.
Hypothesis Hok : partitions_ok L ps.
Hypothesis Hq : 0 <= q.
Hypothesis Hqd : (q + 1) * 2 ^ (a + 1) <= 2 ^ d.

Let ps' := round_of L (2 ^ m) (2 ^ a) ps.
Let j := 2 ^ a.
Let b := q * 2 ^ (a + 1).
Let asc := Z.even (q / 2 ^ (m - a - 1)).

Lemma block_pair_facts i :
  b <= i < b + j →
  (first_of asc t ps' i → first_of asc t ps i ∧ first_of asc t ps (i + j)) ∧
  (second_of asc t ps' i →
     second_of asc t ps i ∨ second_of asc t ps (i + j)) ∧
  (second_of asc t ps' (i + j) →
     second_of asc t ps i ∧ second_of asc t ps (i + j)) ∧
  (first_of asc t ps' (i + j) →
     first_of asc t ps i ∨ first_of asc t ps (i + j)) ∧
  ¬ (first_of asc t ps' i ∧ second_of asc t ps' (i + j)).
Proof.
  intros Hi. pose proof (pow2_pos a ltac:(lia)) as Hj. fold j in Hj.
  pose proof (pow2_succ a ltac:(lia)) as Hsucc. fold j in Hsucc.
  assert (0 <= b) as Hb by (unfold b; lia).
  apply (pair_facts d m a L t ps Ham Hmd Hlen Hok asc i).
  - lia.
  - fold j. unfold b in *. lia.
  - rewrite testbit_div_pow2 by lia.
    rewrite (div_block a (2 * q) i); [|lia|unfold b, j in *; lia].
    by rewrite Z.odd_mul.
  - rewrite testbit_div_pow2 by lia. rewrite <- Z.negb_even. f_equal.
    apply block_direction; [done|]. apply div_block; [lia|].
    unfold b, j in *. lia.
Qed.

Lemma block_bitonic_after :
  bitonic01 (high_at t ps) (low_at t ps) b (b + 2 * j) →
  bitonic01 (high_at t ps') (low_at t ps') b (b + j) ∧
  bitonic01 (high_at t ps') (low_at t ps') (b + j) (b + 2 * j).
Proof.
  intros Hbit. apply (bitonic01_dir asc) in Hbit.
  split; apply (bitonic01_dir asc).
  - apply (half_cleaner_lower _ _ b j Hbit); intros i Hi;
      by destruct (block_pair_facts i Hi) as (? & ? & ? & ? & ?).
  - apply (half_cleaner_upper _ _ _ _ b j Hbit); intros i Hi;
      by destruct (block_pair_facts i Hi) as (? & ? & ? & ? & ?).
Qed.

Lemma block_sep_after r s :
  bitonic01 (high_at t ps) (low_at t ps) b (b + 2 * j) →
  b <= r < b + j → b + j <= s < b + 2 * j →
  ¬ (first_of asc t ps' r ∧ second_of asc t ps' s).
Proof.
  intros Hbit. apply (bitonic01_dir asc) in Hbit.
  apply (half_cleaner_sep _ _ b j Hbit); intros i Hi;
    by destruct (block_pair_facts i Hi) as (? & ? & ? & ? & ?).
Qed.
End block_facts.

Lemma block_in_range e d s :
  0 <= e <= d → 0 <= s < 2 ^ d → (s / 2 ^ e + 1) * 2 ^ e <= 2 ^ d.
Proof.
  intros Hed Hs. pose proof (pow2_pos e ltac:(lia)) as He.
  assert (2 ^ d = 2 ^ (d - e) * 2 ^ e) as Hd.
  { rewrite <- Z.pow_add_r by lia. f_equal. lia. }
  assert (s / 2 ^ e < 2 ^ (d - e)) as Hlt.
  { apply Z.div_lt_upper_bound; lia. }
  rewrite Hd. apply Z.mul_le_mono_nonneg_r; lia.
Qed.

Lemma round_first_from d m a L t ps asc r :
  0 <= a < m → m <= d → Z.of_nat (length ps) = 2 ^ d → partitions_ok L ps →
  0 <= r < 2 ^ d →
  first_of asc t (round_of L (2 ^ m) (2 ^ a) ps) r →
  first_of asc t ps r ∨ first_of asc t ps (partner r (2 ^ a)).
Proof.
  intros. destruct asc; [by eapply round_high_from|by eapply round_low_from].
Qed.

Lemma round_second_from d m a L t ps asc r :
  0 <= a < m → m <= d → Z.of_nat (length ps) = 2 ^ d → partitions_ok L ps →
  0 <= r < 2 ^ d →
  second_of asc t (round_of L (2 ^ m) (2 ^ a) ps) r →
  second_of asc t ps r ∨ second_of asc t ps (partner r (2 ^ a)).
Proof.
  intros. destruct asc; [by eapply round_low_from|by eapply round_high_from].
Qed.

(** A round j = 2^a of the phase k = 2^m takes bitonic blocks of [2^(a+1)]
    ranks, in order inside their block of [k] ranks, to bitonic blocks of
    [2^a] ranks in order. *)
Lemma round_step d m a L t ps :
  0 <= a < m → m <= d → Z.of_nat (length ps) = 2 ^ d → partitions_ok L ps →
  blocks_bitonic d (a + 1) t ps → blocks_ordered d m (a + 1) t ps →
  blocks_bitonic d a t (round_of L (2 ^ m) (2 ^ a) ps) ∧
  blocks_ordered d m a t (round_of L (2 ^ m) (2 ^ a) ps).
Proof.
  intros Ham Hmd Hlen Hok Hbit Hord.
  pose proof (pow2_pos a ltac:(lia)) as Hj.
  pose proof (pow2_succ a ltac:(lia)) as Hsucc.
  split.
  - intros q' Hq' Hbound. set (q := q' / 2).
    assert (q' = 2 * q ∨ q' = 2 * q + 1) as Hpar
      by (unfold q; Z.div_mod_to_equations; lia).
    assert (0 <= q) as Hq by (unfold q; Z.div_mod_to_equations; lia).
    assert (q' * 2 ^ a / 2 ^ (a + 1) = q) as Hblk.
    { rewrite div_half by lia. by rewrite Z.div_mul by lia. }
    clearbody q.
    pose proof (block_in_range (a + 1) d (q' * 2 ^ a) ltac:(lia) ltac:(lia))
      as Hqd.
    rewrite Hblk in Hqd.
    pose proof (Hbit q Hq Hqd) as Hb.
    replace ((q + 1) * 2 ^ (a + 1)) with (q * 2 ^ (a + 1) + 2 * 2 ^ a) in Hb
      by lia.
    destruct (block_bitonic_after d m a L t ps q Ham Hmd Hlen Hok Hq Hqd Hb)
      as [Hlow Hup].
    destruct Hpar as [-> | ->].
    + replace (2 * q * 2 ^ a) with (q * 2 ^ (a + 1)) by lia.
      by replace ((2 * q + 1) * 2 ^ a) with (q * 2 ^ (a + 1) + 2 ^ a) by lia.
    + replace ((2 * q + 1) * 2 ^ a) with (q * 2 ^ (a + 1) + 2 ^ a) by lia.
      by replace ((2 * q + 1 + 1) * 2 ^ a)
        with (q * 2 ^ (a + 1) + 2 * 2 ^ a) by lia.
  - intros r s Hr Hrs Hs Hm Hne.
    destruct (decide (r / 2 ^ (a + 1) = s / 2 ^ (a + 1))) as [Heq|Hneq].
    + set (q := r / 2 ^ (a + 1)) in *.
      assert (0 <= q) as Hq by (apply Z.div_pos; lia).
      destruct (block_halves r s a ltac:(lia) Hrs Heq Hne) as [Hr2 Hs2].
      fold q in Hr2, Hs2.
      pose proof (div_block_inv a r ltac:(lia)) as Hrb.
      pose proof (div_block_inv a s ltac:(lia)) as Hsb.
      rewrite Hr2 in Hrb. rewrite Hs2 in Hsb.
      pose proof (block_in_range (a + 1) d s ltac:(lia) ltac:(lia)) as Hqd.
      rewrite <- Heq in Hqd.
      pose proof (Hbit q Hq Hqd) as Hb.
      replace ((q + 1) * 2 ^ (a + 1)) with (q * 2 ^ (a + 1) + 2 * 2 ^ a) in Hb
        by lia.
      rewrite (block_direction r q a m) by done.
      apply (block_sep_after d m a L t ps q Ham Hmd Hlen Hok Hq Hqd r s Hb);
        lia.
    + set (asc := Z.even (r / 2 ^ m)).
      assert (r / 2 ^ (a + 1) < s / 2 ^ (a + 1)) as Hlt.
      { pose proof (Z.div_le_mono r s (2 ^ (a + 1)) ltac:(lia) ltac:(lia)).
        lia. }
      assert (∀ r' s',
                r' / 2 ^ (a + 1) = r / 2 ^ (a + 1) →
                s' / 2 ^ (a + 1) = s / 2 ^ (a + 1) →
                0 <= r' → s' < 2 ^ d →
                ¬ (first_of asc t ps r' ∧ second_of asc t ps s')) as Hgen.
      { intros r' s' Hr' Hs' Hr0 Hsd.
        assert (r' / 2 ^ m = r / 2 ^ m) as Hrm
          by (apply (div_pow2_coarser _ _ (a + 1)); [lia|done]).
        assert (s' / 2 ^ m = s / 2 ^ m) as Hsm
          by (apply (div_pow2_coarser _ _ (a + 1)); [lia|done]).
        unfold asc. rewrite <- Hrm. apply Hord; [done| |done|lia|lia].
        apply (div_lt_inv _ _ (2 ^ (a + 1))); lia. }
      pose proof (lxor_pow2_block r a ltac:(lia)) as Hpr.
      pose proof (lxor_pow2_block s a ltac:(lia)) as Hps.
      pose proof (partner_range r a d ltac:(lia) ltac:(lia)) as Hprr.
      pose proof (partner_range s a d ltac:(lia) ltac:(lia)) as Hpsr.
      intros [HX HY].
      apply (round_first_from d) in HX; [|done..|lia].
      apply (round_second_from d) in HY; [|done..|lia].
      destruct HX as [HX|HX], HY as [HY|HY];
        eapply Hgen; try (split; [exact HX|exact HY]); done || lia.
Qed.

(** ** The phases on lows and highs *)

Lemma phase_rounds_ok L d m (a : nat) : ∀ ps,
  Z.of_nat a <= d → Z.of_nat (length ps) = 2 ^ d → partitions_ok L ps →
  partitions_ok L (phase_rounds L (2 ^ m) a ps).
Proof.
  induction a as [|a IH]; intros ps Had Hlen Hok; [done|].
  cbn [phase_rounds]. apply IH; [lia|by rewrite round_of_length|].
  apply round_of_ok; [|done]. apply (partner_valid d); [done|lia].
Qed.

Lemma phases_ok L d (c : nat) : ∀ (m : nat) ps,
  Z.of_nat (m + c) <= d → Z.of_nat (length ps) = 2 ^ d → partitions_ok L ps →
  partitions_ok L (phases L m c ps).
Proof.
  induction c as [|c IH]; intros m ps Hmc Hlen Hok; [done|].
  cbn [phases]. apply IH; [lia|by rewrite phase_rounds_length|].
  apply (phase_rounds_ok L d); [lia|done..].
Qed.

(** The rounds of a phase take bitonic blocks to blocks in order. *)
Lemma phase_rounds_ordered L d m t (a : nat) : ∀ ps,
  Z.of_nat a <= m → m <= d →
  Z.of_nat (length ps) = 2 ^ d → partitions_ok L ps →
  blocks_bitonic d (Z.of_nat a) t ps →
  blocks_ordered d m (Z.of_nat a) t ps →
  blocks_ordered d m 0 t (phase_rounds L (2 ^ m) a ps).
Proof.
  induction a as [|a IH]; intros ps Ham Hmd Hlen Hok Hbit Hord; [done|].
  cbn [phase_rounds]. replace (Z.of_nat (S a)) with (Z.of_nat a + 1) in * by lia.
  destruct (round_step d m (Z.of_nat a) L t ps) as [Hbit' Hord'];
    [lia|done..|].
  apply IH; [lia|done|by rewrite round_of_length| |done..].
  apply round_of_ok; [|done]. apply (partner_valid d); [done|lia].
Qed.

(** Blocks in order, ascending and descending in turn, pair up to bitonic
    blocks of twice the size. *)
Lemma phase_start d m t ps :
  0 <= m →
  blocks_ordered d m 0 t ps →
  blocks_bitonic d (m + 1) t ps ∧ blocks_ordered d (m + 1) (m + 1) t ps.
Proof.
  intros Hm Hord. pose proof (pow2_pos m Hm) as Hk.
  pose proof (pow2_succ m Hm) as Hsucc. split.
  - intros q Hq Hqd.
    apply (bitonic01_of_halves _ _ _ (q * 2 ^ (m + 1) + 2 ^ m)).
    + intros r s Hr Hrs Hs.
      assert (r / 2 ^ m = 2 * q) as Hrq by (apply div_block; lia).
      assert (s / 2 ^ m = 2 * q) as Hsq by (apply div_block; lia).
      pose proof (Hord r s ltac:(lia) Hrs ltac:(lia) ltac:(lia)) as H.
      rewrite Hrq, Z.even_mul in H. apply H.
      rewrite Z.pow_0_r, !Z.div_1_r. lia.
    + intros r s Hr Hrs Hs.
      assert (r / 2 ^ m = 2 * q + 1) as Hrq by (apply div_block; lia).
      assert (s / 2 ^ m = 2 * q + 1) as Hsq by (apply div_block; lia).
      pose proof (Hord r s ltac:(lia) Hrs ltac:(lia) ltac:(lia)) as H.
      rewrite Hrq in H. replace (2 * q + 1) with (1 + 2 * q) in H by lia.
      rewrite Z.even_add_mul_2 in H. apply H.
      rewrite Z.pow_0_r, !Z.div_1_r. lia.
  - intros r s _ _ _ Heq Hne. done.
Qed.

Lemma phases_ordered L d t (c : nat) : ∀ (m : nat) ps,
  Z.of_nat (m + c) <= d →
  Z.of_nat (length ps) = 2 ^ d → partitions_ok L ps →
  blocks_ordered d (Z.of_nat m) 0 t ps →
  blocks_ordered d (Z.of_nat (m + c)) 0 t (phases L m c ps).
Proof.
  induction c as [|c IH]; intros m ps Hmc Hlen Hok Hord.
  - by rewrite Nat.add_0_r.
  - cbn [phases]. replace (m + S c)%nat with (S m + c)%nat by lia.
    apply IH; [lia|by rewrite phase_rounds_length| |].
    + apply (phase_rounds_ok L d); [lia|done..].
    + destruct (phase_start d (Z.of_nat m) t ps ltac:(lia) Hord)
        as [Hbit Hord'].
      replace (Z.of_nat m + 1) with (Z.of_nat (S m)) in * by lia.
      apply (phase_rounds_ordered L d); [lia|lia|done..].
Qed.

(** After the last phase no partition with an element above [t] comes
    before a partition with an element at most [t]. *)
Lemma network_ordered L d t ps :
  0 <= d → Z.of_nat (length ps) = 2 ^ d → partitions_ok L ps →
  ∀ r s, 0 <= r → r < s → s < 2 ^ d →
    ¬ (high_at t (phases L 0 (Z.to_nat d) ps) r ∧
       low_at t (phases L 0 (Z.to_nat d) ps) s).
Proof.
  intros Hd Hlen Hok r s Hr Hrs Hs.
  pose proof (phases_ordered L d t (Z.to_nat d) 0 ps) as Hord.
  rewrite Nat.add_0_l, Z2Nat.id in Hord by done.
  specialize (Hord ltac:(lia) Hlen Hok).
  assert (blocks_ordered d (Z.of_nat 0) 0 t ps) as H0.
  { intros r' s' _ Hlt _ Heq _. exfalso.
    change (Z.of_nat 0) with 0 in Heq. rewrite Z.pow_0_r, !Z.div_1_r in Heq.
    lia. }
  specialize (Hord H0 r s Hr Hrs Hs).
  rewrite (Z.div_small r), (Z.div_small s) in Hord by lia.
  apply Hord; [done|]. rewrite Z.pow_0_r, !Z.div_1_r. lia.
Qed.

(** ** The gathered array *)

Lemma join_fmap_app {A} (u v : A → list Z) l :
  mjoin ((λ x, u x ++ v x) <$> l) ≡ₚ mjoin (u <$> l) ++ mjoin (v <$> l).
Proof.
  induction l as [|x l IH]; [done|]. simpl. rewrite IH.
  rewrite <- !(assoc (++)). f_equiv. apply Permutation_app_swap_app.
Qed.

Lemma join_fmap_perm {A} (u v : A → list Z) l :
  (∀ x, x ∈ l → u x ≡ₚ v x) → mjoin (u <$> l) ≡ₚ mjoin (v <$> l).
Proof.
  induction l as [|x l IH]; intros Huv; [done|]. simpl.
  rewrite (Huv x) by left. f_equiv. apply IH. intros y Hy. apply Huv. by right.
Qed.

Lemma perm_double (l k : list Z) : l ++ l ≡ₚ k ++ k → l ≡ₚ k.
Proof.
  intros Hperm. apply (Permutation_count_occ Z.eq_dec). intros x.
  pose proof (proj1 (Permutation_count_occ Z.eq_dec _ _) Hperm x) as Hx.
  rewrite !count_occ_app in Hx. lia.
Qed.

Lemma fmap_lookup_seq (ps : list (list Z)) :
  (λ r : nat, ps !!! r) <$> seq 0 (length ps) = ps.
Proof.
  apply list_eq. intros i. rewrite list_lookup_fmap.
  destruct (decide (i < length ps)%nat) as [Hi|Hi].
  - rewrite lookup_seq_lt by done. simpl.
    by rewrite list_lookup_lookup_total_lt.
  - rewrite lookup_seq_ge by lia. simpl. symmetry. apply lookup_ge_None. lia.
Qed.

(** The partners of all the ranks are all the ranks. *)
Lemma partners_perm d i n :
  0 <= i < d → Z.of_nat n = 2 ^ d →
  (λ r : nat, Z.to_nat (partner (Z.of_nat r) (2 ^ i))) <$> seq 0 n ≡ₚ seq 0 n.
Proof.
  intros Hi Hn. set (p := λ r : nat, Z.to_nat (partner (Z.of_nat r) (2 ^ i))).
  assert (∀ r, (r < n)%nat → (p r < n)%nat ∧ p (p r) = r) as Hp.
  { intros r Hr. unfold p.
    pose proof (partner_range (Z.of_nat r) i d Hi ltac:(lia)).
    split; [lia|]. rewrite Z2Nat.id by lia.
    rewrite partner_partner. lia. }
  apply NoDup_Permutation.
  - apply NoDup_fmap_2_strong; [|apply NoDup_seq].
    intros x y Hx Hy Heq. apply elem_of_seq in Hx, Hy.
    destruct (Hp x ltac:(lia)) as [_ <-], (Hp y ltac:(lia)) as [_ <-].
    by rewrite Heq.
  - apply NoDup_seq.
  - intros y. rewrite list_elem_of_fmap. setoid_rewrite elem_of_seq. split.
    + intros (x & -> & Hx). destruct (Hp x ltac:(lia)). lia.
    + intros Hy. exists (p y). destruct (Hp y ltac:(lia)) as [? ->]. lia.
Qed.

(** A round moves elements between partners only. *)
Lemma round_of_gather L d m i ps :
  0 <= i < m → i < d → Z.of_nat (length ps) = 2 ^ d → partitions_ok L ps →
  gather (round_of L (2 ^ m) (2 ^ i) ps) ≡ₚ gather ps.
Proof.
  intros Him Hid Hlen Hok. unfold gather. apply perm_double.
  set (p := λ r : nat, Z.to_nat (partner (Z.of_nat r) (2 ^ i))).
  set (ps' := round_of L (2 ^ m) (2 ^ i) ps).
  pose proof (partners_perm d i (length ps) ltac:(lia) Hlen) as Hpp.
  fold p in Hpp.
  assert (∀ qs : list (list Z), length qs = length ps →
            mjoin qs ++ mjoin qs ≡ₚ
            mjoin ((λ r : nat, qs !!! r ++ qs !!! p r) <$> seq 0 (length ps)))
    as Hpairs.
  { intros qs Hqs. rewrite join_fmap_app.
    assert ((λ r : nat, qs !!! p r) <$> seq 0 (length ps) =
            (λ r : nat, qs !!! r) <$> (p <$> seq 0 (length ps))) as ->
      by (by rewrite <- list_fmap_compose).
    rewrite Hpp, <- Hqs. by rewrite fmap_lookup_seq. }
  rewrite (Hpairs ps' (round_of_length _ _ _ _)), (Hpairs ps eq_refl).
  apply join_fmap_perm. intros r Hr. apply elem_of_seq in Hr.
  apply (round_of_pair L d); (done || lia).
Qed.

Lemma phase_rounds_gather L d m (a : nat) : ∀ ps,
  Z.of_nat a <= m → Z.of_nat a <= d →
  Z.of_nat (length ps) = 2 ^ d → partitions_ok L ps →
  gather (phase_rounds L (2 ^ m) a ps) ≡ₚ gather ps.
Proof.
  induction a as [|a IH]; intros ps Ham Had Hlen Hok; [done|].
  cbn [phase_rounds]. rewrite IH; [|lia|lia|by rewrite round_of_length|].
  - apply (round_of_gather L d); (done || lia).
  - apply round_of_ok; [|done]. apply (partner_valid d); [done|lia].
Qed.

Lemma phases_gather L d (c : nat) : ∀ (m : nat) ps,
  Z.of_nat (m + c) <= d →
  Z.of_nat (length ps) = 2 ^ d → partitions_ok L ps →
  gather (phases L m c ps) ≡ₚ gather ps.
Proof.
  induction c as [|c IH]; intros m ps Hmc Hlen Hok; [done|].
  cbn [phases]. rewrite IH; [|lia|by rewrite phase_rounds_length|].
  - apply (phase_rounds_gather L d); (done || lia).
  - apply (phase_rounds_ok L d); [lia|done..].
Qed.

(** Ascending partitions with no high before a low, for any threshold,
    gather to an ascending array. *)
Lemma gather_sorted ps :
  Forall (Sorted Z.le) ps →
  (∀ t (r s : nat), (r < s < length ps)%nat →
     ¬ (has_gt t (ps !!! r) ∧ has_le t (ps !!! s))) →
  Sorted Z.le (gather ps).
Proof.
  unfold gather. induction ps as [|local ps IH]; intros Hs Hsep;
    [constructor|].
  apply Forall_cons in Hs as [Hl Hs]. simpl.
  apply StronglySorted_Sorted, StronglySorted_app_2.
  - intros x y Hx Hy. apply list_elem_of_join in Hy as (l & Hy & Hl').
    apply list_elem_of_lookup_total in Hl' as (s & Hs' & <-).
    destruct (Z.le_gt_cases x y) as [|Hgt]; [done|exfalso].
    apply (Hsep y 0%nat (S s)); [simpl; lia|].
    split; [by exists x|]. exists y. split; [done|lia].
  - by apply Sorted_StronglySorted; [apply _|].
  - apply Sorted_StronglySorted; [apply _|]. apply IH; [done|].
    intros t r s Hrs. apply (Hsep t (S r) (S s)). simpl. lia.
Qed.

(** The network: the gathered array is the ascending arrangement of what
    the partitions held. *)
Lemma phases_sorted L d ps :
  0 <= d → Z.of_nat (length ps) = 2 ^ d → partitions_ok L ps →
  Sorted Z.le (gather (phases L 0 (Z.to_nat d) ps)) ∧
  gather (phases L 0 (Z.to_nat d) ps) ≡ₚ gather ps.
Proof.
  intros Hd Hlen Hok. split.
  - assert (partitions_ok L (phases L 0 (Z.to_nat d) ps)) as Hok'
      by (apply (phases_ok L d); [lia|done..]).
    apply gather_sorted.
    + eapply Forall_impl; [exact Hok'|]. by intros l [_ ?].
    + intros t r s Hrs. rewrite phases_length in Hrs.
      pose proof (network_ordered L d t ps Hd Hlen Hok
                    (Z.of_nat r) (Z.of_nat s) ltac:(lia) ltac:(lia) ltac:(lia))
        as H.
      unfold high_at, low_at in H. by rewrite !Nat2Z.id in H.
  - apply (phases_gather L d); [lia|done..].
Qed.

(** ** The local sort: what it computes *)

Lemma bitonic_merge_fuel_enough f1 : ∀ f2 arr low cnt dir,
  (Z.to_nat cnt <= f1)%nat → (Z.to_nat cnt <= f2)%nat →
  bitonic_merge_fuel f1 arr low cnt dir = bitonic_merge_fuel f2 arr low cnt dir.
Proof.
  induction f1 as [|f1 IH]; intros f2 arr low cnt dir H1 H2.
  - destruct f2 as [|f2]; [done|]. simpl.
    by rewrite (proj2 (Z.leb_le cnt 1)) by lia.
  - simpl. destruct (Z.leb_spec cnt 1) as [Hc|Hc].
    + destruct f2 as [|f2]; [done|]. simpl.
      by rewrite (proj2 (Z.leb_le cnt 1)) by lia.
    + destruct f2 as [|f2]; [lia|]. simpl.
      rewrite (proj2 (Z.leb_gt cnt 1)) by lia.
      destruct (half_bound cnt Hc) as [Hk0 Hk].
      rewrite (IH f2 _ low) by lia. apply IH; lia.
Qed.

Lemma bitonic_merge_recursive_unfold arr low cnt dir :
  bitonic_merge_recursive arr low cnt dir =
    if cnt <=? 1 then arr
    else
      let k := Z.quot cnt 2 in
      let arr1 := bitonic_compare_and_swap arr low k dir in
      let arr2 := bitonic_merge_recursive arr1 low k dir in
      bitonic_merge_recursive arr2 (low + k) k dir.
Proof.
  unfold bitonic_merge_recursive at 1.
  destruct (Z.to_nat cnt) as [|f] eqn:Hf.
  - simpl. by rewrite (proj2 (Z.leb_le cnt 1)) by lia.
  - simpl. destruct (Z.leb_spec cnt 1) as [Hc|Hc]; [done|]. cbv zeta.
    destruct (half_bound cnt Hc) as [Hk0 Hk]. unfold bitonic_merge_recursive.
    rewrite (bitonic_merge_fuel_enough f (Z.to_nat (Z.quot cnt 2)) _ low)
      by lia.
    apply bitonic_merge_fuel_enough; lia.
Qed.

Lemma bitonic_sort_fuel_enough f1 : ∀ f2 arr low cnt dir,
  (Z.to_nat cnt <= f1)%nat → (Z.to_nat cnt <= f2)%nat →
  bitonic_sort_fuel f1 arr low cnt dir = bitonic_sort_fuel f2 arr low cnt dir.
Proof.
  induction f1 as [|f1 IH]; intros f2 arr low cnt dir H1 H2.
  - destruct f2 as [|f2]; [done|]. simpl.
    by rewrite (proj2 (Z.leb_le cnt 1)) by lia.
  - simpl. destruct (Z.leb_spec cnt 1) as [Hc|Hc].
    + destruct f2 as [|f2]; [done|]. simpl.
      by rewrite (proj2 (Z.leb_le cnt 1)) by lia.
    + destruct f2 as [|f2]; [lia|]. simpl.
      rewrite (proj2 (Z.leb_gt cnt 1)) by lia.
      destruct (half_bound cnt Hc) as [Hk0 Hk].
      rewrite (IH f2 arr low) by lia.
      by rewrite (IH f2 _ (low + Z.quot cnt 2)) by lia.
Qed.

Lemma bitonic_sort_recursive_unfold arr low cnt dir :
  bitonic_sort_recursive arr low cnt dir =
    if cnt <=? 1 then arr
    else
      let k := Z.quot cnt 2 in
      let arr1 := bitonic_sort_recursive arr low k 1 in
      let arr2 := bitonic_sort_recursive arr1 (low + k) k 0 in
      bitonic_merge_recursive arr2 low cnt dir.
Proof.
  unfold bitonic_sort_recursive at 1.
  destruct (Z.to_nat cnt) as [|f] eqn:Hf.
  - simpl. by rewrite (proj2 (Z.leb_le cnt 1)) by lia.
  - simpl. destruct (Z.leb_spec cnt 1) as [Hc|Hc]; [done|]. cbv zeta.
    destruct (half_bound cnt Hc) as [Hk0 Hk]. unfold bitonic_sort_recursive.
    rewrite (bitonic_sort_fuel_enough f (Z.to_nat (Z.quot cnt 2)) arr low)
      by lia.
    by rewrite (bitonic_sort_fuel_enough f (Z.to_nat (Z.quot cnt 2)) _
                  (low + Z.quot cnt 2)) by lia.
Qed.

Lemma get_swap_int arr i j x :
  0 <= i < Z.of_nat (length arr) → 0 <= j < Z.of_nat (length arr) → 0 <= x →
  get (swap_int arr i j) x =
    if decide (x = i) then get arr j
    else if decide (x = j) then get arr i else get arr x.
Proof.
  intros Hi Hj Hx. unfold swap_int, get.
  destruct (decide (x = j)) as [->|Hxj].
  - rewrite list_lookup_total_insert_eq by (rewrite length_insert; lia).
    case_decide; by simplify_eq.
  - rewrite list_lookup_total_insert_ne by lia.
    destruct (decide (x = i)) as [->|Hxi].
    + by rewrite list_lookup_total_insert_eq by lia.
    + by rewrite list_lookup_total_insert_ne by lia.
Qed.

(** One step of the loop of [bitonic_compare_and_swap]. *)
Lemma get_compare_and_swap_at k dir arr i x :
  0 <= i → 0 < k → i + k < Z.of_nat (length arr) → 0 <= x →
  get (compare_and_swap_at k dir arr i) x =
    if decide (x = i) then
      if dir =? 0 then Z.max (get arr i) (get arr (i + k))
      else Z.min (get arr i) (get arr (i + k))
    else if decide (x = i + k) then
      if dir =? 0 then Z.min (get arr i) (get arr (i + k))
      else Z.max (get arr i) (get arr (i + k))
    else get arr x.
Proof.
  intros Hi Hk Hik Hx. unfold compare_and_swap_at.
  destruct (dir =? 0); simpl.
  - destruct (Z.ltb_spec (get arr i) (get arr (i + k))).
    + rewrite get_swap_int by lia. repeat case_decide; lia.
    + repeat case_decide; subst; lia.
  - destruct (Z.gtb_spec (get arr i) (get arr (i + k))).
    + rewrite get_swap_int by lia. repeat case_decide; lia.
    + repeat case_decide; subst; lia.
Qed.

Lemma compare_and_swap_at_length k dir arr i :
  length (compare_and_swap_at k dir arr i) = length arr.
Proof.
  unfold compare_and_swap_at, swap_int.
  repeat case_match; by rewrite ?length_insert.
Qed.

Lemma compare_and_swap_fold low k dir idx : ∀ arr,
  0 <= low → 0 < k → low + 2 * k <= Z.of_nat (length arr) →
  NoDup idx → Forall (λ i, low <= i < low + k) idx →
  ∀ i, low <= i < low + k →
    let arr' := foldl (compare_and_swap_at k dir) arr idx in
    if decide (i ∈ idx) then
      get arr' i = (if dir =? 0 then Z.max (get arr i) (get arr (i + k))
                    else Z.min (get arr i) (get arr (i + k))) ∧
      get arr' (i + k) = (if dir =? 0 then Z.min (get arr i) (get arr (i + k))
                          else Z.max (get arr i) (get arr (i + k)))
    else get arr' i = get arr i ∧ get arr' (i + k) = get arr (i + k).
Proof.
  induction idx as [|i0 idx IH]; intros arr Hlow Hk Hlen Hnd Hidx i Hi;
    cbv zeta.
  - by rewrite decide_False by apply not_elem_of_nil.
  - apply NoDup_cons in Hnd as [Hi0 Hnd].
    apply Forall_cons in Hidx as [Hr0 Hidx]. simpl foldl.
    set (arr1 := compare_and_swap_at k dir arr i0).
    assert (length arr1 = length arr) as Hl1
      by apply compare_and_swap_at_length.
    pose proof (IH arr1 Hlow Hk ltac:(lia) Hnd Hidx i Hi) as Hrest.
    cbv zeta in Hrest.
    assert (∀ x, 0 <= x → get arr1 x = _) as Hget
      by (intros x Hx; apply (get_compare_and_swap_at k dir arr i0 x); lia).
    destruct (decide (i = i0)) as [->|Hne].
    + rewrite decide_True by left. rewrite decide_False in Hrest by done.
      destruct Hrest as [-> ->]. rewrite !Hget by lia.
      rewrite decide_True by done. rewrite decide_False by lia.
      by rewrite decide_True by done.
    + assert (get arr1 i = get arr i ∧ get arr1 (i + k) = get arr (i + k))
        as [Hsame1 Hsame2].
      { rewrite !Hget by lia. by rewrite !decide_False by lia. }
      rewrite Hsame1, Hsame2 in Hrest.
      destruct (decide (i ∈ idx)) as [Hin|Hnin].
      * by rewrite decide_True by (by right).
      * rewrite decide_False; [done|]. intros Hin.
        apply elem_of_cons in Hin as [?|?]; done.
Qed.

Lemma bitonic_compare_and_swap_spec arr low k dir i :
  0 <= low → 0 < k → low + 2 * k <= Z.of_nat (length arr) →
  low <= i < low + k →
  let arr' := bitonic_compare_and_swap arr low k dir in
  get arr' i = (if dir =? 0 then Z.max (get arr i) (get arr (i + k))
                else Z.min (get arr i) (get arr (i + k))) ∧
  get arr' (i + k) = (if dir =? 0 then Z.min (get arr i) (get arr (i + k))
                      else Z.max (get arr i) (get arr (i + k))).
Proof.
  intros Hlow Hk Hlen Hi.
  pose proof (compare_and_swap_fold low k dir (seqZ low k) arr Hlow Hk Hlen
                (NoDup_seqZ _ _)) as H.
  specialize (H ltac:(apply Forall_forall; intros ? ?%elem_of_seqZ; lia) i Hi).
  cbv zeta in H. rewrite decide_True in H by (apply elem_of_seqZ; lia).
  exact H.
Qed.

Lemma permutes_within_get low cnt arr arr' x :
  permutes_within low cnt arr arr' → 0 <= x → x < low ∨ low + cnt <= x →
  get arr' x = get arr x.
Proof.
  intros [_ Hf] Hx Hout. unfold get. rewrite !list_lookup_total_alt.
  rewrite Hf; [done|lia].
Qed.

(** What [arr'] holds inside the segment, [arr] holds inside the segment. *)
Lemma permutes_within_from low cnt arr arr' r :
  permutes_within low cnt arr arr' → 0 <= low → 0 <= cnt →
  low + cnt <= Z.of_nat (length arr) → low <= r < low + cnt →
  ∃ r', low <= r' < low + cnt ∧ get arr r' = get arr' r.
Proof.
  intros Hpw Hlow Hcnt Hlen Hr.
  pose proof (permutes_within_length _ _ _ _ Hpw) as Hl.
  destruct (permutes_within_segment low cnt arr arr' Hlow Hcnt Hlen Hpw)
    as (_ & _ & Hseg).
  assert (get arr' r ∈ take (Z.to_nat cnt) (drop (Z.to_nat low) arr')) as Hin.
  { apply list_elem_of_lookup. exists (Z.to_nat (r - low)).
    rewrite lookup_take_lt by lia. rewrite lookup_drop.
    replace (Z.to_nat low + Z.to_nat (r - low))%nat with (Z.to_nat r) by lia.
    apply list_lookup_lookup_total_lt. lia. }
  rewrite Hseg in Hin. apply list_elem_of_lookup in Hin as [i Hi].
  apply lookup_take_Some in Hi as [Hi Hic]. rewrite lookup_drop in Hi.
  exists (low + Z.of_nat i). split; [lia|]. unfold get at 1.
  replace (Z.to_nat (low + Z.of_nat i)) with (Z.to_nat low + i)%nat by lia.
  by apply list_lookup_total_correct.
Qed.

Lemma first_at_get dir t arr arr' i i' :
  get arr' i' = get arr i → first_at dir t arr' i' → first_at dir t arr i.
Proof. unfold first_at. by intros ->. Qed.

Lemma second_at_get dir t arr arr' i i' :
  get arr' i' = get arr i → second_at dir t arr' i' → second_at dir t arr i.
Proof. unfold second_at. by intros ->. Qed.

Lemma quot_pow2_succ (e : nat) : Z.quot (2 ^ Z.of_nat (S e)) 2 = 2 ^ Z.of_nat e.
Proof.
  replace (Z.of_nat (S e)) with (Z.of_nat e + 1) by lia.
  rewrite pow2_succ by lia. pose proof (pow2_pos (Z.of_nat e) ltac:(lia)).
  rewrite Z.mul_comm. apply Z.quot_mul. lia.
Qed.

(** [bitonic_merge_recursive] puts a bitonic segment of [2^e] elements in
    the order [dir], as far as the threshold [t] can tell. *)
Lemma bitonic_merge_ordered dir t (e : nat) : ∀ arr low,
  0 <= low → low + 2 ^ Z.of_nat e <= Z.of_nat (length arr) →
  bitonic01 (first_at dir t arr) (second_at dir t arr)
    low (low + 2 ^ Z.of_nat e) →
  let arr' := bitonic_merge_recursive arr low (2 ^ Z.of_nat e) dir in
  ordered01 (first_at dir t arr') (second_at dir t arr')
    low (low + 2 ^ Z.of_nat e).
Proof.
  induction e as [|e IH]; intros arr low Hlow Hlen Hbit; cbv zeta.
  - intros r s Hr Hrs Hs. change (2 ^ Z.of_nat 0) with 1 in Hs. lia.
  - pose proof (pow2_pos (Z.of_nat e) ltac:(lia)) as Hk.
    assert (2 ^ Z.of_nat (S e) = 2 * 2 ^ Z.of_nat e) as Hcnt.
    { replace (Z.of_nat (S e)) with (Z.of_nat e + 1) by lia.
      apply pow2_succ. lia. }
    rewrite bitonic_merge_recursive_unfold.
    rewrite (proj2 (Z.leb_gt _ _)) by lia. rewrite quot_pow2_succ. cbv zeta.
    set (k := 2 ^ Z.of_nat e) in *. rewrite Hcnt in *.
    pose proof (bitonic_compare_and_swap_permutes arr low k dir Hlow Hlen)
      as Hp1.
    set (arr1 := bitonic_compare_and_swap arr low k dir) in *.
    pose proof (permutes_within_length _ _ _ _ Hp1) as Hl1.
    pose proof (bitonic_merge_recursive_permutes arr1 low k dir Hlow
                  ltac:(lia)) as Hp2.
    pose proof (IH arr1 low Hlow ltac:(lia)) as IH1. cbv zeta in IH1.
    fold k in IH1, Hp2.
    set (arr2 := bitonic_merge_recursive arr1 low k dir) in *.
    pose proof (permutes_within_length _ _ _ _ Hp2) as Hl2.
    pose proof (bitonic_merge_recursive_permutes arr2 (low + k) k dir
                  ltac:(lia) ltac:(lia)) as Hp3.
    pose proof (IH arr2 (low + k) ltac:(lia) ltac:(lia)) as IH2.
    cbv zeta in IH2. fold k in IH2, Hp3.
    set (arr3 := bitonic_merge_recursive arr2 (low + k) k dir) in *.
    assert (∀ i, low <= i < low + k →
              (first_at dir t arr1 i →
                 first_at dir t arr i ∧ first_at dir t arr (i + k)) ∧
              (second_at dir t arr1 i →
                 second_at dir t arr i ∨ second_at dir t arr (i + k)) ∧
              (second_at dir t arr1 (i + k) →
                 second_at dir t arr i ∧ second_at dir t arr (i + k)) ∧
              (first_at dir t arr1 (i + k) →
                 first_at dir t arr i ∨ first_at dir t arr (i + k)) ∧
              ¬ (first_at dir t arr1 i ∧ second_at dir t arr1 (i + k)))
      as Hpair.
    { intros i Hi.
      destruct (bitonic_compare_and_swap_spec arr low k dir i Hlow Hk Hlen Hi)
        as [Hmin Hmax].
      fold arr1 in Hmin, Hmax. unfold first_at, second_at.
      rewrite Hmin, Hmax. destruct (dir =? 0); lia. }
    assert (bitonic01 (first_at dir t arr1) (second_at dir t arr1)
              low (low + k)) as Hlo1.
    { apply (half_cleaner_lower _ _ low k Hbit); intros i Hi;
        by destruct (Hpair i Hi) as (? & ? & ? & ? & ?). }
    assert (bitonic01 (first_at dir t arr1) (second_at dir t arr1)
              (low + k) (low + 2 * k)) as Hup1.
    { apply (half_cleaner_upper _ _ _ _ low k Hbit); intros i Hi;
        by destruct (Hpair i Hi) as (? & ? & ? & ? & ?). }
    assert (∀ r s, low <= r < low + k → low + k <= s < low + 2 * k →
              ¬ (first_at dir t arr1 r ∧ second_at dir t arr1 s)) as Hsep1.
    { apply (half_cleaner_sep _ _ low k Hbit); intros i Hi;
        by destruct (Hpair i Hi) as (? & ? & ? & ? & ?). }
    specialize (IH1 Hlo1).
    assert (bitonic01 (first_at dir t arr2) (second_at dir t arr2)
              (low + k) (low + k + k)) as Hup2.
    { replace (low + k + k) with (low + 2 * k) by lia.
      eapply bitonic01_ext; [| |exact Hup1]; intros i Hi;
        [apply first_at_get|apply second_at_get];
        apply (permutes_within_get _ _ _ _ _ Hp2); lia. }
    specialize (IH2 Hup2).
    intros r s Hr Hrs Hs [HX HY].
    destruct (Z.lt_ge_cases s (low + k)) as [Hsl|Hsu].
    + apply (IH1 r s); [lia..|]. split.
      * eapply first_at_get; [|exact HX].
        apply (permutes_within_get _ _ _ _ _ Hp3); lia.
      * eapply second_at_get; [|exact HY].
        apply (permutes_within_get _ _ _ _ _ Hp3); lia.
    + destruct (Z.lt_ge_cases r (low + k)) as [Hrl|Hru].
      * destruct (permutes_within_from low k arr1 arr2 r Hp2)
          as (r' & Hr' & Hgr); [lia..|].
        destruct (permutes_within_from (low + k) k arr2 arr3 s Hp3)
          as (s' & Hs' & Hgs); [lia..|].
        apply (Hsep1 r' s'); [lia..|]. split.
        -- eapply first_at_get; [|exact HX]. rewrite Hgr.
           apply (permutes_within_get _ _ _ _ _ Hp3); lia.
        -- eapply second_at_get; [|exact HY]. rewrite <- Hgs.
           apply (permutes_within_get _ _ _ _ _ Hp2); lia.
      * apply (IH2 r s); [lia..|done].
Qed.

Lemma segment_sorted_ordered dir t arr low cnt :
  segment_sorted dir arr low cnt →
  ordered01 (first_at dir t arr) (second_at dir t arr) low (low + cnt).
Proof.
  intros Hs r s Hr Hrs Hsc. specialize (Hs r s Hr Hrs Hsc).
  unfold first_at, second_at. destruct (dir =? 0); lia.
Qed.

Lemma ordered_segment_sorted dir arr low cnt :
  (∀ t, ordered01 (first_at dir t arr) (second_at dir t arr)
          low (low + cnt)) →
  segment_sorted dir arr low cnt.
Proof.
  intros Ho r s Hr Hrs Hsc. unfold first_at, second_at in Ho.
  destruct (dir =? 0) eqn:Hd.
  - specialize (Ho (get arr r) r s Hr Hrs Hsc). simpl in Ho. lia.
  - specialize (Ho (get arr s) r s Hr Hrs Hsc). simpl in Ho. lia.
Qed.

Lemma segment_sorted_ext dir arr arr' low cnt :
  (∀ x, low <= x < low + cnt → get arr' x = get arr x) →
  segment_sorted dir arr low cnt → segment_sorted dir arr' low cnt.
Proof.
  intros Heq Hs r s Hr Hrs Hsc. specialize (Hs r s Hr Hrs Hsc).
  by rewrite !Heq by lia.
Qed.

(** [bitonic_sort_recursive] puts a segment of [2^e] elements in the order
    [dir]. *)
Lemma bitonic_sort_recursive_sorted (e : nat) : ∀ arr low dir,
  0 <= low → low + 2 ^ Z.of_nat e <= Z.of_nat (length arr) →
  segment_sorted dir (bitonic_sort_recursive arr low (2 ^ Z.of_nat e) dir)
    low (2 ^ Z.of_nat e).
Proof.
  induction e as [|e IH]; intros arr low dir Hlow Hlen.
  - intros r s Hr Hrs Hs. change (2 ^ Z.of_nat 0) with 1 in Hs. lia.
  - pose proof (pow2_pos (Z.of_nat e) ltac:(lia)) as Hk.
    assert (2 ^ Z.of_nat (S e) = 2 * 2 ^ Z.of_nat e) as Hcnt.
    { replace (Z.of_nat (S e)) with (Z.of_nat e + 1) by lia.
      apply pow2_succ. lia. }
    rewrite bitonic_sort_recursive_unfold.
    rewrite (proj2 (Z.leb_gt _ _)) by lia. rewrite quot_pow2_succ. cbv zeta.
    pose proof (IH arr low 1 Hlow ltac:(lia)) as IH1.
    pose proof (bitonic_sort_fuel_permutes (Z.to_nat (2 ^ Z.of_nat e)) arr low
                  (2 ^ Z.of_nat e) 1 Hlow ltac:(lia)) as Hp1.
    fold (bitonic_sort_recursive arr low (2 ^ Z.of_nat e) 1) in Hp1.
    set (k := 2 ^ Z.of_nat e) in *.
    set (arr1 := bitonic_sort_recursive arr low k 1) in *.
    pose proof (permutes_within_length _ _ _ _ Hp1) as Hl1.
    pose proof (IH arr1 (low + k) 0 ltac:(lia) ltac:(lia)) as IH2.
    pose proof (bitonic_sort_fuel_permutes (Z.to_nat k) arr1 (low + k)
                  k 0 ltac:(lia) ltac:(lia)) as Hp2.
    fold (bitonic_sort_recursive arr1 (low + k) k 0) in Hp2. fold k in IH2.
    set (arr2 := bitonic_sort_recursive arr1 (low + k) k 0) in *.
    pose proof (permutes_within_length _ _ _ _ Hp2) as Hl2.
    assert (segment_sorted 1 arr2 low k) as Hlo.
    { eapply segment_sorted_ext; [|exact IH1]. intros x Hx.
      apply (permutes_within_get _ _ _ _ _ Hp2); lia. }
    rewrite Hcnt. apply ordered_segment_sorted. intros t.
    pose proof (bitonic_merge_ordered dir t (S e) arr2 low Hlow) as Hm.
    cbv zeta in Hm. rewrite Hcnt in Hm. apply Hm; [lia|].
    assert (bitonic01 (first_at 1 t arr2) (second_at 1 t arr2)
              low (low + 2 * k)) as Hbit.
    { apply (bitonic01_of_halves _ _ _ (low + k)).
      - by apply segment_sorted_ordered.
      - replace (low + 2 * k) with (low + k + k) by lia.
        by apply (segment_sorted_ordered 0 t). }
    unfold first_at, second_at in *. simpl in Hbit.
    destruct (dir =? 0); [by apply bitonic01_sym|done].
Qed.

Lemma Sorted_of_get (l : list Z) :
  (∀ r s, 0 <= r → r < s → s < Z.of_nat (length l) → get l r <= get l s) →
  Sorted Z.le l.
Proof.
  induction l as [|x l IH]; intros Hget; [constructor|].
  apply StronglySorted_Sorted. constructor.
  - apply Sorted_StronglySorted; [apply _|]. apply IH. intros r s Hr Hrs Hs.
    specialize (Hget (r + 1) (s + 1) ltac:(lia) ltac:(lia)
                  ltac:(simpl length; lia)).
    unfold get in *.
    replace (Z.to_nat (r + 1)) with (S (Z.to_nat r)) in Hget by lia.
    by replace (Z.to_nat (s + 1)) with (S (Z.to_nat s)) in Hget by lia.
  - apply Forall_forall. intros y Hy.
    apply list_elem_of_lookup_total in Hy as (i & Hi & <-).
    specialize (Hget 0 (Z.of_nat i + 1) ltac:(lia) ltac:(lia)
                  ltac:(simpl length; lia)).
    unfold get in Hget.
    by replace (Z.to_nat (Z.of_nat i + 1)) with (S i) in Hget by lia.
Qed.

(** The local sort of [main]: a partition of [2^e] elements comes out in
    ascending order, with the same elements. *)
Lemma local_sort_correct local e :
  0 <= e → Z.of_nat (length local) = 2 ^ e →
  let sorted := bitonic_sort_recursive local 0 (2 ^ e) 1 in
  Z.of_nat (length sorted) = 2 ^ e ∧ Sorted Z.le sorted ∧ sorted ≡ₚ local.
Proof.
  intros He Hlen sorted.
  pose proof (bitonic_sort_fuel_permutes (Z.to_nat (2 ^ e)) local 0 (2 ^ e) 1
                ltac:(lia) ltac:(lia)) as Hp.
  fold (bitonic_sort_recursive local 0 (2 ^ e) 1) in Hp. fold sorted in Hp.
  pose proof (permutes_within_length _ _ _ _ Hp) as Hl.
  split_and!; [lia| |by destruct Hp].
  pose proof (bitonic_sort_recursive_sorted (Z.to_nat e) local 0 1
                ltac:(lia)) as Hs.
  rewrite Z2Nat.id in Hs by done. fold sorted in Hs.
  apply Sorted_of_get. intros r s Hr Hrs Hsl.
  apply (Hs ltac:(lia) r s); lia.
Qed.

(** ** More fuel does not change a result *)

Lemma next_power_of_two_loop_mono f : ∀ f' p n r,
  (f <= f')%nat → next_power_of_two_loop f p n = Some r →
  next_power_of_two_loop f' p n = Some r.
Proof.
  induction f as [|f IH]; intros f' p n r Hf Hr; [done|].
  destruct f' as [|f']; [lia|]. simpl in *.
  destruct (p <? n); [|done]. apply (IH f'); [lia|done].
Qed.

Lemma pad_loop_mono f : ∀ f' N size r,
  (f <= f')%nat → pad_loop f N size = Some r → pad_loop f' N size = Some r.
Proof.
  induction f as [|f IH]; intros f' N size r Hf Hr; [done|].
  destruct f' as [|f']; [lia|]. simpl in *.
  destruct (Z.rem N size =? 0); [done|]. apply (IH f'); [lia|done].
Qed.

Lemma partition_sizer_mono f f' n size r :
  (f <= f')%nat → partition_sizer f n size = Some r →
  partition_sizer f' n size = Some r.
Proof.
  unfold partition_sizer, next_power_of_two. intros Hf Hr.
  destruct (n <=? 0).
  - simpl in *. destruct (pad_loop f 1 size) as [N|] eqn:HN; [|done].
    by rewrite (pad_loop_mono f f' _ _ N Hf HN).
  - destruct (next_power_of_two_loop f 1 n) as [N0|] eqn:HN0; [|done].
    rewrite (next_power_of_two_loop_mono f f' _ _ N0 Hf HN0). simpl in *.
    destruct (pad_loop f N0 size) as [N|] eqn:HN; [|done].
    by rewrite (pad_loop_mono f f' _ _ N Hf HN).
Qed.

Lemma inner_loop_mono f : ∀ f' L k j w w',
  (f <= f')%nat → inner_loop f L k j w = Done w' →
  inner_loop f' L k j w = Done w'.
Proof.
  induction f as [|f IH]; intros f' L k j w w' Hf Hr; [done|].
  destruct f' as [|f']; [lia|]. simpl in *.
  destruct (0 <? j); [|done].
  destruct (exchange_round L k j (parts w)); [|done].
  apply (IH f'); [lia|done].
Qed.

Lemma outer_loop_mono f : ∀ f' L size k w w',
  (f <= f')%nat → outer_loop f L size k w = Done w' →
  outer_loop f' L size k w = Done w'.
Proof.
  induction f as [|f IH]; intros f' L size k w w' Hf Hr; [done|].
  destruct f' as [|f']; [lia|]. rewrite outer_loop_S in *.
  destruct (k <=? size); [|done].
  destruct (inner_loop f L k (shr1 k) w) as [w1| |] eqn:Hin; [|done..].
  rewrite (inner_loop_mono f f' _ _ _ _ w1 ltac:(lia) Hin).
  cbn [mbind run_bind] in *. apply (IH f'); [lia|done].
Qed.

Lemma network_mono f f' L size w w' :
  (f <= f')%nat → network f L size w = Done w' → network f' L size w = Done w'.
Proof. apply outer_loop_mono. Qed.

(** ** Scatter and gather *)

Lemma scatter_length global_arr L P :
  length (scatter global_arr L P) = Z.to_nat P.
Proof. unfold scatter. by rewrite length_fmap, length_seq. Qed.

Lemma join_chunks (g : list Z) (c : nat) (n : nat) : ∀ b : nat,
  mjoin ((λ r : nat, take c (drop (r * c) g)) <$> seq b n) =
    take (n * c) (drop (b * c) g).
Proof.
  induction n as [|n IH]; intros b; [done|].
  cbn [seq fmap list_fmap mjoin list_join]. rewrite IH.
  replace (S b * c)%nat with (b * c + c)%nat by lia.
  rewrite <- drop_drop. rewrite take_take_drop. f_equal.
Qed.

Lemma gather_scatter global_arr L P :
  0 <= L → 0 <= P → Z.of_nat (length global_arr) = L * P →
  gather (scatter global_arr L P) = global_arr.
Proof.
  intros HL HP Hlen. unfold gather, scatter. rewrite join_chunks.
  rewrite drop_0. apply take_ge. nia.
Qed.

Lemma scatter_chunk_length global_arr L P local :
  0 <= L → 0 <= P → Z.of_nat (length global_arr) = L * P →
  local ∈ scatter global_arr L P → Z.of_nat (length local) = L.
Proof.
  intros HL HP Hlen Hin. unfold scatter in Hin.
  apply list_elem_of_fmap in Hin as (r & -> & Hr). apply elem_of_seq in Hr.
  rewrite length_take, length_drop. nia.
Qed.

Lemma initial_global_length rnd n N :
  0 <= n <= N → Z.of_nat (length (initial_global rnd n N)) = N.
Proof.
  intros Hn. unfold initial_global.
  rewrite length_app, length_fmap, length_seq, length_replicate. lia.
Qed.

(** ** The whole run *)

Lemma initial_partitions_spec rnd n N L P e :
  0 <= n <= N → N = L * P → 0 <= e → L = 2 ^ e → 0 <= P →
  let ps0 := initial_partitions rnd n N L P in
  Z.of_nat (length ps0) = P ∧ partitions_ok L ps0 ∧
  gather ps0 ≡ₚ initial_global rnd n N.
Proof.
  intros Hn HN He HL HP ps0. subst ps0. unfold initial_partitions.
  pose proof (initial_global_length rnd n N Hn) as Hlen.
  pose proof (pow2_pos e He) as HLpos. rewrite <- HL in HLpos.
  set (g := initial_global rnd n N) in *.
  assert (∀ local, local ∈ scatter g L P → Z.of_nat (length local) = L)
    as Hchunk.
  { intros local. apply scatter_chunk_length; lia. }
  split_and!.
  - rewrite length_fmap, scatter_length. lia.
  - apply Forall_fmap, Forall_forall. intros local Hin. simpl.
    destruct (local_sort_correct local e He) as (Hl & Hs & _).
    { rewrite <- HL. by apply Hchunk. }
    rewrite HL. by split.
  - rewrite <- (gather_scatter g L P) at 2 by lia. unfold gather.
    rewrite <- (list_fmap_id (scatter g L P)) at 2.
    apply join_fmap_perm. intros local Hin. simpl.
    destruct (local_sort_correct local e He) as (_ & _ & Hp).
    { rewrite <- HL. by apply Hchunk. }
    by rewrite HL.
Qed.

(** An ascending array made of [inp] and [c] copies of a value that is at
    least every element of [inp] ends with the copies. *)
Lemma sorted_padding (out inp : list Z) (c : nat) M :
  Sorted Z.le out → out ≡ₚ inp ++ replicate c M → Forall (λ x, x <= M) inp →
  take (length inp) out ≡ₚ inp ∧ drop (length inp) out = replicate c M.
Proof.
  intros Hs Hp Hle. set (s := merge_sort Z.le inp).
  assert (s ≡ₚ inp) as Hsp by apply merge_sort_Permutation.
  assert (out = s ++ replicate c M) as ->.
  { apply (Sorted_unique Z.le); [done| |by rewrite Hp, Hsp].
    apply StronglySorted_Sorted, StronglySorted_app_2.
    - intros x y Hx Hy. apply elem_of_replicate in Hy as [-> _].
      rewrite Hsp in Hx. by apply (proj1 (Forall_forall _ _) Hle).
    - apply StronglySorted_merge_sort; apply _.
    - clear. induction c as [|c IH]; simpl; constructor; [done|].
      apply Forall_forall. intros y Hy.
      apply elem_of_replicate in Hy as [-> _]. lia. }
  assert (length inp = length s) as -> by (by rewrite Hsp).
  by rewrite take_app_length, drop_app_length.
Qed.

Lemma Sorted_get (l : list Z) r s :
  Sorted Z.le l → 0 <= r → r <= s → s < Z.of_nat (length l) →
  get l r <= get l s.
Proof.
  intros Hl Hr Hrs Hs. destruct (decide (r = s)) as [->|Hne]; [done|].
  apply (Sorted_take_drop_le l (Z.to_nat s)); [done| |].
  - apply list_elem_of_lookup. exists (Z.to_nat r).
    rewrite lookup_take_lt by lia. apply list_lookup_lookup_total_lt. lia.
  - apply list_elem_of_lookup. exists 0%nat. rewrite lookup_drop.
    rewrite Nat.add_0_r. apply list_lookup_lookup_total_lt. lia.
Qed.

Lemma Sorted_verify_sorted (l : list Z) n :
  Sorted Z.le l → n <= Z.of_nat (length l) → verify_sorted l n = true.
Proof.
  intros Hl Hn. apply verify_sorted_true. intros i Hi.
  apply Sorted_get; (done || lia).
Qed.


(** A run of the network that ends is a run on fewer than 2^30 processes,
    and ends after the phases of the schedule. *)
Lemma network_Done_inv fuel L d ps lg w :
  0 <= d <= 30 → Z.of_nat (length ps) = 2 ^ d →
  network fuel L (2 ^ d) (World ps lg) = Done w →
  d < 30 ∧
  w = World (phases L 0 (Z.to_nat d) ps) (lg ++ schedule 0 (Z.to_nat d)).
Proof.
  intros Hd Hlen Hnet.
  apply (network_mono fuel (max fuel 62)) in Hnet; [|lia].
  destruct (decide (d = 30)) as [->|Hne].
  - rewrite network_spec_overflow in Hnet by (done || lia). done.
  - rewrite network_spec in Hnet by (done || lia). split; [lia|].
    by simplify_eq.
Qed.

Section whole_run.
Context (n d : Z) (rnd : nat → Z).
Hypothesis Hn : 0 < n <= 2 ^ 30.
Hypothesis Hd : 0 <= d <= 30.

Let c := Z.max (Z.log2_up n) d.
Let N := 2 ^ c.
Let L := 2 ^ (c - d).
Let ps0 := initial_partitions rnd n N L (2 ^ d).

Lemma run_sizes : 0 <= d <= c ∧ n <= N ∧ N = L * 2 ^ d ∧ 0 < L.
Proof.
  pose proof (Z.log2_up_nonneg n).
  assert (n <= 2 ^ Z.log2_up n) by (apply Z.log2_up_le_pow2; lia).
  assert (2 ^ Z.log2_up n <= 2 ^ c)
    by (apply Z.pow_le_mono_r; unfold c; lia).
  unfold N, L. rewrite <- Z.pow_add_r by (unfold c; lia).
  split_and!; [lia|unfold c; lia|lia|f_equal; lia|].
  apply pow2_pos. unfold c. lia.
Qed.

Lemma run_partitions :
  Z.of_nat (length ps0) = 2 ^ d ∧ partitions_ok L ps0 ∧
  gather ps0 ≡ₚ initial_global rnd n N.
Proof.
  destruct run_sizes as (Hdc & HnN & HN & HL).
  apply (initial_partitions_spec rnd n N L (2 ^ d) (c - d));
    [lia|done|lia|done|].
  pose proof (pow2_pos d). lia.
Qed.

Lemma run_requested : requested_n (Some n) = n.
Proof. unfold requested_n. by rewrite (proj2 (Z.leb_gt _ _)) by lia. Qed.

(** What the network leaves, however the loops end. *)
Let out := gather (phases L 0 (Z.to_nat d) ps0).

Lemma run_out :
  Sorted Z.le out ∧ out ≡ₚ initial_global rnd n N ∧
  Z.of_nat (length out) = N.
Proof.
  destruct run_sizes as (Hdc & HnN & HN & HL).
  destruct run_partitions as (Hlen & Hok & Hg).
  destruct (phases_sorted L d ps0 ltac:(lia) Hlen Hok) as [Hs Hp].
  fold out in Hs, Hp. split_and!; [done|by rewrite Hp|].
  rewrite Hp, Hg. apply initial_global_length. lia.
Qed.

Lemma main_spec fuel :
  d < 30 → (62 <= fuel)%nat →
  main fuel (Some n) (2 ^ d) rnd =
    Done (full_log n N (2 ^ d) L (Z.to_nat d), out).
Proof.
  intros Hd30 Hfuel.
  destruct run_sizes as (Hdc & HnN & HN & HL).
  destruct run_partitions as (Hlen & Hok & Hg).
  destruct run_out as (Hs & Hp & Hlo).
  unfold main. rewrite is_power_of_two_pow2 by lia. cbn [negb].
  unfold main_body. rewrite run_requested.
  rewrite partition_sizer_exp by lia. fold c N L.
  rewrite (proj2 (Z.leb_gt _ _)) by lia. cbv zeta. fold ps0.
  rewrite network_spec by (done || lia).
  cbn [mbind run_bind parts log usage_log]. fold out.
  rewrite Sorted_verify_sorted by (done || lia).
  reflexivity.
Qed.

(** Any run that goes through is the one above. *)
Lemma main_Done_inv fuel P lg res :
  P = 2 ^ d → main fuel (Some n) P rnd = Done (lg, res) →
  d < 30 ∧ lg = full_log n N (2 ^ d) L (Z.to_nat d) ∧ res = out.
Proof.
  intros -> Hmain.
  destruct run_sizes as (Hdc & HnN & HN & HL).
  destruct run_partitions as (Hlen & Hok & Hg).
  destruct run_out as (Hs & Hp & Hlo).
  revert Hmain. unfold main. rewrite is_power_of_two_pow2 by lia.
  cbn [negb]. unfold main_body. rewrite run_requested.
  destruct (partition_sizer fuel n (2 ^ d)) as [[N' L']|] eqn:Hsz; [|done].
  apply (partition_sizer_mono fuel (max fuel 62)) in Hsz; [|lia].
  rewrite partition_sizer_exp in Hsz by lia. fold c N L in Hsz.
  injection Hsz as <- <-.
  rewrite (proj2 (Z.leb_gt _ _)) by lia. cbv zeta. fold ps0.
  destruct (network fuel L (2 ^ d) _) as [w| |] eqn:Hnet; [|done..].
  apply network_Done_inv in Hnet as [Hd30 ->]; [|lia|done].
  cbn [mbind run_bind parts log usage_log]. fold out.
  rewrite Sorted_verify_sorted by (done || lia).
  intros Heq. injection Heq as <- <-. by split.
Qed.
End whole_run.

(** ** The claims on the whole run *)

Lemma pow2_below P : pow2 P → P < 2 ^ 30 → ∃ d, 0 <= d < 30 ∧ P = 2 ^ d.
Proof.
  intros (d & Hd & ->) Hlt. exists d. split; [|done].
  split; [done|]. apply pow2_lt_inv; (done || lia).
Qed.

Lemma input_length (rnd : nat → Z) n :
  length (rnd <$> seq 0 (Z.to_nat n)) = Z.to_nat n.
Proof. by rewrite length_fmap, length_seq. Qed.

(** C1 (amended): for every element count n with 0 < n <= 2^30 and every
    power of two P < 2^30, the run goes through: the local sorts and the
    network leave partitions whose concatenation in rank order has, as its
    first n elements, the n input values in non-decreasing order, and the
    verifier reports it sorted.  (P <= n is not needed.) *)
Theorem distributed_sort_correct fuel n P rnd :
  0 < n <= 2 ^ 30 → pow2 P → P < 2 ^ 30 → (∀ i, rnd i <= INT_MAX) →
  (62 <= fuel)%nat →
  ∃ lg out,
    main fuel (Some n) P rnd = Done (lg, out) ∧
    Sorted Z.le (take (Z.to_nat n) out) ∧
    take (Z.to_nat n) out ≡ₚ rnd <$> seq 0 (Z.to_nat n) ∧
    last lg = Some (EvResult true).
Proof.
  intros Hn HP HP30 Hrnd Hfuel.
  destruct (pow2_below P HP HP30) as (d & Hd & ->).
  pose proof (main_spec n d rnd Hn ltac:(lia) fuel ltac:(lia) Hfuel) as Hmain.
  destruct (run_out n d rnd Hn ltac:(lia)) as (Hs & Hp & Hlen).
  eexists _, _. split; [exact Hmain|].
  unfold initial_global in Hp.
  destruct (sorted_padding _ _ _ _ Hs Hp) as [Htake _].
  { apply Forall_fmap, Forall_forall. intros i _. apply Hrnd. }
  rewrite input_length in Htake. split_and!; [|done|].
  - by apply Sorted_take.
  - unfold full_log. rewrite !app_assoc.
    change [EvGather; EvResult true] with ([EvGather] ++ [EvResult true]).
    rewrite app_assoc. apply last_snoc.
Qed.

Lemma sample_rnd_bound i : 0 <= sample_rnd i < 10.
Proof. unfold sample_rnd. apply Z.mod_pos_bound. lia. Qed.

Lemma distributed_sort_correct_witness :
  ∃ lg out,
    main 62 (Some 8) 4 sample_rnd = Done (lg, out) ∧
    Sorted Z.le (take (Z.to_nat 8) out) ∧
    take (Z.to_nat 8) out ≡ₚ sample_rnd <$> seq 0 (Z.to_nat 8) ∧
    last lg = Some (EvResult true).
Proof.
  apply (distributed_sort_correct 62 8 4 sample_rnd).
  - change (2 ^ 30) with 1073741824. lia.
  - pow2_tac 2.
  - change (2 ^ 30) with 1073741824. lia.
  - intros i. pose proof (sample_rnd_bound i). unfold INT_MAX. lia.
  - lia.
Defined.

(** C1 as stated fails at the ends of the range of [int]: with
    n = 2^30 + 1 the sizer never returns, and with n = P = 2^30 the loop
    on k never ends, so no fuel makes [main] return. *)
Lemma distributed_sort_overflow_counterexample :
  (∀ fuel rnd r, main fuel (Some (2 ^ 30 + 1)) 4 rnd ≠ Done r) ∧
  (∀ fuel rnd r, main fuel (Some (2 ^ 30)) (2 ^ 30) rnd ≠ Done r).
Proof.
  split; intros fuel rnd r Hmain.
  - revert Hmain. unfold main. change (is_power_of_two 4) with true.
    cbn [negb]. unfold main_body.
    by rewrite partition_sizer_overflow.
  - destruct r as [lg res].
    apply (main_Done_inv (2 ^ 30) 30 rnd) in Hmain as [Hlt _]; [lia| | |done].
    + change (2 ^ 30) with 1073741824. lia.
    + lia.
Qed.

(** A run that goes through has sizes in range. *)
Lemma main_Done_sizes fuel n P rnd r :
  0 < n → int_range n → int_range P → main fuel (Some n) P rnd = Done r →
  n <= 2 ^ 30 ∧ ∃ d, 0 <= d <= 30 ∧ P = 2 ^ d.
Proof.
  intros Hn Hrn HrP Hmain. revert Hmain. unfold main.
  destruct (is_power_of_two P) eqn:HP; [|done]. cbn [negb].
  apply is_power_of_two_iff in HP.
  destruct (pow2_int_range P HP HrP) as (d & Hd & ->).
  intros Hmain. split; [|by exists d].
  destruct (Z.le_gt_cases n (2 ^ 30)) as [|Hgt]; [done|exfalso].
  revert Hmain. unfold main_body, requested_n.
  rewrite (proj2 (Z.leb_gt _ _)) by lia.
  by rewrite partition_sizer_overflow by (done || lia).
Qed.

(** C7: when the input values are all below the sentinel [INT_MAX], a run
    that goes through leaves the gathered array with the totalSize - n
    sentinels at the indices from n on, and none among its first n
    elements; and with n <= 2^30 and a power of two P < 2^30 the run does
    go through. *)
Theorem sentinels_at_tail n P rnd :
  0 < n → int_range n → int_range P → (∀ i, rnd i < INT_MAX) →
  (∀ fuel lg out,
     main fuel (Some n) P rnd = Done (lg, out) →
     ∃ N L,
       partition_sizer (max fuel 32) n P = Some (N, L) ∧
       Z.of_nat (length out) = N ∧ n <= N ∧
       drop (Z.to_nat n) out = replicate (Z.to_nat (N - n)) INT_MAX ∧
       Forall (λ x, x < INT_MAX) (take (Z.to_nat n) out)) ∧
  (n <= 2 ^ 30 → pow2 P → P < 2 ^ 30 → ∀ fuel, (62 <= fuel)%nat →
     ∃ lg out, main fuel (Some n) P rnd = Done (lg, out)).
Proof.
  intros Hn Hrn HrP Hrnd. split.
  - intros fuel lg out Hmain.
    destruct (main_Done_sizes fuel n P rnd _ Hn Hrn HrP Hmain)
      as (Hn30 & d & Hd & ->).
    apply (main_Done_inv n d rnd ltac:(lia) Hd) in Hmain as (Hd30 & _ & ->);
      [|done].
    destruct (run_out n d rnd ltac:(lia) Hd) as (Hs & Hp & Hlen).
    destruct (run_sizes n d ltac:(lia) Hd) as (_ & HnN & _ & _).
    eexists _, _. split; [apply partition_sizer_exp; lia|].
    unfold initial_global in Hp.
    destruct (sorted_padding _ _ _ _ Hs Hp) as [Htake Hdrop].
    { apply Forall_fmap, Forall_forall. intros i _. simpl.
      specialize (Hrnd i). lia. }
    rewrite input_length in Htake, Hdrop. split_and!; [done..|].
    rewrite Htake. apply Forall_fmap, Forall_forall. intros i _. apply Hrnd.
  - intros Hn30 HP HP30 fuel Hfuel.
    destruct (pow2_below P HP HP30) as (d & Hd & ->).
    eexists _, _. apply main_spec; (done || lia).
Qed.

Example sample_run :
  main 62 (Some 5) 4 sample_rnd =
    Done (full_log 5 8 4 2 2, [0; 1; 3; 4; 7; INT_MAX; INT_MAX; INT_MAX]).
Proof. vm_compute. reflexivity. Qed.

Lemma sentinels_at_tail_witness :
  ∃ N L,
    partition_sizer (max 62 32) 5 4 = Some (N, L) ∧
    Z.of_nat (length [0; 1; 3; 4; 7; INT_MAX; INT_MAX; INT_MAX]) = N ∧
    5 <= N ∧
    drop (Z.to_nat 5) [0; 1; 3; 4; 7; INT_MAX; INT_MAX; INT_MAX] =
      replicate (Z.to_nat (N - 5)) INT_MAX ∧
    Forall (λ x, x < INT_MAX)
      (take (Z.to_nat 5) [0; 1; 3; 4; 7; INT_MAX; INT_MAX; INT_MAX]).
Proof.
  apply (sentinels_at_tail 5 4 sample_rnd ltac:(lia) ltac:(int_range_tac)
           ltac:(int_range_tac)) with (fuel := 62%nat)
                                      (lg := full_log 5 8 4 2 2).
  - intros i. pose proof (sample_rnd_bound i). unfold INT_MAX. lia.
  - exact sample_run.
Defined.

Lemma exchange_round_lookup L k j ps ps' (r : nat) local recv :
  exchange_round L k j ps = Some ps' → ps !! r = Some local →
  sendrecv ps (partner (Z.of_nat r) j) = Some recv →
  ps' !! r = Some (merge_and_select local recv L (keep_low (Z.of_nat r) k j)).
Proof.
  intros Hround Hlocal Hrecv. unfold exchange_round in Hround.
  apply mapM_Some in Hround.
  assert (seq 0 (length ps) !! r = Some r) as Hr.
  { apply lookup_seq. split; [done|]. by eapply lookup_lt_Some. }
  destruct (Forall2_lookup_l _ _ _ _ _ Hround Hr) as (dst & Hdst & Hat).
  unfold exchange_at in Hat. rewrite Hlocal in Hat. simpl in Hat.
  rewrite Hrecv in Hat. simpl in Hat. by simplify_eq.
Qed.

(** C4: a round leaves a process with an ascending partition when its own
    partition and the one it receives from its partner are ascending; so in
    a run, where the sizer has returned, every partition is ascending after
    the local sort and after each phase of the network, and when the
    network ends (P < 2^30) it ends in the state after the last phase. *)
Theorem partitions_stay_sorted :
  (∀ L k j ps ps' (r : nat) local recv,
     exchange_round L k j ps = Some ps' → ps !! r = Some local →
     sendrecv ps (partner (Z.of_nat r) j) = Some recv →
     Sorted Z.le local → Sorted Z.le recv →
     ∃ local', ps' !! r = Some local' ∧ Sorted Z.le local') ∧
  (∀ fuel n P rnd N L,
     0 < n → int_range n → int_range P → pow2 P →
     partition_sizer fuel n P = Some (N, L) →
     let ps0 := initial_partitions rnd n N L P in
     (∀ c : nat, Z.of_nat c <= Z.log2 P →
        Forall (Sorted Z.le) (phases L 0 c ps0)) ∧
     (P < 2 ^ 30 → ∀ fuel' lg, (62 <= fuel')%nat →
        network fuel' L P (World ps0 lg) =
          Done (World (phases L 0 (Z.to_nat (Z.log2 P)) ps0)
                  (lg ++ schedule 0 (Z.to_nat (Z.log2 P)))))).
Proof.
  split.
  - intros L k j ps ps' r local recv Hround Hlocal Hrecv Hs Hs'.
    eexists. split; [by eapply exchange_round_lookup|].
    by apply merge_and_select_sorted.
  - intros fuel n P rnd N L Hn Hrn HrP HP Hsz ps0.
    destruct (pow2_int_range P HP HrP) as (d & Hd & ->).
    assert (n <= 2 ^ 30) as Hn30.
    { destruct (Z.le_gt_cases n (2 ^ 30)) as [|Hgt]; [done|exfalso].
      by rewrite partition_sizer_overflow in Hsz by (done || lia). }
    apply (partition_sizer_mono fuel (max fuel 32)) in Hsz; [|lia].
    rewrite partition_sizer_exp in Hsz by lia. injection Hsz as <- <-.
    destruct (run_partitions n d rnd ltac:(lia) Hd) as (Hlen & Hok & _).
    fold ps0 in Hlen, Hok. rewrite Z.log2_pow2 by lia. split.
    + intros c Hc.
      pose proof (phases_ok _ d c 0 ps0 ltac:(lia) Hlen Hok) as Hok'.
      eapply Forall_impl; [exact Hok'|]. by intros l [_ ?].
    + intros Hlt fuel' lg Hfuel.
      apply pow2_lt_inv in Hlt; [|lia..].
      apply network_spec; (done || lia).
Qed.

Lemma partitions_stay_sorted_witness :
  (∃ local',
     [[0; 1; 2]; [3; 4; 9]] !! 1%nat = Some local' ∧ Sorted Z.le local') ∧
  (∀ c : nat, Z.of_nat c <= Z.log2 4 →
     Forall (Sorted Z.le)
       (phases 2 0 c (initial_partitions sample_rnd 5 8 2 4))).
Proof.
  destruct partitions_stay_sorted as [Hround Hrun]. split.
  - apply (Hround 3 2 1 [[0; 2; 9]; [1; 3; 4]] [[0; 1; 2]; [3; 4; 9]]
             1%nat [1; 3; 4] [0; 2; 9]); try reflexivity;
      repeat constructor; lia.
  - apply (Hrun 40%nat 5 4 sample_rnd 8 2).
    + lia.
    + int_range_tac.
    + int_range_tac.
    + pow2_tac 2.
    + reflexivity.
Defined.

(** * Further properties of the code *)

(** ** The compare-exchange loop *)

Lemma bitonic_compare_and_swap_nil arr low k dir :
  k <= 0 → bitonic_compare_and_swap arr low k dir = arr.
Proof.
  intros Hk. unfold bitonic_compare_and_swap, seqZ.
  by replace (Z.to_nat k) with 0%nat by lia.
Qed.

(** X1: [bitonic_compare_and_swap (arr, low, k, dir)] with the segment
    [low, low + 2k) inside the array puts, for every i of [low, low + k),
    the smaller of arr[i] and arr[i + k] at i and the larger at i + k when
    [dir] is not 0, and the other way round when it is 0; it changes
    nothing outside the segment, and nothing at all when k <= 0. *)
Theorem bitonic_compare_and_swap_min_max arr low k dir :
  let arr' := bitonic_compare_and_swap arr low k dir in
  (k <= 0 → arr' = arr) ∧
  (0 <= low → 0 < k → low + 2 * k <= Z.of_nat (length arr) →
   length arr' = length arr ∧
   (∀ i, low <= i < low + k →
      get arr' i =
        (if dir =? 0 then Z.max (get arr i) (get arr (i + k))
         else Z.min (get arr i) (get arr (i + k))) ∧
      get arr' (i + k) =
        (if dir =? 0 then Z.min (get arr i) (get arr (i + k))
         else Z.max (get arr i) (get arr (i + k)))) ∧
   (∀ x, 0 <= x → x < low ∨ low + 2 * k <= x → get arr' x = get arr x)).
Proof.
  intros arr'. split; [apply bitonic_compare_and_swap_nil|].
  intros Hlow Hk Hlen.
  pose proof (bitonic_compare_and_swap_permutes arr low k dir Hlow Hlen) as Hp.
  fold arr' in Hp. split_and!.
  - by apply (permutes_within_length low (2 * k)).
  - intros i Hi. by apply bitonic_compare_and_swap_spec.
  - intros x Hx Hout. by apply (permutes_within_get low (2 * k)).
Qed.

Lemma bitonic_compare_and_swap_min_max_witness :
  let arr := [7; 4; 1; 9; 2; 8] in
  let arr' := bitonic_compare_and_swap arr 1 2 1 in
  length arr' = length arr ∧
  (∀ i, 1 <= i < 1 + 2 →
     get arr' i =
       (if 1 =? 0 then Z.max (get arr i) (get arr (i + 2))
        else Z.min (get arr i) (get arr (i + 2))) ∧
     get arr' (i + 2) =
       (if 1 =? 0 then Z.min (get arr i) (get arr (i + 2))
        else Z.max (get arr i) (get arr (i + 2)))) ∧
  (∀ x, 0 <= x → x < 1 ∨ 1 + 2 * 2 <= x → get arr' x = get arr x).
Proof.
  apply (bitonic_compare_and_swap_min_max [7; 4; 1; 9; 2; 8] 1 2 1);
    simpl; lia.
Defined.

(** ** The local sort on segments of any power-of-two length *)

Lemma pow2_nat cnt : pow2 cnt → ∃ e : nat, cnt = 2 ^ Z.of_nat e.
Proof. intros (e & He & ->). exists (Z.to_nat e). by rewrite Z2Nat.id. Qed.

Lemma halves_bitonic dir t arr low k :
  segment_sorted 1 arr low k → segment_sorted 0 arr (low + k) k →
  bitonic01 (first_at dir t arr) (second_at dir t arr) low (low + 2 * k).
Proof.
  intros Hlo Hhi.
  assert (bitonic01 (first_at 1 t arr) (second_at 1 t arr)
            low (low + 2 * k)) as Hbit.
  { apply (bitonic01_of_halves _ _ _ (low + k)).
    - by apply segment_sorted_ordered.
    - replace (low + 2 * k) with (low + k + k) by lia.
      by apply (segment_sorted_ordered 0 t). }
  unfold first_at, second_at in *. simpl in Hbit.
  destruct (dir =? 0); [by apply bitonic01_sym|done].
Qed.

Lemma bitonic_merge_recursive_halves (e : nat) arr low dir :
  0 <= low → low + 2 ^ Z.of_nat e <= Z.of_nat (length arr) →
  let k := Z.quot (2 ^ Z.of_nat e) 2 in
  segment_sorted 1 arr low k → segment_sorted 0 arr (low + k) k →
  segment_sorted dir (bitonic_merge_recursive arr low (2 ^ Z.of_nat e) dir)
    low (2 ^ Z.of_nat e).
Proof.
  intros Hlow Hlen k Hlo Hhi. apply ordered_segment_sorted. intros t.
  apply bitonic_merge_ordered; [done..|].
  destruct e as [|e].
  - split; intros i1 i2 i3 i4 ?????; change (2 ^ Z.of_nat 0) with 1 in *; lia.
  - subst k. rewrite quot_pow2_succ in Hlo, Hhi.
    replace (2 ^ Z.of_nat (S e)) with (2 * 2 ^ Z.of_nat e).
    + by apply halves_bitonic.
    + replace (Z.of_nat (S e)) with (Z.of_nat e + 1) by lia.
      symmetry. apply pow2_succ. lia.
Qed.

(** X2: [bitonic_merge_recursive (arr, low, cnt, dir)], for cnt a power of
    two and the segment [low, low + cnt) inside the array, turns a segment
    whose first half is ascending and whose second half is descending into
    a segment in the order [dir] (descending for 0, ascending otherwise)
    with the same elements, and leaves the rest of the array alone. *)
Theorem bitonic_merge_recursive_sorts arr low cnt dir :
  pow2 cnt → 0 <= low → low + cnt <= Z.of_nat (length arr) →
  segment_sorted 1 arr low (Z.quot cnt 2) →
  segment_sorted 0 arr (low + Z.quot cnt 2) (Z.quot cnt 2) →
  let arr' := bitonic_merge_recursive arr low cnt dir in
  segment_sorted dir arr' low cnt ∧ permutes_within low cnt arr arr'.
Proof.
  intros Hp Hlow Hlen Hlo Hhi arr'. split.
  - destruct (pow2_nat cnt Hp) as (e & ->).
    by apply bitonic_merge_recursive_halves.
  - by apply bitonic_merge_recursive_permutes.
Qed.

Lemma bitonic_merge_recursive_sorts_witness :
  let arr := [5; 1; 4; 6; 9; 7; 3; 2; 0] in
  let arr' := bitonic_merge_recursive arr 1 8 0 in
  segment_sorted 0 arr' 1 8 ∧ permutes_within 1 8 arr arr'.
Proof.
  apply (bitonic_merge_recursive_sorts [5; 1; 4; 6; 9; 7; 3; 2; 0] 1 8 0).
  - pow2_tac 3.
  - lia.
  - simpl. lia.
  - intros r s Hr Hrs Hs. change (Z.quot 8 2) with 4 in Hs.
    assert (r = 1 ∨ r = 2 ∨ r = 3) as Hr' by lia.
    assert (s = 2 ∨ s = 3 ∨ s = 4) as Hs' by lia.
    destruct Hr' as [->|[->| ->]], Hs' as [->|[->| ->]]; (done || lia).
  - intros r s Hr Hrs Hs. change (Z.quot 8 2) with 4 in *.
    assert (r = 5 ∨ r = 6 ∨ r = 7) as Hr' by lia.
    assert (s = 6 ∨ s = 7 ∨ s = 8) as Hs' by lia.
    destruct Hr' as [->|[->| ->]], Hs' as [->|[->| ->]]; (done || lia).
Defined.

(** X3: [bitonic_sort_recursive (arr, low, cnt, dir)], for cnt a power of
    two and the segment [low, low + cnt) inside the array, leaves the
    segment in descending order when [dir] is 0 and in ascending order
    otherwise. *)
Theorem bitonic_sort_recursive_sorts arr low cnt dir :
  pow2 cnt → 0 <= low → low + cnt <= Z.of_nat (length arr) →
  let arr' := bitonic_sort_recursive arr low cnt dir in
  ∀ r s, low <= r → r < s → s < low + cnt →
    if dir =? 0 then get arr' s <= get arr' r else get arr' r <= get arr' s.
Proof.
  intros Hp Hlow Hlen arr'. destruct (pow2_nat cnt Hp) as (e & ->).
  by apply bitonic_sort_recursive_sorted.
Qed.

Lemma bitonic_sort_recursive_sorts_witness :
  let arr' := bitonic_sort_recursive [9; 5; 3; 8; 1; 7; 0] 2 4 0 in
  if 0 =? 0 then get arr' 5 <= get arr' 2 else get arr' 2 <= get arr' 5.
Proof.
  apply (bitonic_sort_recursive_sorts [9; 5; 3; 8; 1; 7; 0] 2 4 0).
  - pow2_tac 2.
  - lia.
  - simpl. lia.
  - lia.
  - lia.
  - lia.
Defined.

(** ** The local sort on segments of odd length *)

Lemma permutes_within_sym low cnt arr arr' :
  permutes_within low cnt arr arr' → permutes_within low cnt arr' arr.
Proof. intros [Hp Hf]. split; [done|]. intros i Hi. by rewrite Hf. Qed.

(** The calls below [bitonic_sort_recursive (arr, low, cnt, dir)] stay inside
    the first [2 * (cnt / 2)] elements of the segment. *)
Lemma bitonic_sort_recursive_touches arr low cnt dir :
  0 <= low → low + cnt <= Z.of_nat (length arr) → 1 < cnt →
  permutes_within low (2 * Z.quot cnt 2) arr
    (bitonic_sort_recursive arr low cnt dir).
Proof.
  intros Hlow Hlen Hcnt. destruct (half_bound cnt Hcnt) as [Hk Hk2].
  rewrite bitonic_sort_recursive_unfold, (proj2 (Z.leb_gt _ _)) by lia.
  rewrite bitonic_merge_recursive_unfold, (proj2 (Z.leb_gt _ _)) by lia.
  cbv zeta. set (k := Z.quot cnt 2) in *.
  pose proof (bitonic_sort_fuel_permutes (Z.to_nat k) arr low k 1 Hlow
                ltac:(lia)) as Hp1.
  fold (bitonic_sort_recursive arr low k 1) in Hp1.
  set (arr1 := bitonic_sort_recursive arr low k 1) in *.
  pose proof (permutes_within_length _ _ _ _ Hp1) as Hl1.
  pose proof (bitonic_sort_fuel_permutes (Z.to_nat k) arr1 (low + k) k 0
                ltac:(lia) ltac:(lia)) as Hp2.
  fold (bitonic_sort_recursive arr1 (low + k) k 0) in Hp2.
  set (arr2 := bitonic_sort_recursive arr1 (low + k) k 0) in *.
  pose proof (permutes_within_length _ _ _ _ Hp2) as Hl2.
  pose proof (bitonic_compare_and_swap_permutes arr2 low k dir Hlow
                ltac:(lia)) as Hp3.
  set (arr3 := bitonic_compare_and_swap arr2 low k dir) in *.
  pose proof (permutes_within_length _ _ _ _ Hp3) as Hl3.
  pose proof (bitonic_merge_recursive_permutes arr3 low k dir Hlow
                ltac:(lia)) as Hp4.
  set (arr4 := bitonic_merge_recursive arr3 low k dir) in *.
  pose proof (permutes_within_length _ _ _ _ Hp4) as Hl4.
  pose proof (bitonic_merge_recursive_permutes arr4 (low + k) k dir
                ltac:(lia) ltac:(lia)) as Hp5.
  eapply permutes_within_trans;
    [eapply (permutes_within_mono _ _ low k); [| |exact Hp1]; lia|].
  eapply permutes_within_trans;
    [eapply (permutes_within_mono _ _ (low + k) k); [| |exact Hp2]; lia|].
  eapply permutes_within_trans; [exact Hp3|].
  eapply permutes_within_trans;
    [eapply (permutes_within_mono _ _ low k); [| |exact Hp4]; lia|].
  eapply (permutes_within_mono _ _ (low + k) k); [| |exact Hp5]; lia.
Qed.

Lemma odd_half cnt : 0 < cnt → Z.odd cnt = true → cnt = 2 * Z.quot cnt 2 + 1.
Proof.
  intros Hcnt Hodd. rewrite Z.quot_div_nonneg by lia.
  pose proof (Zmod_odd cnt) as Hmod. rewrite Hodd in Hmod.
  pose proof (Z.div_mod cnt 2 ltac:(lia)). lia.
Qed.

(** X4: for an odd cnt > 1, [bitonic_sort_recursive (arr, low, cnt, dir)]
    never moves the last element of the segment [low, low + cnt): it is
    after the call what it was before; so, whatever [dir], the segment is
    not in ascending order after the call when that element is smaller
    than another element of the segment, and not in descending order when
    it is larger than another one. *)
Theorem bitonic_sort_recursive_odd arr low cnt dir :
  0 <= low → low + cnt <= Z.of_nat (length arr) → 1 < cnt →
  Z.odd cnt = true →
  let arr' := bitonic_sort_recursive arr low cnt dir in
  get arr' (low + cnt - 1) = get arr (low + cnt - 1) ∧
  ((∃ x, low <= x < low + cnt - 1 ∧ get arr (low + cnt - 1) < get arr x) →
   ¬ ∀ r s, low <= r → r < s → s < low + cnt → get arr' r <= get arr' s) ∧
  ((∃ x, low <= x < low + cnt - 1 ∧ get arr x < get arr (low + cnt - 1)) →
   ¬ ∀ r s, low <= r → r < s → s < low + cnt → get arr' s <= get arr' r).
Proof.
  intros Hlow Hlen Hcnt Hodd arr'.
  pose proof (odd_half cnt ltac:(lia) Hodd) as Hhalf.
  pose proof (bitonic_sort_recursive_touches arr low cnt dir Hlow Hlen Hcnt)
    as Hp.
  fold arr' in Hp. pose proof (permutes_within_length _ _ _ _ Hp) as Hl.
  assert (get arr' (low + cnt - 1) = get arr (low + cnt - 1)) as Hlast.
  { apply (permutes_within_get _ _ _ _ _ Hp); lia. }
  assert (∀ x, low <= x < low + cnt - 1 →
            ∃ x', low <= x' < low + cnt - 1 ∧ get arr' x' = get arr x)
    as Hfrom.
  { intros x Hx.
    destruct (permutes_within_from low (2 * Z.quot cnt 2) arr' arr x)
      as (x' & Hx' & Hget); [by apply permutes_within_sym|lia..|].
    exists x'. split; [lia|done]. }
  split_and!; [done|..]; intros (x & Hx & Hlt) Hsorted;
    destruct (Hfrom x Hx) as (x' & Hx' & Hget);
    specialize (Hsorted x' (low + cnt - 1) ltac:(lia) ltac:(lia) ltac:(lia));
    lia.
Qed.

Lemma bitonic_sort_recursive_odd_witness :
  let arr := [4; 2; 6; 1; 3] in
  let arr' := bitonic_sort_recursive arr 0 5 1 in
  get arr' (0 + 5 - 1) = get arr (0 + 5 - 1) ∧
  ((∃ x, 0 <= x < 0 + 5 - 1 ∧ get arr (0 + 5 - 1) < get arr x) →
   ¬ ∀ r s, 0 <= r → r < s → s < 0 + 5 → get arr' r <= get arr' s) ∧
  ((∃ x, 0 <= x < 0 + 5 - 1 ∧ get arr x < get arr (0 + 5 - 1)) →
   ¬ ∀ r s, 0 <= r → r < s → s < 0 + 5 → get arr' s <= get arr' r).
Proof.
  apply (bitonic_sort_recursive_odd [4; 2; 6; 1; 3] 0 5 1).
  - lia.
  - simpl. lia.
  - lia.
  - reflexivity.
Defined.

(** ** [next_power_of_two] on every [int] *)

(** X5: [next_power_of_two (n)] returns 1 for n <= 0; for 0 < n <= 2^30 it
    returns the power of two p with n <= p < 2n; for an [int] n > 2^30 its
    loop shifts p past the sign bit to 0 and never ends. *)
Theorem next_power_of_two_total n :
  int_range n →
  (n <= 0 → ∀ fuel, next_power_of_two fuel n = Some 1) ∧
  (0 < n <= 2 ^ 30 → ∀ fuel, (32 <= fuel)%nat →
     ∃ p, next_power_of_two fuel n = Some p ∧ pow2 p ∧ n <= p < 2 * n) ∧
  (2 ^ 30 < n → ∀ fuel, next_power_of_two fuel n = None).
Proof.
  intros Hr. split_and!.
  - intros Hn fuel. unfold next_power_of_two.
    by rewrite (proj2 (Z.leb_le _ _)).
  - intros Hn fuel Hfuel. exists (2 ^ Z.log2_up n).
    pose proof (Z.log2_up_nonneg n) as Hc.
    split_and!.
    + by apply next_power_of_two_spec.
    + by exists (Z.log2_up n).
    + apply Z.log2_up_le_pow2; lia.
    + destruct (decide (n = 1)) as [->|Hn1]; [done|].
      destruct (Z.log2_up_spec n ltac:(lia)) as [Hlt _].
      assert (0 < Z.log2_up n) by (apply Z.log2_up_pos; lia).
      replace (Z.log2_up n) with (Z.pred (Z.log2_up n) + 1) by lia.
      rewrite pow2_succ by lia. lia.
  - intros Hn fuel. unfold next_power_of_two.
    rewrite (proj2 (Z.leb_gt _ _)) by lia. change 1 with (2 ^ 0).
    by apply (next_power_of_two_loop_overflow n 30 0 fuel).
Qed.

Lemma next_power_of_two_total_witness :
  (∀ fuel, next_power_of_two fuel (-3) = Some 1) ∧
  (∀ fuel, (32 <= fuel)%nat →
     ∃ p, next_power_of_two fuel 5 = Some p ∧ pow2 p ∧ 5 <= p < 2 * 5) ∧
  (∀ fuel, next_power_of_two fuel INT_MAX = None).
Proof.
  split_and!.
  - apply (next_power_of_two_total (-3)); [int_range_tac|lia].
  - apply (next_power_of_two_total 5); [int_range_tac|].
    change (2 ^ 30) with 1073741824. lia.
  - apply (next_power_of_two_total INT_MAX); [int_range_tac|].
    change (2 ^ 30) with 1073741824. unfold INT_MAX. lia.
Defined.

(** ** The ways [main] ends *)




Lemma requested_n_pos arg : 0 < requested_n arg.
Proof.
  unfold requested_n. destruct arg as [v|]; [|lia].
  destruct (Z.leb_spec v 0); lia.
Qed.



(** ** The functions shared by the other programs *)

Lemma serial_compare_exchange_at k dir arr i :
  Serial.compare_exchange_at k dir arr i =
    compare_and_swap_at k (if dir =? 1 then 1 else 0) arr i.
Proof.
  unfold Serial.compare_exchange_at, compare_and_swap_at.
  by destruct (dir =? 1).
Qed.

Lemma serial_compare_exchange_fold k dir idx : ∀ arr,
  foldl (Serial.compare_exchange_at k dir) arr idx =
    foldl (compare_and_swap_at k (if dir =? 1 then 1 else 0)) arr idx.
Proof.
  induction idx as [|i idx IH]; intros arr; [done|]. simpl.
  by rewrite serial_compare_exchange_at, IH.
Qed.

Lemma serial_bitonic_merge_fuel fuel : ∀ arr low cnt dir,
  Serial.bitonic_merge_fuel fuel arr low cnt dir =
    bitonic_merge_fuel fuel arr low cnt (if dir =? 1 then 1 else 0).
Proof.
  induction fuel as [|fuel IH]; intros arr low cnt dir; [done|]. simpl.
  rewrite Z.ltb_antisym. destruct (cnt <=? 1); [done|]. simpl.
  rewrite !IH. unfold bitonic_compare_and_swap.
  by rewrite serial_compare_exchange_fold.
Qed.

Lemma serial_bitonic_merge arr low cnt dir :
  Serial.bitonic_merge arr low cnt dir =
    bitonic_merge_recursive arr low cnt (if dir =? 1 then 1 else 0).
Proof. apply serial_bitonic_merge_fuel. Qed.

Lemma serial_bitonic_sort_fuel fuel : ∀ arr low cnt dir,
  Serial.bitonic_sort_fuel fuel arr low cnt dir =
    bitonic_sort_fuel fuel arr low cnt (if dir =? 1 then 1 else 0).
Proof.
  induction fuel as [|fuel IH]; intros arr low cnt dir; [done|]. simpl.
  rewrite Z.ltb_antisym. destruct (cnt <=? 1); [done|]. simpl.
  by rewrite !IH, serial_bitonic_merge.
Qed.

Lemma serial_bitonic_sort_recursive arr low cnt dir :
  Serial.bitonic_sort_recursive arr low cnt dir =
    bitonic_sort_recursive arr low cnt (if dir =? 1 then 1 else 0).
Proof. apply serial_bitonic_sort_fuel. Qed.

Lemma serial_next_power_of_two fuel n :
  (1 <= fuel)%nat →
  Serial.next_power_of_two fuel n = next_power_of_two fuel n.
Proof.
  intros Hfuel. unfold Serial.next_power_of_two, next_power_of_two.
  destruct (Z.leb_spec n 1) as [Hn1|Hn1], (Z.leb_spec n 0) as [Hn0|Hn0];
    [done| |lia|done].
  destruct fuel as [|fuel]; [lia|]. simpl.
  by rewrite (proj2 (Z.ltb_ge _ _)) by lia.
Qed.

Lemma compare_and_swap_fold_dir k dir idx : ∀ arr,
  dir ≠ 0 →
  foldl (compare_and_swap_at k dir) arr idx =
    foldl (compare_and_swap_at k 1) arr idx.
Proof.
  intros arr Hdir. revert arr.
  induction idx as [|i idx IH]; intros arr; [done|]. simpl.
  rewrite IH. f_equal. unfold compare_and_swap_at.
  by rewrite (proj2 (Z.eqb_neq dir 0)) by done.
Qed.

Lemma bitonic_merge_fuel_dir fuel : ∀ arr low cnt dir,
  dir ≠ 0 →
  bitonic_merge_fuel fuel arr low cnt dir =
    bitonic_merge_fuel fuel arr low cnt 1.
Proof.
  induction fuel as [|fuel IH]; intros arr low cnt dir Hdir; [done|]. simpl.
  destruct (cnt <=? 1); [done|]. rewrite !(IH _ _ _ dir) by done.
  unfold bitonic_compare_and_swap.
  by rewrite (compare_and_swap_fold_dir _ dir) by done.
Qed.

(** X7: [bitonic_merge] and [bitonic_sort_recursive] of bitonic.c,
    Extra/bitonicMPI.c and the OpenMP programs (run in program order)
    compute what [bitonic_merge_recursive] and [bitonic_sort_recursive] of
    MPI/bitonicMPI_fixed.c compute when [dir] is 0 or 1; for any other
    [dir] they order the segment as for 0 (descending), where those of
    bitonicMPI_fixed.c order it as for 1 (ascending). *)
Theorem serial_functions_agree arr low cnt dir :
  (dir = 0 ∨ dir = 1 →
   Serial.bitonic_merge arr low cnt dir =
     bitonic_merge_recursive arr low cnt dir ∧
   Serial.bitonic_sort_recursive arr low cnt dir =
     bitonic_sort_recursive arr low cnt dir) ∧
  (dir ≠ 1 →
   Serial.bitonic_merge arr low cnt dir = Serial.bitonic_merge arr low cnt 0 ∧
   Serial.bitonic_sort_recursive arr low cnt dir =
     Serial.bitonic_sort_recursive arr low cnt 0) ∧
  (dir ≠ 0 →
   bitonic_merge_recursive arr low cnt dir =
     bitonic_merge_recursive arr low cnt 1 ∧
   bitonic_sort_recursive arr low cnt dir =
     bitonic_sort_recursive arr low cnt 1).
Proof.
  split_and!.
  - intros [-> | ->];
      by rewrite serial_bitonic_merge, serial_bitonic_sort_recursive.
  - intros Hdir.
    rewrite !serial_bitonic_merge, !serial_bitonic_sort_recursive.
    by rewrite (proj2 (Z.eqb_neq dir 1)) by done.
  - intros Hdir. split.
    + apply bitonic_merge_fuel_dir, Hdir.
    + unfold bitonic_sort_recursive. destruct (Z.to_nat cnt) as [|fuel]; [done|].
      simpl. destruct (cnt <=? 1); [done|].
      apply bitonic_merge_fuel_dir, Hdir.
Qed.

Lemma serial_functions_agree_witness :
  (Serial.bitonic_merge [3; 1; 2; 0] 0 4 1 =
     bitonic_merge_recursive [3; 1; 2; 0] 0 4 1 ∧
   Serial.bitonic_sort_recursive [3; 1; 2; 0] 0 4 1 =
     bitonic_sort_recursive [3; 1; 2; 0] 0 4 1) ∧
  (Serial.bitonic_merge [3; 1; 2; 0] 0 4 2 =
     Serial.bitonic_merge [3; 1; 2; 0] 0 4 0 ∧
   Serial.bitonic_sort_recursive [3; 1; 2; 0] 0 4 2 =
     Serial.bitonic_sort_recursive [3; 1; 2; 0] 0 4 0) ∧
  (bitonic_merge_recursive [3; 1; 2; 0] 0 4 2 =
     bitonic_merge_recursive [3; 1; 2; 0] 0 4 1 ∧
   bitonic_sort_recursive [3; 1; 2; 0] 0 4 2 =
     bitonic_sort_recursive [3; 1; 2; 0] 0 4 1).
Proof.
  split; [|split].
  - apply (proj1 (serial_functions_agree [3; 1; 2; 0] 0 4 1)). by right.
  - apply (proj1 (proj2 (serial_functions_agree [3; 1; 2; 0] 0 4 2))). lia.
  - apply (proj2 (proj2 (serial_functions_agree [3; 1; 2; 0] 0 4 2))). lia.
Defined.

(** X8: [next_power_of_two] of bitonic.c, Extra/bitonicMPI.c and the OpenMP
    programs returns 1 for n <= 1; for 1 < n <= 2^30 it returns the power
    of two p with n <= p < 2n; for an [int] n > 2^30 its loop never ends;
    and whenever the loop of either is given a step it returns what
    [next_power_of_two] of MPI/bitonicMPI_fixed.c returns. *)
Theorem serial_next_power_of_two_total n :
  int_range n →
  (n <= 1 → ∀ fuel, Serial.next_power_of_two fuel n = Some 1) ∧
  (1 < n <= 2 ^ 30 → ∀ fuel, (32 <= fuel)%nat →
     ∃ p, Serial.next_power_of_two fuel n = Some p ∧ pow2 p ∧
          n <= p < 2 * n) ∧
  (2 ^ 30 < n → ∀ fuel, Serial.next_power_of_two fuel n = None) ∧
  (∀ fuel, (1 <= fuel)%nat →
     Serial.next_power_of_two fuel n = next_power_of_two fuel n).
Proof.
  intros Hr. split_and!.
  - intros Hn fuel. unfold Serial.next_power_of_two.
    by rewrite (proj2 (Z.leb_le _ _)).
  - intros Hn fuel Hfuel. exists (2 ^ Z.log2_up n).
    pose proof (Z.log2_up_nonneg n) as Hc.
    rewrite serial_next_power_of_two by lia. split_and!.
    + apply next_power_of_two_spec; (done || lia).
    + by exists (Z.log2_up n).
    + apply Z.log2_up_le_pow2; lia.
    + destruct (Z.log2_up_spec n ltac:(lia)) as [Hlt _].
      assert (0 < Z.log2_up n) by (apply Z.log2_up_pos; lia).
      replace (Z.log2_up n) with (Z.pred (Z.log2_up n) + 1) by lia.
      rewrite pow2_succ by lia. lia.
  - intros Hn fuel. unfold Serial.next_power_of_two.
    rewrite (proj2 (Z.leb_gt _ _)) by lia. change 1 with (2 ^ 0).
    by apply (next_power_of_two_loop_overflow n 30 0 fuel).
  - intros fuel Hfuel. by apply serial_next_power_of_two.
Qed.

Lemma serial_next_power_of_two_total_witness :
  (∀ fuel, Serial.next_power_of_two fuel 1 = Some 1) ∧
  (∀ fuel, (32 <= fuel)%nat →
     ∃ p, Serial.next_power_of_two fuel 1000 = Some p ∧ pow2 p ∧
          1000 <= p < 2 * 1000) ∧
  (∀ fuel, Serial.next_power_of_two fuel (2 ^ 30 + 1) = None).
Proof.
  split_and!.
  - apply (serial_next_power_of_two_total 1); [int_range_tac|lia].
  - apply (serial_next_power_of_two_total 1000); [int_range_tac|].
    change (2 ^ 30) with 1073741824. lia.
  - apply (serial_next_power_of_two_total (2 ^ 30 + 1)); [|lia].
    change (2 ^ 30 + 1) with 1073741825. int_range_tac.
Defined.

Lemma serial_sort_permutes arr low cnt dir :
  0 <= low → low + cnt <= Z.of_nat (length arr) →
  permutes_within low cnt arr (Serial.bitonic_sort_recursive arr low cnt dir).
Proof.
  intros Hlow Hlen. rewrite serial_bitonic_sort_recursive.
  by apply bitonic_sort_fuel_permutes.
Qed.

(** X9: [bitonic_sort_recursive (arr, low, cnt, dir)] of bitonic.c,
    Extra/bitonicMPI.c and the OpenMP programs (run in program order), for
    cnt a power of two and the segment [low, low + cnt) inside the array,
    leaves the segment in ascending order when [dir] is 1 and in
    descending order otherwise, with the elements it had, and leaves the
    rest of the array alone. *)
Theorem serial_bitonic_sort_recursive_sorts arr low cnt dir :
  pow2 cnt → 0 <= low → low + cnt <= Z.of_nat (length arr) →
  let arr' := Serial.bitonic_sort_recursive arr low cnt dir in
  permutes_within low cnt arr arr' ∧
  ∀ r s, low <= r → r < s → s < low + cnt →
    if dir =? 1 then get arr' r <= get arr' s else get arr' s <= get arr' r.
Proof.
  intros Hp Hlow Hlen arr'. split; [by apply serial_sort_permutes|].
  subst arr'. rewrite serial_bitonic_sort_recursive.
  destruct (pow2_nat cnt Hp) as (e & ->). intros r s Hr Hrs Hs.
  pose proof (bitonic_sort_recursive_sorted e arr low
                (if dir =? 1 then 1 else 0) Hlow Hlen r s Hr Hrs Hs) as Hsorted.
  by destruct (dir =? 1).
Qed.

Lemma serial_bitonic_sort_recursive_sorts_witness :
  let arr := [9; 5; 3; 8; 1; 7; 0] in
  let arr' := Serial.bitonic_sort_recursive arr 1 4 2 in
  permutes_within 1 4 arr arr' ∧
  ∀ r s, 1 <= r → r < s → s < 1 + 4 →
    if 2 =? 1 then get arr' r <= get arr' s else get arr' s <= get arr' r.
Proof.
  apply (serial_bitonic_sort_recursive_sorts [9; 5; 3; 8; 1; 7; 0] 1 4 2).
  - pow2_tac 2.
  - lia.
  - simpl. lia.
Defined.

(** ** The serial program *)

Lemma serial_sort_correct arr e :
  0 <= e → Z.of_nat (length arr) = 2 ^ e →
  let sorted := Serial.bitonic_sort_recursive arr 0 (2 ^ e) 1 in
  Z.of_nat (length sorted) = 2 ^ e ∧ Sorted Z.le sorted ∧ sorted ≡ₚ arr.
Proof.
  intros He Hlen. rewrite serial_bitonic_sort_recursive.
  by apply local_sort_correct.
Qed.

Lemma take_initial_global rnd n N :
  take (Z.to_nat n) (initial_global rnd n N) = rnd <$> seq 0 (Z.to_nat n).
Proof.
  unfold initial_global. apply take_app_length'. by rewrite input_length.
Qed.

(** The first n elements of the sorted padded array are the n input
    values in ascending order. *)
Lemma sorted_prefix rnd n N (sorted : list Z) :
  (∀ i, rnd i <= INT_MAX) →
  Sorted Z.le sorted → sorted ≡ₚ initial_global rnd n N →
  Sorted Z.le (take (Z.to_nat n) sorted) ∧
  take (Z.to_nat n) sorted ≡ₚ rnd <$> seq 0 (Z.to_nat n).
Proof.
  intros Hrnd Hs Hp. split; [by apply Sorted_take|].
  unfold initial_global in Hp.
  destruct (sorted_padding _ _ _ _ Hs Hp) as [Htake _].
  { apply Forall_fmap, Forall_forall. intros i _. apply Hrnd. }
  by rewrite input_length in Htake.
Qed.

(** X10: [main] of bitonic.c returns 1 when there is no input line and
    when the number read is not positive; takes n = 16 when the line holds
    no number; for 0 < n <= 2^30 it prints the n input values and then the
    same n values in ascending order; for an [int] n > 2^30 it never gets
    to the allocation. *)
Theorem serial_main_correct fuel rnd :
  (32 <= fuel)%nat → (∀ i, rnd i <= INT_MAX) →
  Serial.main fuel Serial.NoLine rnd = Some Serial.ExitNoInput ∧
  Serial.main fuel Serial.NoNumber rnd =
    Serial.main fuel (Serial.Number 16) rnd ∧
  (∀ n, n <= 0 →
     Serial.main fuel (Serial.Number n) rnd = Some Serial.ExitNotPositive) ∧
  (∀ n, 0 < n <= 2 ^ 30 →
     ∃ sorted,
       Serial.main fuel (Serial.Number n) rnd =
         Some (Serial.Printed (rnd <$> seq 0 (Z.to_nat n)) sorted) ∧
       Sorted Z.le sorted ∧ sorted ≡ₚ rnd <$> seq 0 (Z.to_nat n)) ∧
  (∀ n, 2 ^ 30 < n → int_range n →
     Serial.main fuel (Serial.Number n) rnd = None).
Proof.
  intros Hfuel Hrnd. split_and!; [done|done|..].
  - intros n Hn. unfold Serial.main. by rewrite (proj2 (Z.leb_le _ _)).
  - intros n Hn. unfold Serial.main.
    rewrite (proj2 (Z.leb_gt _ _)) by lia.
    rewrite serial_next_power_of_two by lia.
    rewrite next_power_of_two_spec by done. cbn [mbind option_bind].
    pose proof (Z.log2_up_nonneg n) as Hc.
    assert (n <= 2 ^ Z.log2_up n) as HnN by (apply Z.log2_up_le_pow2; lia).
    set (N := 2 ^ Z.log2_up n) in *.
    pose proof (initial_global_length rnd n N ltac:(lia)) as Hlen.
    destruct (serial_sort_correct (initial_global rnd n N) (Z.log2_up n) Hc
                Hlen) as (_ & Hs & Hp).
    fold N in Hs, Hp. rewrite take_initial_global.
    eexists. split; [done|]. by apply (sorted_prefix rnd n N).
  - intros n Hn Hr. unfold Serial.main, Serial.next_power_of_two.
    rewrite !(proj2 (Z.leb_gt _ _)) by lia. change 1 with (2 ^ 0).
    by rewrite (next_power_of_two_loop_overflow n 30 0 fuel).
Qed.

Lemma serial_main_correct_witness :
  Serial.main 32 Serial.NoLine sample_rnd = Some Serial.ExitNoInput ∧
  Serial.main 32 Serial.NoNumber sample_rnd =
    Serial.main 32 (Serial.Number 16) sample_rnd ∧
  (∀ n, n <= 0 →
     Serial.main 32 (Serial.Number n) sample_rnd =
       Some Serial.ExitNotPositive) ∧
  (∀ n, 0 < n <= 2 ^ 30 →
     ∃ sorted,
       Serial.main 32 (Serial.Number n) sample_rnd =
         Some (Serial.Printed (sample_rnd <$> seq 0 (Z.to_nat n)) sorted) ∧
       Sorted Z.le sorted ∧ sorted ≡ₚ sample_rnd <$> seq 0 (Z.to_nat n)) ∧
  (∀ n, 2 ^ 30 < n → int_range n →
     Serial.main 32 (Serial.Number n) sample_rnd = None).
Proof.
  apply (serial_main_correct 32 sample_rnd).
  - lia.
  - intros i. pose proof (sample_rnd_bound i). unfold INT_MAX. lia.
Defined.

(** ** The parallel regions of the OpenMP programs

    Extra/bitonicOmp.c, Parallel/bitonicOmp.c and OpenMP/bitonicOmp02.c run
    the iterations of the compare-exchange loop of [bitonic_merge] under
    [#pragma omp parallel for], and the two recursive calls of
    [bitonic_sort_recursive] (bitonicOmp02.c: also those of
    [bitonic_merge]) as sections or tasks. *)

Lemma list_eq_get (a b : list Z) :
  length a = length b →
  (∀ x, 0 <= x < Z.of_nat (length a) → get a x = get b x) → a = b.
Proof.
  intros Hl Hg. apply (list_eq_same_length _ _ (length a)); [done..|].
  intros i x y Hi Ha Hb. specialize (Hg (Z.of_nat i) ltac:(lia)).
  unfold get in Hg. rewrite Nat2Z.id in Hg.
  by rewrite (list_lookup_total_correct _ _ _ Ha),
    (list_lookup_total_correct _ _ _ Hb) in Hg.
Qed.

Lemma compare_and_swap_fold_permutes low k dir idx : ∀ arr,
  0 <= low → low + 2 * k <= Z.of_nat (length arr) →
  Forall (λ i, low <= i < low + k) idx →
  permutes_within low (2 * k) arr (foldl (compare_and_swap_at k dir) arr idx).
Proof.
  intros arr Hlow Hlen Hidx. revert arr Hlen.
  induction Hidx as [|i idx Hi _ IH]; intros arr Hlen.
  - apply permutes_within_refl.
  - simpl.
    pose proof (compare_and_swap_at_permutes low k dir arr i Hi Hlow Hlen)
      as Hstep.
    eapply permutes_within_trans; [exact Hstep|]. apply IH.
    by rewrite (permutes_within_length _ _ _ _ Hstep).
Qed.

(** The iterations of the loop of [bitonic_compare_and_swap] in any
    order. *)
Lemma compare_and_swap_fold_order low k dir order arr :
  0 <= low → 0 < k → low + 2 * k <= Z.of_nat (length arr) →
  order ≡ₚ seqZ low k →
  foldl (compare_and_swap_at k dir) arr order =
    bitonic_compare_and_swap arr low k dir.
Proof.
  intros Hlow Hk Hlen Hord.
  assert (NoDup order) as Hnd by (rewrite Hord; apply NoDup_seqZ).
  assert (∀ i, i ∈ order ↔ low <= i < low + k) as Hin.
  { intros i. rewrite Hord, elem_of_seqZ. lia. }
  assert (Forall (λ i, low <= i < low + k) order) as Hall.
  { apply Forall_forall. intros i. apply Hin. }
  pose proof (compare_and_swap_fold_permutes low k dir order arr Hlow Hlen
                Hall) as Hp1.
  pose proof (bitonic_compare_and_swap_permutes arr low k dir Hlow Hlen)
    as Hp2.
  pose proof (permutes_within_length _ _ _ _ Hp1) as Hl1.
  pose proof (permutes_within_length _ _ _ _ Hp2) as Hl2.
  apply list_eq_get; [congruence|]. intros x Hx.
  assert (∀ i, low <= i < low + k →
            get (foldl (compare_and_swap_at k dir) arr order) i =
              get (bitonic_compare_and_swap arr low k dir) i ∧
            get (foldl (compare_and_swap_at k dir) arr order) (i + k) =
              get (bitonic_compare_and_swap arr low k dir) (i + k)) as Hpair.
  { intros i Hi.
    pose proof (compare_and_swap_fold low k dir order arr Hlow Hk Hlen Hnd
                  Hall i Hi) as Hfold.
    cbv zeta in Hfold. rewrite decide_True in Hfold by (by apply Hin).
    destruct Hfold as [Hf1 Hf2].
    destruct (bitonic_compare_and_swap_spec arr low k dir i Hlow Hk Hlen Hi)
      as [Hs1 Hs2].
    split; congruence. }
  destruct (decide (low <= x < low + k)) as [Hx1|Hx1].
  { by destruct (Hpair x Hx1). }
  destruct (decide (low + k <= x < low + 2 * k)) as [Hx2|Hx2].
  { destruct (Hpair (x - k) ltac:(lia)) as [_ Hx']. 
    by replace (x - k + k) with x in Hx' by lia. }
  rewrite (permutes_within_get _ _ _ _ _ Hp1) by lia.
  by rewrite (permutes_within_get _ _ _ _ _ Hp2) by lia.
Qed.

(** X11: in the compare-exchange loop of [bitonic_merge], with the segment
    [low, low + 2k) inside the array, the iteration i writes no cell but
    arr[i] and arr[i + k], and what it leaves there depends on no other
    cell; distinct iterations of [low, low + k) so share no cell, and run
    in any order they leave the array the loop in program order leaves. *)
Theorem parallel_for_iterations_independent arr low k dir :
  0 <= low → 0 < k → low + 2 * k <= Z.of_nat (length arr) →
  (∀ i x, low <= i < low + k → 0 <= x → x ≠ i → x ≠ i + k →
     get (Serial.compare_exchange_at k dir arr i) x = get arr x) ∧
  (∀ i arr2, low <= i < low + k → length arr2 = length arr →
     get arr2 i = get arr i → get arr2 (i + k) = get arr (i + k) →
     get (Serial.compare_exchange_at k dir arr2 i) i =
       get (Serial.compare_exchange_at k dir arr i) i ∧
     get (Serial.compare_exchange_at k dir arr2 i) (i + k) =
       get (Serial.compare_exchange_at k dir arr i) (i + k)) ∧
  (∀ i i', low <= i < low + k → low <= i' < low + k → i ≠ i' →
     i ≠ i' + k ∧ i + k ≠ i' ∧ i + k ≠ i' + k) ∧
  (∀ order, order ≡ₚ seqZ low k →
     foldl (Serial.compare_exchange_at k dir) arr order =
       foldl (Serial.compare_exchange_at k dir) arr (seqZ low k)).
Proof.
  intros Hlow Hk Hlen. split_and!.
  - intros i x Hi Hx Hxi Hxk. rewrite serial_compare_exchange_at.
    rewrite get_compare_and_swap_at by lia.
    by rewrite !decide_False by done.
  - intros i arr2 Hi Hl2 Hg1 Hg2. rewrite !serial_compare_exchange_at.
    rewrite !get_compare_and_swap_at by lia.
    rewrite !decide_True by done. rewrite decide_False by lia.
    rewrite !decide_True by done. rewrite decide_False by lia.
    rewrite !decide_True by done. by rewrite Hg1, Hg2.
  - intros i i' Hi Hi' Hne. lia.
  - intros order Hord. rewrite !serial_compare_exchange_fold.
    rewrite (compare_and_swap_fold_order low) by done.
    symmetry. by apply (compare_and_swap_fold_order low).
Qed.

Lemma parallel_for_iterations_independent_witness :
  let arr := [7; 4; 1; 9; 2; 8] in
  foldl (Serial.compare_exchange_at 2 1) arr [2; 1] =
    foldl (Serial.compare_exchange_at 2 1) arr (seqZ 1 2).
Proof.
  apply (parallel_for_iterations_independent [7; 4; 1; 9; 2; 8] 1 2 1).
  - lia.
  - lia.
  - simpl. lia.
  - apply Permutation_swap.
Defined.

(** A call that stays inside [lo, lo + c) keeps two arrays equal on a
    segment around it when it makes them equal on [lo, lo + c). *)
Lemma agree_frame low cnt lo c (a b a' b' : list Z) :
  0 <= low → low <= lo → lo + c <= low + cnt →
  permutes_within lo c a a' → permutes_within lo c b b' →
  (∀ x, lo <= x < lo + c → get a' x = get b' x) →
  (∀ x, low <= x < low + cnt → get a x = get b x) →
  ∀ x, low <= x < low + cnt → get a' x = get b' x.
Proof.
  intros Hlow Hlo Hhi Hpa Hpb Hin Hab x Hx.
  destruct (decide (lo <= x < lo + c)) as [Hxin|Hxout]; [by apply Hin|].
  rewrite (permutes_within_get _ _ _ _ _ Hpa) by lia.
  rewrite (permutes_within_get _ _ _ _ _ Hpb) by lia.
  by apply Hab.
Qed.

Lemma bitonic_compare_and_swap_local a b low k dir :
  0 <= low → 0 < k → low + 2 * k <= Z.of_nat (length a) →
  low + 2 * k <= Z.of_nat (length b) →
  (∀ x, low <= x < low + 2 * k → get a x = get b x) →
  ∀ x, low <= x < low + 2 * k →
    get (bitonic_compare_and_swap a low k dir) x =
      get (bitonic_compare_and_swap b low k dir) x.
Proof.
  intros Hlow Hk Hla Hlb Hab x Hx.
  assert (∀ i, low <= i < low + k →
            get (bitonic_compare_and_swap a low k dir) i =
              get (bitonic_compare_and_swap b low k dir) i ∧
            get (bitonic_compare_and_swap a low k dir) (i + k) =
              get (bitonic_compare_and_swap b low k dir) (i + k)) as Hpair.
  { intros i Hi.
    destruct (bitonic_compare_and_swap_spec a low k dir i Hlow Hk Hla Hi)
      as [Ha1 Ha2].
    destruct (bitonic_compare_and_swap_spec b low k dir i Hlow Hk Hlb Hi)
      as [Hb1 Hb2].
    rewrite Ha1, Ha2, Hb1, Hb2.
    by rewrite (Hab i), (Hab (i + k)) by lia. }
  destruct (decide (x < low + k)) as [Hx1|Hx1].
  - by destruct (Hpair x ltac:(lia)).
  - destruct (Hpair (x - k) ltac:(lia)) as [_ Hx'].
    by replace (x - k + k) with x in Hx' by lia.
Qed.

(** What [bitonic_merge_recursive] leaves in the segment depends on the
    segment only. *)
Lemma bitonic_merge_fuel_local fuel : ∀ a b low cnt dir,
  0 <= low → low + cnt <= Z.of_nat (length a) →
  low + cnt <= Z.of_nat (length b) →
  (∀ x, low <= x < low + cnt → get a x = get b x) →
  ∀ x, low <= x < low + cnt →
    get (bitonic_merge_fuel fuel a low cnt dir) x =
      get (bitonic_merge_fuel fuel b low cnt dir) x.
Proof.
  induction fuel as [|fuel IH]; intros a b low cnt dir Hlow Hla Hlb Hab;
    [done|].
  simpl. destruct (Z.leb_spec cnt 1) as [|Hcnt]; [done|].
  destruct (half_bound cnt Hcnt) as [Hk Hk2]. set (k := Z.quot cnt 2) in *.
  pose proof (bitonic_compare_and_swap_permutes a low k dir Hlow ltac:(lia))
    as Hpa1.
  pose proof (bitonic_compare_and_swap_permutes b low k dir Hlow ltac:(lia))
    as Hpb1.
  set (a1 := bitonic_compare_and_swap a low k dir) in *.
  set (b1 := bitonic_compare_and_swap b low k dir) in *.
  pose proof (permutes_within_length _ _ _ _ Hpa1) as Hla1.
  pose proof (permutes_within_length _ _ _ _ Hpb1) as Hlb1.
  assert (∀ x, low <= x < low + cnt → get a1 x = get b1 x) as Hab1.
  { apply (agree_frame low cnt low (2 * k) a b); [lia..|done|done| |done].
    apply bitonic_compare_and_swap_local; [lia..|].
    intros x Hx. apply Hab. lia. }
  pose proof (bitonic_merge_fuel_permutes fuel a1 low k dir Hlow ltac:(lia))
    as Hpa2.
  pose proof (bitonic_merge_fuel_permutes fuel b1 low k dir Hlow ltac:(lia))
    as Hpb2.
  set (a2 := bitonic_merge_fuel fuel a1 low k dir) in *.
  set (b2 := bitonic_merge_fuel fuel b1 low k dir) in *.
  pose proof (permutes_within_length _ _ _ _ Hpa2) as Hla2.
  pose proof (permutes_within_length _ _ _ _ Hpb2) as Hlb2.
  assert (∀ x, low <= x < low + cnt → get a2 x = get b2 x) as Hab2.
  { apply (agree_frame low cnt low k a1 b1); [lia..|done|done| |done].
    apply IH; [lia..|]. intros x Hx. apply Hab1. lia. }
  pose proof (bitonic_merge_fuel_permutes fuel a2 (low + k) k dir
                ltac:(lia) ltac:(lia)) as Hpa3.
  pose proof (bitonic_merge_fuel_permutes fuel b2 (low + k) k dir
                ltac:(lia) ltac:(lia)) as Hpb3.
  apply (agree_frame low cnt (low + k) k a2 b2); [lia..|done|done| |done].
  apply IH; [lia..|]. intros x Hx. apply Hab2. lia.
Qed.

(** What [bitonic_sort_recursive] leaves in the segment depends on the
    segment only. *)
Lemma bitonic_sort_fuel_local fuel : ∀ a b low cnt dir,
  0 <= low → low + cnt <= Z.of_nat (length a) →
  low + cnt <= Z.of_nat (length b) →
  (∀ x, low <= x < low + cnt → get a x = get b x) →
  ∀ x, low <= x < low + cnt →
    get (bitonic_sort_fuel fuel a low cnt dir) x =
      get (bitonic_sort_fuel fuel b low cnt dir) x.
Proof.
  induction fuel as [|fuel IH]; intros a b low cnt dir Hlow Hla Hlb Hab;
    [done|].
  simpl. destruct (Z.leb_spec cnt 1) as [|Hcnt]; [done|].
  destruct (half_bound cnt Hcnt) as [Hk Hk2]. set (k := Z.quot cnt 2) in *.
  pose proof (bitonic_sort_fuel_permutes fuel a low k 1 Hlow ltac:(lia))
    as Hpa1.
  pose proof (bitonic_sort_fuel_permutes fuel b low k 1 Hlow ltac:(lia))
    as Hpb1.
  set (a1 := bitonic_sort_fuel fuel a low k 1) in *.
  set (b1 := bitonic_sort_fuel fuel b low k 1) in *.
  pose proof (permutes_within_length _ _ _ _ Hpa1) as Hla1.
  pose proof (permutes_within_length _ _ _ _ Hpb1) as Hlb1.
  assert (∀ x, low <= x < low + cnt → get a1 x = get b1 x) as Hab1.
  { apply (agree_frame low cnt low k a b); [lia..|done|done| |done].
    apply IH; [lia..|]. intros x Hx. apply Hab. lia. }
  pose proof (bitonic_sort_fuel_permutes fuel a1 (low + k) k 0
                ltac:(lia) ltac:(lia)) as Hpa2.
  pose proof (bitonic_sort_fuel_permutes fuel b1 (low + k) k 0
                ltac:(lia) ltac:(lia)) as Hpb2.
  set (a2 := bitonic_sort_fuel fuel a1 (low + k) k 0) in *.
  set (b2 := bitonic_sort_fuel fuel b1 (low + k) k 0) in *.
  pose proof (permutes_within_length _ _ _ _ Hpa2) as Hla2.
  pose proof (permutes_within_length _ _ _ _ Hpb2) as Hlb2.
  assert (∀ x, low <= x < low + cnt → get a2 x = get b2 x) as Hab2.
  { apply (agree_frame low cnt (low + k) k a1 b1); [lia..|done|done| |done].
    apply IH; [lia..|]. intros x Hx. apply Hab1. lia. }
  apply bitonic_merge_fuel_local; (done || lia).
Qed.

(** Two calls that stay inside the two halves of [low, low + 2k), and whose
    results there depend on their half only, can be run in either order. *)
Lemma disjoint_calls_commute (f g : list Z → list Z) low k arr :
  0 <= low → 0 <= k → low + 2 * k <= Z.of_nat (length arr) →
  (∀ a, length a = length arr → permutes_within low k a (f a)) →
  (∀ a, length a = length arr → permutes_within (low + k) k a (g a)) →
  (∀ a b, length a = length arr → length b = length arr →
     (∀ x, low <= x < low + k → get a x = get b x) →
     ∀ x, low <= x < low + k → get (f a) x = get (f b) x) →
  (∀ a b, length a = length arr → length b = length arr →
     (∀ x, low + k <= x < low + k + k → get a x = get b x) →
     ∀ x, low + k <= x < low + k + k → get (g a) x = get (g b) x) →
  g (f arr) = f (g arr) ∧
  ∀ x, 0 <= x →
    get (g (f arr)) x =
      if decide (low <= x < low + k) then get (f arr) x else get (g arr) x.
Proof.
  intros Hlow Hk Hlen Hpf Hpg Hlf Hlg.
  pose proof (Hpf arr eq_refl) as Hf. pose proof (Hpg arr eq_refl) as Hg.
  pose proof (permutes_within_length _ _ _ _ Hf) as Hlf1.
  pose proof (permutes_within_length _ _ _ _ Hg) as Hlg1.
  pose proof (Hpg (f arr) Hlf1) as Hgf. pose proof (Hpf (g arr) Hlg1) as Hfg.
  pose proof (permutes_within_length _ _ _ _ Hgf) as Hlgf.
  pose proof (permutes_within_length _ _ _ _ Hfg) as Hlfg.
  assert (∀ x, 0 <= x →
            get (g (f arr)) x =
              if decide (low <= x < low + k) then get (f arr) x
              else get (g arr) x) as Hgf_at.
  { intros x Hx. case_decide as Hin.
    - apply (permutes_within_get _ _ _ _ _ Hgf); lia.
    - destruct (decide (low + k <= x < low + k + k)) as [Hin2|Hout].
      + apply Hlg; [done..| |done]. intros y Hy.
        apply (permutes_within_get _ _ _ _ _ Hf); lia.
      + rewrite (permutes_within_get _ _ _ _ _ Hgf) by lia.
        rewrite (permutes_within_get _ _ _ _ _ Hf) by lia.
        by rewrite (permutes_within_get _ _ _ _ _ Hg) by lia. }
  split; [|done]. apply list_eq_get; [congruence|]. intros x Hx.
  rewrite Hgf_at by lia. case_decide as Hin.
  - apply Hlf; [done..| |done]. intros y Hy. symmetry.
    apply (permutes_within_get _ _ _ _ _ Hg); lia.
  - symmetry. apply (permutes_within_get _ _ _ _ _ Hfg); lia.
Qed.

(** X12: the two recursive calls of [bitonic_sort_recursive] that the
    OpenMP programs run as sections or tasks, and the two of
    [bitonic_merge] that bitonicOmp02.c runs as tasks, work on the two
    halves of [low, low + 2k): each leaves in its half what it would leave
    there run alone on the array, touches nothing else, and the two in
    either order leave the same array. *)
Theorem parallel_halves_independent arr low k dir :
  0 <= low → 0 <= k → low + 2 * k <= Z.of_nat (length arr) →
  let sort1 a := Serial.bitonic_sort_recursive a low k 1 in
  let sort2 a := Serial.bitonic_sort_recursive a (low + k) k 0 in
  let merge1 a := Serial.bitonic_merge a low k dir in
  let merge2 a := Serial.bitonic_merge a (low + k) k dir in
  (sort2 (sort1 arr) = sort1 (sort2 arr) ∧
   ∀ x, 0 <= x →
     get (sort2 (sort1 arr)) x =
       if decide (low <= x < low + k) then get (sort1 arr) x
       else get (sort2 arr) x) ∧
  (merge2 (merge1 arr) = merge1 (merge2 arr) ∧
   ∀ x, 0 <= x →
     get (merge2 (merge1 arr)) x =
       if decide (low <= x < low + k) then get (merge1 arr) x
       else get (merge2 arr) x).
Proof.
  intros Hlow Hk Hlen sort1 sort2 merge1 merge2. split.
  - apply (disjoint_calls_commute sort1 sort2 low k arr); try done.
    + intros a Hl. apply serial_sort_permutes; lia.
    + intros a Hl. apply serial_sort_permutes; lia.
    + intros a b Hla Hlb Hab x Hx. unfold sort1.
      rewrite !serial_bitonic_sort_recursive.
      apply bitonic_sort_fuel_local; (done || lia).
    + intros a b Hla Hlb Hab x Hx. unfold sort2.
      rewrite !serial_bitonic_sort_recursive.
      apply bitonic_sort_fuel_local; (done || lia).
  - apply (disjoint_calls_commute merge1 merge2 low k arr); try done.
    + intros a Hl. unfold merge1. rewrite serial_bitonic_merge.
      apply bitonic_merge_recursive_permutes; lia.
    + intros a Hl. unfold merge2. rewrite serial_bitonic_merge.
      apply bitonic_merge_recursive_permutes; lia.
    + intros a b Hla Hlb Hab x Hx. unfold merge1.
      rewrite !serial_bitonic_merge.
      apply bitonic_merge_fuel_local; (done || lia).
    + intros a b Hla Hlb Hab x Hx. unfold merge2.
      rewrite !serial_bitonic_merge.
      apply bitonic_merge_fuel_local; (done || lia).
Qed.

Lemma parallel_halves_independent_witness :
  let arr := [9; 5; 3; 8; 1; 7; 0; 6; 2] in
  let sort1 a := Serial.bitonic_sort_recursive a 1 4 1 in
  let sort2 a := Serial.bitonic_sort_recursive a (1 + 4) 4 0 in
  sort2 (sort1 arr) = sort1 (sort2 arr) ∧
  ∀ x, 0 <= x →
    get (sort2 (sort1 arr)) x =
      if decide (1 <= x < 1 + 4) then get (sort1 arr) x
      else get (sort2 arr) x.
Proof.
  apply (parallel_halves_independent [9; 5; 3; 8; 1; 7; 0; 6; 2] 1 4 1).
  - lia.
  - lia.
  - simpl. lia.
Defined.

(** ** The first distributed program: one round *)

Lemma get_insert (l : list Z) i v x :
  0 <= i < Z.of_nat (length l) → 0 <= x →
  get (<[Z.to_nat i := v]> l) x = if decide (x = i) then v else get l x.
Proof.
  intros Hi Hx. unfold get. case_decide as Hxi.
  - subst x. apply list_lookup_total_insert_eq. lia.
  - apply list_lookup_total_insert_ne. lia.
Qed.

Lemma extra_compare_exchange_at_spec km (l r : list Z) i :
  length l = length r → 0 <= i < Z.of_nat (length l) →
  let bufs := ExtraMPI.compare_exchange_at km (l, r) i in
  length bufs.1 = length l ∧ length bufs.2 = length r ∧
  ∀ x, 0 <= x →
    get bufs.1 x =
      (if decide (x = i)
       then (if km then Z.min else Z.max) (get l i) (get r i)
       else get l x) ∧
    get bufs.2 x =
      (if decide (x = i)
       then (if km then Z.max else Z.min) (get l i) (get r i)
       else get r x).
Proof.
  intros Hlen Hi. unfold ExtraMPI.compare_exchange_at.
  destruct km;
    [destruct (Z.gtb_spec (get l i) (get r i))
    |destruct (Z.ltb_spec (get l i) (get r i))];
    cbn [fst snd]; rewrite ?length_insert;
    (split; [done|split; [done|]]); intros x Hx;
    rewrite ?get_insert by lia; case_decide; subst; lia.
Qed.

Lemma extra_compare_exchange_fold km idx : ∀ l r : list Z,
  length l = length r → NoDup idx →
  Forall (λ i, 0 <= i < Z.of_nat (length l)) idx →
  let bufs := foldl (ExtraMPI.compare_exchange_at km) (l, r) idx in
  length bufs.1 = length l ∧ length bufs.2 = length r ∧
  ∀ x, 0 <= x →
    get bufs.1 x =
      (if decide (x ∈ idx)
       then (if km then Z.min else Z.max) (get l x) (get r x)
       else get l x) ∧
    get bufs.2 x =
      (if decide (x ∈ idx)
       then (if km then Z.max else Z.min) (get l x) (get r x)
       else get r x).
Proof.
  induction idx as [|i idx IH]; intros l r Hlen Hnd Hall; cbv zeta.
  - cbn [foldl fst snd]. split_and!; [done..|]. intros x Hx.
    by rewrite !decide_False by apply not_elem_of_nil.
  - apply NoDup_cons in Hnd as [Hi Hnd].
    apply Forall_cons in Hall as [Hir Hall]. cbn [foldl].
    destruct (extra_compare_exchange_at_spec km l r i Hlen Hir)
      as (Hl1 & Hr1 & Hget1).
    destruct (ExtraMPI.compare_exchange_at km (l, r) i) as [l1 r1].
    cbn [fst snd] in *.
    destruct (IH l1 r1) as (Hl2 & Hr2 & Hget2); [congruence|done| |].
    { by rewrite Hl1. }
    split_and!; [congruence..|]. intros x Hx.
    destruct (Hget2 x Hx) as [Hg1 Hg2]. destruct (Hget1 x Hx) as [Hg3 Hg4].
    rewrite Hg1, Hg2, Hg3, Hg4.
    pose proof (elem_of_cons idx x i) as Hc.
    repeat case_decide; subst; try done; exfalso; tauto.
Qed.

Lemma get_zip_with (f : Z → Z → Z) (l r : list Z) x :
  0 <= x < Z.of_nat (length l) → length l = length r →
  get (zip_with f l r) x = f (get l x) (get r x).
Proof.
  intros Hx Hlen. unfold get. apply list_lookup_total_correct.
  rewrite lookup_zip_with.
  rewrite (list_lookup_lookup_total_lt l) by lia.
  by rewrite (list_lookup_lookup_total_lt r) by lia.
Qed.

(** The loop of a round leaves in [local_arr] the smaller (or the larger)
    of the two elements at each index. *)
Lemma extra_compare_exchange_spec (l r : list Z) L km :
  Z.of_nat (length l) = L → Z.of_nat (length r) = L →
  ExtraMPI.compare_exchange l r L km =
    zip_with (if km then Z.min else Z.max) l r.
Proof.
  intros Hl Hr. unfold ExtraMPI.compare_exchange.
  assert (∀ i, i ∈ seqZ 0 L ↔ 0 <= i < L) as Hin.
  { intros i. rewrite elem_of_seqZ. lia. }
  destruct (extra_compare_exchange_fold km (seqZ 0 L) l r)
    as (Hl' & _ & Hget); [lia|apply NoDup_seqZ| |].
  { apply Forall_forall. intros i. rewrite Hin. lia. }
  apply list_eq_get.
  - rewrite Hl', length_zip_with. lia.
  - intros x Hx. destruct (Hget x ltac:(lia)) as [-> _].
    rewrite decide_True by (apply Hin; lia).
    rewrite get_zip_with by lia. done.
Qed.

(** Both partners of a round keep the same elements: the round has the
    same [keep_min] for the ranks [rank] and [rank ^ j], and the smaller (or
    larger) of two elements does not depend on their order. *)
Lemma extra_compare_exchange_comm (l r : list Z) L km :
  Z.of_nat (length l) = L → Z.of_nat (length r) = L →
  ExtraMPI.compare_exchange l r L km = ExtraMPI.compare_exchange r l L km.
Proof.
  intros Hl Hr. rewrite !extra_compare_exchange_spec by done.
  apply list_eq_get; [rewrite !length_zip_with; lia|].
  intros x Hx. rewrite length_zip_with in Hx.
  rewrite !get_zip_with by lia. destruct km; lia.
Qed.

Lemma sendrecv_Some ps p recv :
  sendrecv ps p = Some recv ↔ 0 <= p ∧ ps !! Z.to_nat p = Some recv.
Proof.
  unfold sendrecv. destruct (Z.leb_spec 0 p); [|split; [done|lia]].
  split; [done|by intros [_ ?]].
Qed.

Lemma extra_exchange_round_inv L k j ps ps' :
  ExtraMPI.exchange_round L k j ps = Some ps' →
  length ps' = length ps ∧
  ∀ r : nat, (r < length ps)%nat →
    ∃ local recv,
      ps !! r = Some local ∧
      sendrecv ps (partner (Z.of_nat r) j) = Some recv ∧
      ps' !! r =
        Some (ExtraMPI.compare_exchange local recv L
                (ExtraMPI.keep_min (Z.of_nat r) k)).
Proof.
  intros Hround. unfold ExtraMPI.exchange_round in Hround.
  apply mapM_Some in Hround.
  pose proof (Forall2_length _ _ _ Hround) as Hlen.
  rewrite length_seq in Hlen. split; [done|]. intros r Hr.
  assert (seq 0 (length ps) !! r = Some r) as Hseq
    by (by apply lookup_seq).
  destruct (Forall2_lookup_l _ _ _ _ _ Hround Hseq) as (dst & Hdst & Hat).
  unfold ExtraMPI.exchange_at in Hat.
  destruct (ps !! r) as [local|]; [|done]. simpl in Hat.
  destruct (sendrecv ps (partner (Z.of_nat r) j)) as [recv|]; [|done].
  simpl in Hat. exists local, recv. by simplify_eq.
Qed.

Lemma extra_round_sized L k j ps ps' :
  partitions_sized L ps → ExtraMPI.exchange_round L k j ps = Some ps' →
  partitions_sized L ps'.
Proof.
  intros Hsz Hround.
  destruct (extra_exchange_round_inv _ _ _ _ _ Hround) as [Hlen Hat].
  apply Forall_lookup. intros r dst Hdst.
  destruct (Hat r) as (local & recv & Hlocal & Hrecv & Hr).
  { rewrite <- Hlen. by eapply lookup_lt_Some. }
  apply sendrecv_Some in Hrecv as [_ Hrecv].
  pose proof (proj1 (Forall_lookup _ _) Hsz _ _ Hlocal) as Hl.
  pose proof (proj1 (Forall_lookup _ _) Hsz _ _ Hrecv) as Hr'.
  simpl in Hl, Hr'. rewrite Hdst in Hr. injection Hr as ->.
  rewrite extra_compare_exchange_spec by done.
  rewrite length_zip_with. lia.
Qed.

(** ** The first distributed program: the loops *)

Lemma extra_inner_loop_sized fuel : ∀ L k j w w',
  ExtraMPI.inner_loop fuel L k j w = Done w' →
  partitions_sized L (parts w) →
  partitions_sized L (parts w') ∧ length (parts w') = length (parts w).
Proof.
  induction fuel as [|fuel IH]; intros L k j w w' Hrun Hsz; [done|].
  simpl in Hrun. destruct (0 <? j); [|by simplify_eq].
  destruct (ExtraMPI.exchange_round L k j (parts w)) as [ps|] eqn:Hround;
    [|done].
  apply IH in Hrun as [Hsz' Hlen']; [|by eapply extra_round_sized].
  split; [done|]. simpl in Hlen'. rewrite Hlen'.
  by destruct (extra_exchange_round_inv _ _ _ _ _ Hround).
Qed.

Lemma quot_pow2 (a : nat) : Z.quot (2 ^ Z.of_nat (S a)) 2 = 2 ^ Z.of_nat a.
Proof. apply quot_pow2_succ. Qed.

(** ** The first distributed program: the whole run *)

Lemma next_power_of_two_loop_ge fuel : ∀ p n r,
  next_power_of_two_loop fuel p n = Some r → n <= r.
Proof.
  induction fuel as [|fuel IH]; intros p n r Hr; [done|]. simpl in Hr.
  destruct (Z.ltb_spec p n); [by eapply IH|]. simplify_eq. lia.
Qed.

Lemma serial_next_power_of_two_ge fuel n p :
  Serial.next_power_of_two fuel n = Some p → n <= p.
Proof.
  unfold Serial.next_power_of_two.
  destruct (Z.leb_spec n 1); [intros; simplify_eq; lia|].
  apply next_power_of_two_loop_ge.
Qed.

Lemma extra_sizes_inv fuel n size T L :
  ExtraMPI.sizes fuel n size = Some (T, L) → 0 < size →
  n <= T ∧ size <= T ∧ 0 < L ∧ L * size <= T.
Proof.
  unfold ExtraMPI.sizes. intros Hsz Hsize.
  destruct (Serial.next_power_of_two fuel n) as [p|] eqn:Hp; [|done].
  apply serial_next_power_of_two_ge in Hp. simpl in Hsz.
  injection Hsz as HT HL.
  assert (n <= T ∧ size <= T) as [HnT HsT].
  { subst T. destruct (Z.ltb_spec p size); lia. }
  rewrite HT in HL. split_and!; [done..| |].
  - subst L. apply Z.quot_str_pos. lia.
  - pose proof (Z.mul_quot_le T size ltac:(lia) ltac:(lia)). subst L. lia.
Qed.

Lemma scatter_sized global_arr L P :
  0 <= L → 0 <= P → L * P <= Z.of_nat (length global_arr) →
  partitions_sized L (scatter global_arr L P).
Proof.
  intros HL HP Hlen. unfold scatter, partitions_sized.
  apply Forall_fmap, Forall_forall. intros r Hr. apply elem_of_seq in Hr.
  simpl. rewrite length_take, length_drop. nia.
Qed.

Lemma extra_initial_sized rnd n T L size :
  0 <= n <= T → 0 <= L → 0 <= size → L * size <= T →
  let ps0 :=
    (λ local_arr, Serial.bitonic_sort_recursive local_arr 0 L 1)
      <$> scatter (initial_global rnd n T) L size in
  partitions_sized L ps0 ∧ Z.of_nat (length ps0) = size.
Proof.
  intros Hn HL Hsize HT ps0. subst ps0. split.
  - pose proof (scatter_sized (initial_global rnd n T) L size HL Hsize) as Hsc.
    rewrite initial_global_length in Hsc by done. specialize (Hsc HT).
    unfold partitions_sized in *. apply Forall_fmap.
    eapply Forall_impl; [exact Hsc|]. intros local Hl. simpl in *.
    pose proof (serial_sort_permutes local 0 L 1 ltac:(lia) ltac:(lia)) as Hp.
    by rewrite (permutes_within_length _ _ _ _ Hp).
  - rewrite length_fmap, scatter_length. lia.
Qed.

Lemma length_join_sized L (ps : list (list Z)) :
  partitions_sized L ps →
  Z.of_nat (length (mjoin ps)) = Z.of_nat (length ps) * L.
Proof.
  intros Hsz. induction Hsz as [|local ps Hl _ IH]; [done|].
  change (mjoin (local :: ps)) with (local ++ mjoin ps).
  rewrite length_app. simpl length. lia.
Qed.

Lemma get_join L (ps : list (list Z)) : ∀ (r : nat) local i,
  partitions_sized L ps → ps !! r = Some local → 0 <= i < L →
  get (mjoin ps) (Z.of_nat r * L + i) = get local i.
Proof.
  induction ps as [|l0 ps IH]; intros r local i Hsz Hr Hi; [done|].
  apply Forall_cons in Hsz as [Hl0 Hsz].
  change (mjoin (l0 :: ps)) with (l0 ++ mjoin ps). unfold get.
  destruct r as [|r].
  - simpl in Hr. simplify_eq. rewrite Z.mul_0_l, Z.add_0_l.
    apply lookup_total_app_l. lia.
  - simpl in Hr. rewrite lookup_total_app_r by nia.
    replace (Z.to_nat (Z.of_nat (S r) * L + i) - length l0)%nat
      with (Z.to_nat (Z.of_nat r * L + i)) by nia.
    by apply IH.
Qed.

Lemma get_gathered L global_arr (ps : list (list Z)) (r : nat) local i :
  partitions_sized L ps → ps !! r = Some local → 0 <= i < L →
  get (ExtraMPI.gather_into global_arr ps) (Z.of_nat r * L + i) = get local i.
Proof.
  intros Hsz Hr Hi. unfold ExtraMPI.gather_into. cbv zeta.
  rewrite <- (get_join L ps r local i) by done.
  pose proof (length_join_sized L ps Hsz) as Hlen.
  pose proof (lookup_lt_Some _ _ _ Hr) as Hlt.
  unfold get. apply lookup_total_app_l. nia.
Qed.

Lemma verify_report_sorted (l : list Z) n :
  Sorted Z.le l → n <= Z.of_nat (length l) → verify_report l n = None.
Proof.
  intros Hs Hn. unfold verify_report.
  pose proof (verify_first_error_flag l n) as Hflag.
  rewrite Sorted_verify_sorted in Hflag by done.
  destruct (verify_first_error l n) as [sorted first_error].
  simpl in Hflag. by subst sorted.
Qed.

(** X13: on one process Extra/bitonicMPI.c sorts: for 0 < n <= 2^30 the
    run ends, the first n elements of the gathered array are the n input
    values in ascending order, and the check reports no error. *)
Theorem extra_mpi_single_process fuel n rnd :
  0 < n <= 2 ^ 30 → (∀ i, rnd i <= INT_MAX) → (32 <= fuel)%nat →
  ∃ out,
    ExtraMPI.main fuel (Some n) 1 rnd = Done (out, None) ∧
    Sorted Z.le (take (Z.to_nat n) out) ∧
    take (Z.to_nat n) out ≡ₚ rnd <$> seq 0 (Z.to_nat n).
Proof.
  intros Hn Hrnd Hfuel. unfold ExtraMPI.main, ExtraMPI.sizes.
  unfold requested_n. rewrite (proj2 (Z.leb_gt n 0)) by lia.
  rewrite serial_next_power_of_two by lia.
  rewrite next_power_of_two_spec by (done || lia). cbn [mbind option_bind].
  pose proof (Z.log2_up_nonneg n) as Hc.
  assert (n <= 2 ^ Z.log2_up n) as HnN by (apply Z.log2_up_le_pow2; lia).
  set (N := 2 ^ Z.log2_up n) in *.
  rewrite (proj2 (Z.ltb_ge N 1)) by lia. rewrite Z.quot_1_r.
  pose proof (initial_global_length rnd n N ltac:(lia)) as Hlen.
  set (g := initial_global rnd n N) in *.
  assert (scatter g N 1 = [g]) as ->.
  { unfold scatter. change (Z.to_nat 1) with 1%nat. simpl.
    rewrite drop_0, take_ge by lia. done. }
  destruct (serial_sort_correct g (Z.log2_up n) Hc Hlen) as (Hl & Hs & Hp).
  fold N in Hl, Hs, Hp. cbn [fmap list_fmap].
  set (sorted := Serial.bitonic_sort_recursive g 0 N 1) in *.
  unfold ExtraMPI.network. destruct fuel as [|fuel]; [lia|].
  cbn [ExtraMPI.outer_loop]. change (2 <=? 1) with false.
  cbn [mbind run_bind parts].
  assert (ExtraMPI.gather_into g [sorted] = sorted) as ->.
  { unfold ExtraMPI.gather_into. change (mjoin [sorted]) with (sorted ++ []).
    rewrite app_nil_r, drop_ge by lia. apply app_nil_r. }
  rewrite verify_report_sorted by (done || lia).
  exists sorted. split; [done|]. by apply (sorted_prefix rnd n N).
Qed.

Lemma extra_mpi_single_process_witness :
  ∃ out,
    ExtraMPI.main 32 (Some 5) 1 sample_rnd = Done (out, None) ∧
    Sorted Z.le (take (Z.to_nat 5) out) ∧
    take (Z.to_nat 5) out ≡ₚ sample_rnd <$> seq 0 (Z.to_nat 5).
Proof.
  apply (extra_mpi_single_process 32 5 sample_rnd).
  - change (2 ^ 30) with 1073741824. lia.
  - intros i. pose proof (sample_rnd_bound i). unfold INT_MAX. lia.
  - lia.
Defined.

(** ** The first distributed program: which runs end *)




(** A positive number that is not a power of two has a lowest set bit and
    a set bit above it. *)
Lemma lowest_bit (b : nat) : ∀ size,
  (Z.to_nat size <= b)%nat → 0 < size → ¬ pow2 size →
  ∃ a q, 0 <= a ∧ 1 <= q ∧ size = q * 2 ^ (a + 1) + 2 ^ a.
Proof.
  induction b as [|b IH]; intros size Hb Hpos Hnp; [lia|].
  pose proof (Z.div_mod size 2 ltac:(lia)) as Hdm.
  pose proof (Z.mod_pos_bound size 2 ltac:(lia)) as Hmod.
  destruct (decide (size mod 2 = 1)) as [Hodd|Heven].
  - exists 0, (size / 2). split; [done|].
    change (2 ^ (0 + 1)) with 2. change (2 ^ 0) with 1. split; [|lia].
    destruct (decide (size / 2 <= 0)); [|lia]. exfalso. apply Hnp.
    exists 0. split; [done|]. change (2 ^ 0) with 1. lia.
  - destruct (IH (size / 2)) as (a & q & Ha & Hq & Hsz); [lia|lia| |].
    + intros (e & He & Heq). apply Hnp. exists (e + 1). split; [lia|].
      rewrite pow2_succ by done. lia.
    + exists (a + 1), q. split; [lia|]. split; [done|].
      rewrite (pow2_succ (a + 1)), (pow2_succ a) by lia.
      rewrite (pow2_succ a) in Hsz by lia. lia.
Qed.

Lemma extra_round_fails L k j (ps : list (list Z)) (r : nat) :
  (r < length ps)%nat → Z.of_nat (length ps) <= partner (Z.of_nat r) j →
  ExtraMPI.exchange_round L k j ps = None.
Proof.
  intros Hr Hp.
  destruct (ExtraMPI.exchange_round L k j ps) as [ps'|] eqn:Hround; [|done].
  destruct (extra_exchange_round_inv _ _ _ _ _ Hround) as [_ Hat].
  destruct (Hat r Hr) as (local & recv & _ & Hrecv & _).
  apply sendrecv_Some in Hrecv as [_ Hrecv].
  apply lookup_lt_Some in Hrecv. lia.
Qed.

Lemma extra_inner_loop_length fuel : ∀ L k j w w',
  ExtraMPI.inner_loop fuel L k j w = Done w' →
  length (parts w') = length (parts w).
Proof.
  induction fuel as [|fuel IH]; intros L k j w w' Hrun; [done|].
  simpl in Hrun. destruct (0 <? j); [|by simplify_eq].
  destruct (ExtraMPI.exchange_round L k j (parts w)) as [ps|] eqn:Hround;
    [|done].
  apply IH in Hrun. simpl in Hrun. rewrite Hrun.
  by destruct (extra_exchange_round_inv _ _ _ _ _ Hround).
Qed.

(** With a process count that is not a power of two, the rank
    [size - 2^a], for 2^a the lowest set bit of [size], has the partner
    [size] in the round j = 2^a of the phase k = 2^(a+1). *)
Lemma extra_outer_loop_fails (c : nat) : ∀ (m : nat) fuel L size a q w w',
  int_range size → 0 <= a → 1 <= q → size = q * 2 ^ (a + 1) + 2 ^ a →
  (1 <= m)%nat → Z.of_nat (m + c) = a + 1 →
  Z.of_nat (length (parts w)) = size →
  ExtraMPI.outer_loop fuel L size (2 ^ Z.of_nat m) w ≠ Done w'.
Proof.
  induction c as [|c IH]; intros m fuel L size a q w w' Hr Ha Hq Hsize Hm Hmc
    Hlen; (destruct fuel as [|fuel]; [done|]); cbn [ExtraMPI.outer_loop];
    pose proof (pow2_pos a Ha) as Hpa;
    pose proof (pow2_pos (a + 1) ltac:(lia)) as Hpa1;
    assert (2 ^ Z.of_nat m <= 2 ^ (a + 1)) as Hle
      by (apply Z.pow_le_mono_r; lia);
    (rewrite (proj2 (Z.leb_le _ _)) by nia);
    (destruct m as [|m]; [lia|]); rewrite quot_pow2.
  - replace (Z.of_nat m) with a by lia.
    destruct fuel as [|fuel]; [done|]. cbn [ExtraMPI.inner_loop].
    rewrite (proj2 (Z.ltb_lt _ _)) by done.
    rewrite (extra_round_fails _ _ _ _ (Z.to_nat (q * 2 ^ (a + 1)))); [done|nia|].
    rewrite Z2Nat.id by nia. unfold partner.
    rewrite lxor_pow2_clear; [lia|done|].
    apply Z.mul_pow2_bits_low. lia.
  - destruct (ExtraMPI.inner_loop fuel L _ _ w) as [w1| |] eqn:Hin; [|done..].
    cbn [mbind run_bind]. apply extra_inner_loop_length in Hin.
    rewrite Z.mul_comm, <- pow2_succ by lia.
    assert (a + 1 < 31) as Ha31.
    { apply pow2_lt_inv; [lia..|]. destruct Hr as [_ Hmax].
      unfold INT_MAX in Hmax. change (2 ^ 31) with 2147483648. nia. }
    rewrite wrap_int_id.
    + replace (Z.of_nat (S m) + 1) with (Z.of_nat (S (S m))) by lia.
      apply (IH (S (S m)) fuel L size a q w1 w'); try done; lia.
    + assert (2 ^ (Z.of_nat (S m) + 1) <= 2 ^ 30)
        by (apply Z.pow_le_mono_r; lia).
      pose proof (pow2_pos (Z.of_nat (S m) + 1) ltac:(lia)).
      change (2 ^ 30) with 1073741824 in *. int_range_tac.
Qed.



(** ** The first distributed program: what a run that ends returns *)

Lemma blocks_equal_refl m ps : blocks_equal m m ps.
Proof.
  intros r r' _ _ Hbits. assert (Z.of_nat r = Z.of_nat r') as Heq; [|by simplify_eq].
  apply Z.bits_inj'. intros i Hi. apply Hbits; lia.
Qed.

Lemma extra_keep_min_block r r' m :
  0 <= m → Z.testbit r m = Z.testbit r' m →
  ExtraMPI.keep_min r (2 ^ m) = ExtraMPI.keep_min r' (2 ^ m).
Proof.
  intros Hm Hb. unfold ExtraMPI.keep_min. by rewrite !land_pow2_eqb, Hb.
Qed.

(** A round j = 2^a of the phase k = 2^m makes the processes equal whose
    ranks differ in the bit a only: both keep the same element of each
    pair. *)
Lemma extra_round_blocks L m a ps ps' :
  partitions_sized L ps → 0 <= a < m →
  ExtraMPI.exchange_round L (2 ^ m) (2 ^ a) ps = Some ps' →
  blocks_equal m (a + 1) ps → blocks_equal m a ps'.
Proof.
  intros Hsz Ha Hround Heq.
  destruct (extra_exchange_round_inv _ _ _ _ _ Hround) as [Hlen Hat].
  intros r r' Hr Hr' Hbits. rewrite Hlen in Hr, Hr'.
  destruct (Hat r Hr) as (local & recv & Hlocal & Hrecv & ->).
  destruct (Hat r' Hr') as (local' & recv' & Hlocal' & Hrecv' & ->).
  apply sendrecv_Some in Hrecv as [Hp Hrecv].
  apply sendrecv_Some in Hrecv' as [Hp' Hrecv'].
  set (p := partner (Z.of_nat r) (2 ^ a)) in *.
  set (p' := partner (Z.of_nat r') (2 ^ a)) in *.
  pose proof (lookup_lt_Some _ _ _ Hrecv) as Hpl.
  pose proof (lookup_lt_Some _ _ _ Hrecv') as Hpl'.
  rewrite (extra_keep_min_block (Z.of_nat r) (Z.of_nat r') m)
    by (lia || (apply Hbits; lia)).
  f_equal.
  assert (∀ i, 0 <= i →
            Z.testbit (Z.of_nat (Z.to_nat p)) i =
              xorb (Z.testbit (Z.of_nat r) i) (a =? i)) as Hpb.
  { intros i Hi. rewrite Z2Nat.id by done. apply lxor_pow2_testbit; lia. }
  assert (∀ i, 0 <= i →
            Z.testbit (Z.of_nat (Z.to_nat p')) i =
              xorb (Z.testbit (Z.of_nat r') i) (a =? i)) as Hpb'.
  { intros i Hi. rewrite Z2Nat.id by done. apply lxor_pow2_testbit; lia. }
  pose proof (proj1 (Forall_lookup _ _) Hsz _ _ Hlocal) as Hl.
  pose proof (proj1 (Forall_lookup _ _) Hsz _ _ Hrecv) as Hl'.
  simpl in Hl, Hl'.
  destruct (decide (Z.testbit (Z.of_nat r) a = Z.testbit (Z.of_nat r') a))
    as [Hsame|Hdiff].
  - assert (ps !! r = ps !! r') as E1.
    { apply Heq; [done..|]. intros i Hi Hrange.
      destruct (decide (i = a)) as [->|Hne]; [done|]. apply Hbits; lia. }
    assert (ps !! Z.to_nat p = ps !! Z.to_nat p') as E2.
    { apply Heq; [done..|]. intros i Hi Hrange. rewrite Hpb, Hpb' by done.
      f_equal. destruct (decide (i = a)) as [->|Hne]; [done|].
      apply Hbits; lia. }
    assert (local' = local) as -> by congruence.
    by assert (recv' = recv) as -> by congruence.
  - assert (ps !! Z.to_nat p = ps !! r') as E1.
    { apply Heq; [done..|]. intros i Hi Hrange. rewrite Hpb by done.
      destruct (Z.eqb_spec a i) as [<-|Hne].
      - by destruct (Z.testbit (Z.of_nat r) a),
          (Z.testbit (Z.of_nat r') a).
      - rewrite xorb_false_r. apply Hbits; lia. }
    assert (ps !! r = ps !! Z.to_nat p') as E2.
    { apply Heq; [done..|]. intros i Hi Hrange. rewrite Hpb' by done.
      destruct (Z.eqb_spec a i) as [<-|Hne].
      - by destruct (Z.testbit (Z.of_nat r) a),
          (Z.testbit (Z.of_nat r') a).
      - rewrite xorb_false_r. apply Hbits; lia. }
    assert (local' = recv) as -> by congruence.
    assert (recv' = local) as -> by congruence.
    by apply extra_compare_exchange_comm.
Qed.

(** The rounds j = 2^a, ..., 2, 1 of the phase k = 2^m. *)
Lemma extra_inner_loop_blocks fuel : ∀ L m (a : nat) w w',
  Z.of_nat a < m →
  ExtraMPI.inner_loop fuel L (2 ^ m) (2 ^ Z.of_nat a) w = Done w' →
  partitions_sized L (parts w) →
  blocks_equal m (Z.of_nat a + 1) (parts w) →
  blocks_equal m 0 (parts w').
Proof.
  induction fuel as [|fuel IH]; intros L m a w w' Ham Hrun Hsz Heq; [done|].
  simpl in Hrun.
  rewrite (proj2 (Z.ltb_lt _ _)) in Hrun by (apply pow2_pos; lia).
  destruct (ExtraMPI.exchange_round L (2 ^ m) (2 ^ Z.of_nat a) (parts w))
    as [ps|] eqn:Hround; [|done].
  pose proof (extra_round_blocks L m (Z.of_nat a) _ _ Hsz ltac:(lia) Hround
                Heq) as Heq'.
  destruct a as [|a].
  - change (Z.quot (2 ^ Z.of_nat 0) 2) with 0 in Hrun.
    destruct fuel as [|fuel]; [done|]. simpl in Hrun. by simplify_eq.
  - rewrite quot_pow2 in Hrun.
    eapply (IH L m a); [lia|exact Hrun|by eapply extra_round_sized|].
    simpl. by replace (Z.of_nat a + 1) with (Z.of_nat (S a)) by lia.
Qed.

(** Once [k *= 2] has left the positive numbers the loop on k tests
    k <= size for ever. *)
Lemma extra_outer_loop_stuck fuel : ∀ L size k w w',
  0 < size → k = INT_MIN ∨ k = 0 →
  ExtraMPI.outer_loop fuel L size k w ≠ Done w'.
Proof.
  induction fuel as [|fuel IH]; intros L size k w w' Hsize Hk; [done|].
  simpl. rewrite (proj2 (Z.leb_le _ _)) by (unfold INT_MIN in Hk; lia).
  destruct (ExtraMPI.inner_loop fuel L k (Z.quot k 2) w) as [w1| |];
    [|done..].
  cbn [mbind run_bind]. apply IH; [done|]. right. by destruct Hk as [-> | ->].
Qed.

(** A run of the loop on k that ends has run the phases
    k = 2, 4, ..., 2^m <= size. *)
Lemma extra_outer_loop_blocks fuel : ∀ L size (m : nat) w w',
  int_range size → 2 <= size →
  ExtraMPI.outer_loop fuel L size (2 ^ Z.of_nat (S m)) w = Done w' →
  partitions_sized L (parts w) →
  m = 0%nat ∨
    (blocks_equal (Z.of_nat m) 0 (parts w) ∧ 2 ^ Z.of_nat m <= size) →
  ∃ m' : nat,
    2 ^ Z.of_nat m' <= size < 2 ^ Z.of_nat (S m') ∧
    blocks_equal (Z.of_nat m') 0 (parts w') ∧
    partitions_sized L (parts w') ∧ length (parts w') = length (parts w).
Proof.
  induction fuel as [|fuel IH]; intros L size m w w' Hr Hsize Hrun Hsz Hpre;
    [done|].
  simpl in Hrun. destruct (Z.leb_spec (2 ^ Z.of_nat (S m)) size) as [Hle|Hgt].
  - rewrite quot_pow2 in Hrun.
    destruct (ExtraMPI.inner_loop fuel L _ _ w) as [w1| |] eqn:Hin; [|done..].
    cbn [mbind run_bind] in Hrun.
    destruct (extra_inner_loop_sized _ _ _ _ _ _ Hin Hsz) as [Hsz1 Hlen1].
    apply extra_inner_loop_blocks in Hin;
      [|lia|done|
       replace (Z.of_nat m + 1) with (Z.of_nat (S m)) by lia;
       apply blocks_equal_refl].
    assert (Z.of_nat (S m) < 31) as Hm31.
    { apply pow2_lt_inv; [lia..|]. destruct Hr as [_ Hmax].
      unfold INT_MAX in Hmax. change (2 ^ 31) with 2147483648. lia. }
    rewrite Z.mul_comm, <- pow2_succ in Hrun by lia.
    destruct (decide (Z.of_nat (S m) = 30)) as [Hm30|Hm30].
    + exfalso. rewrite Hm30 in Hrun.
      change (wrap_int (2 ^ (30 + 1))) with INT_MIN in Hrun.
      revert Hrun. apply extra_outer_loop_stuck; [lia|by left].
    + rewrite wrap_int_id in Hrun.
      * replace (Z.of_nat (S m) + 1) with (Z.of_nat (S (S m))) in Hrun by lia.
        destruct (IH _ _ _ _ _ Hr Hsize Hrun Hsz1) as (m' & ? & ? & ? & ?);
          [by right|].
        exists m'. split; [done|]. split; [done|]. split; [done|congruence].
      * assert (2 ^ (Z.of_nat (S m) + 1) <= 2 ^ 30)
          by (apply Z.pow_le_mono_r; lia).
        pose proof (pow2_pos (Z.of_nat (S m) + 1) ltac:(lia)).
        change (2 ^ 30) with 1073741824 in *. int_range_tac.
  - simplify_eq. destruct Hpre as [->|[Heq Hle]].
    + change (2 ^ Z.of_nat 1) with 2 in Hgt. lia.
    + by exists m.
Qed.

Lemma testbit_above r d i :
  0 <= r < 2 ^ d → 0 <= d <= i → Z.testbit r i = false.
Proof.
  intros Hr Hi. rewrite testbit_div_pow2 by lia.
  assert (r / 2 ^ i = 0) as ->; [|done]. apply Z.div_small.
  assert (2 ^ d <= 2 ^ i) by (apply Z.pow_le_mono_r; lia). lia.
Qed.

Lemma extra_main_inv fuel arg size rnd out report :
  0 < size → ExtraMPI.main fuel arg size rnd = Done (out, report) →
  ∃ T L w,
    ExtraMPI.sizes fuel (requested_n arg) size = Some (T, L) ∧
    0 < L ∧
    ExtraMPI.network fuel L size
      (World ((λ local_arr, Serial.bitonic_sort_recursive local_arr 0 L 1)
                <$> scatter (initial_global rnd (requested_n arg) T) L size)
         []) = Done w ∧
    partitions_sized L
      ((λ local_arr, Serial.bitonic_sort_recursive local_arr 0 L 1)
         <$> scatter (initial_global rnd (requested_n arg) T) L size) ∧
    Z.of_nat (length
      ((λ local_arr, Serial.bitonic_sort_recursive local_arr 0 L 1)
         <$> scatter (initial_global rnd (requested_n arg) T) L size)) = size ∧
    out = ExtraMPI.gather_into (initial_global rnd (requested_n arg) T)
            (parts w).
Proof.
  intros Hsize. unfold ExtraMPI.main.
  pose proof (requested_n_pos arg) as Hn. set (n := requested_n arg) in *.
  destruct (ExtraMPI.sizes fuel n size) as [[T L]|] eqn:Hsz; [|done].
  destruct (extra_sizes_inv _ _ _ _ _ Hsz Hsize) as (HnT & HsT & HL & HLT).
  destruct (extra_initial_sized rnd n T L size ltac:(lia) ltac:(lia)
              ltac:(lia) HLT) as [Hsz0 Hlen0].
  destruct (ExtraMPI.network fuel L size _) as [w| |] eqn:Hnet; [|done..].
  cbn [mbind run_bind]. intros Hmain. injection Hmain as <- _.
  by exists T, L, w.
Qed.

Lemma extra_network_Done_pow2 fuel L size ps w :
  int_range size → 0 < size → Z.of_nat (length ps) = size →
  ExtraMPI.network fuel L size (World ps []) = Done w → pow2 size.
Proof.
  intros Hr Hsize Hlen Hnet.
  destruct (decide (pow2 size)) as [|Hnp]; [done|exfalso].
  destruct (lowest_bit (Z.to_nat size) size ltac:(lia) Hsize Hnp)
    as (a & q & Ha & Hq & Heq).
  revert Hnet. unfold ExtraMPI.network.
  change 2 with (2 ^ Z.of_nat 1) at 1.
  apply (extra_outer_loop_fails (Z.to_nat a) 1 fuel L size a q);
    (done || lia).
Qed.

(** X15: whenever a run of Extra/bitonicMPI.c on two or more processes
    gets to its end, the gathered array is made of one block of
    [local_size] elements, once for every rank: in every round both
    partners keep the element-wise smaller (or both the larger) values,
    so the other values are lost, and the rounds of the last phase leave
    every process with the same elements.  In particular the array holds
    a value twice, at the indices 0 and [local_size]. *)
Theorem extra_mpi_keeps_one_block fuel arg size rnd out report :
  int_range size → 2 <= size →
  ExtraMPI.main fuel arg size rnd = Done (out, report) →
  ∃ total_size local_size,
    ExtraMPI.sizes fuel (requested_n arg) size =
      Some (total_size, local_size) ∧
    0 < local_size ∧
    (∀ r r' i, 0 <= r < size → 0 <= r' < size → 0 <= i < local_size →
       get out (r * local_size + i) = get out (r' * local_size + i)) ∧
    ¬ NoDup out.
Proof.
  intros Hr Hsize Hmain.
  destruct (extra_main_inv fuel arg size rnd out report ltac:(lia) Hmain)
    as (T & L & w & Hsz & HL & Hnet & Hsz0 & Hlen0 & ->).
  set (ps0 := (λ local_arr, Serial.bitonic_sort_recursive local_arr 0 L 1)
                <$> scatter (initial_global rnd (requested_n arg) T) L size)
    in *.
  pose proof (extra_network_Done_pow2 _ _ _ _ _ Hr ltac:(lia) Hlen0 Hnet)
    as Hp.
  unfold ExtraMPI.network in Hnet. change 2 with (2 ^ Z.of_nat 1) in Hnet at 1.
  apply extra_outer_loop_blocks in Hnet
    as (m' & Hm' & Heq & Hszw & Hlenw); [|done|done|done|by left].
  simpl in Hlenw. destruct (pow2_int_range size Hp Hr) as (d & Hd & ->).
  assert (Z.of_nat m' = d) as Hmd.
  { destruct Hm' as [Hlo Hhi]. apply pow2_le_inv in Hlo; [|lia..].
    apply pow2_lt_inv in Hhi; lia. }
  assert (∀ r r' i, 0 <= r < 2 ^ d → 0 <= r' < 2 ^ d → 0 <= i < L →
            get (ExtraMPI.gather_into
                   (initial_global rnd (requested_n arg) T) (parts w))
                (r * L + i) =
              get (ExtraMPI.gather_into
                     (initial_global rnd (requested_n arg) T) (parts w))
                  (r' * L + i)) as Hblocks.
  { intros r r' i Hrr Hrr' Hi.
    destruct (lookup_lt_is_Some_2 (parts w) (Z.to_nat r)) as [local Hlocal];
      [lia|].
    assert (parts w !! Z.to_nat r' = Some local) as Hlocal'.
    { rewrite <- Hlocal. apply Heq; [lia..|]. intros j Hj [Hlt|Hge]; [lia|].
      rewrite !Z2Nat.id by lia.
      by rewrite (testbit_above r d j), (testbit_above r' d j) by lia. }
    replace r with (Z.of_nat (Z.to_nat r)) at 1 by lia.
    rewrite (get_gathered L _ _ _ local) by done.
    replace r' with (Z.of_nat (Z.to_nat r')) at 1 by lia.
    by rewrite (get_gathered L _ _ _ local). }
  exists T, L. split_and!; [done..|]. intros Hnd.
  pose proof (Hblocks 0 1 0 ltac:(lia) ltac:(lia) ltac:(lia)) as Heq01.
  rewrite Z.mul_0_l, Z.add_0_l, Z.mul_1_l, Z.add_0_r in Heq01.
  set (out := ExtraMPI.gather_into (initial_global rnd (requested_n arg) T)
                (parts w)) in *.
  assert (L < Z.of_nat (length out)) as Hlout.
  { unfold out, ExtraMPI.gather_into. cbv zeta. rewrite length_app.
    pose proof (length_join_sized L (parts w) Hszw). nia. }
  assert (Z.to_nat 0 = Z.to_nat L) as Hidx; [|lia].
  apply (NoDup_lookup out _ _ (get out 0) Hnd).
  - apply list_lookup_lookup_total_lt. lia.
  - rewrite Heq01. apply list_lookup_lookup_total_lt. lia.
Qed.

Example extra_sample_run :
  ExtraMPI.main 40 (Some 4) 2 sample_rnd =
    Done ([0; 3; 0; 3], Some (2, 3, 0)).
Proof. vm_compute. reflexivity. Qed.

Lemma extra_mpi_keeps_one_block_witness :
  ∃ total_size local_size,
    ExtraMPI.sizes 40 (requested_n (Some 4)) 2 =
      Some (total_size, local_size) ∧
    0 < local_size ∧
    (∀ r r' i, 0 <= r < 2 → 0 <= r' < 2 → 0 <= i < local_size →
       get [0; 3; 0; 3] (r * local_size + i) =
         get [0; 3; 0; 3] (r' * local_size + i)) ∧
    ¬ NoDup [0; 3; 0; 3].
Proof.
  apply (extra_mpi_keeps_one_block 40 (Some 4) 2 sample_rnd [0; 3; 0; 3]
           (Some (2, 3, 0))).
  - int_range_tac.
  - lia.
  - exact extra_sample_run.
Defined.

(** ** The state of the network between two phases *)

(** The first [c] phases of the loop on k. *)
Lemma outer_loop_prefix L d (c : nat) : ∀ (m : nat) fuel ps lg,
  Z.of_nat (m + c) <= d → Z.of_nat (m + c) < 30 →
  (Z.to_nat d < fuel)%nat → Z.of_nat (length ps) = 2 ^ d →
  outer_loop (c + fuel) L (2 ^ d) (2 ^ Z.of_nat (S m)) (World ps lg) =
    outer_loop fuel L (2 ^ d) (2 ^ Z.of_nat (S (m + c)))
      (World (phases L m c ps) (lg ++ schedule m c)).
Proof.
  induction c as [|c IH]; intros m fuel ps lg Hd Hd30 Hfuel Hlen.
  - cbn [phases schedule]. by rewrite app_nil_r, Nat.add_0_r.
  - change (S c + fuel)%nat with (S (c + fuel)). rewrite outer_loop_S.
    rewrite (proj2 (Z.leb_le _ _)) by (apply Z.pow_le_mono_r; lia).
    rewrite (inner_loop_spec L _ d); [|lia..|done].
    cbn [mbind run_bind].
    replace (shl1 (2 ^ Z.of_nat (S m))) with (2 ^ Z.of_nat (S (S m))).
    2:{ rewrite shl1_pow2 by lia. f_equal. lia. }
    rewrite (IH (S m)); [|lia|lia|done|by rewrite phase_rounds_length].
    cbn [phases schedule]. rewrite <- app_assoc.
    by replace (S m + c)%nat with (m + S c)%nat by lia.
Qed.

(** X16: when the loop on k of [main] has run c phases, on 2^d processes
    that each hold [L] ascending elements, it is about to test
    k = 2^(c+1), has logged the rounds of these phases, every partition is
    still ascending, and every aligned group of 2^c ranks is in order as a
    whole: for ranks r < s of one group, every element of r is at most
    every element of s when the group is an ascending one
    ((rank & 2^c) == 0), and at least every element of s otherwise. *)
Theorem network_phase_invariant L d (c : nat) ps lg fuel :
  Z.of_nat c <= d → Z.of_nat c < 30 → Z.of_nat (length ps) = 2 ^ d →
  partitions_ok L ps → (Z.to_nat d < fuel)%nat →
  ∃ ps',
    network (c + fuel) L (2 ^ d) (World ps lg) =
      outer_loop fuel L (2 ^ d) (2 ^ Z.of_nat (S c))
        (World ps' (lg ++ schedule 0 c)) ∧
    partitions_ok L ps' ∧
    ∀ r s x y, 0 <= r → r < s → s < 2 ^ d →
      r / 2 ^ Z.of_nat c = s / 2 ^ Z.of_nat c →
      x ∈ ps' !!! Z.to_nat r → y ∈ ps' !!! Z.to_nat s →
      if Z.land r (2 ^ Z.of_nat c) =? 0 then x <= y else y <= x.
Proof.
  intros Hcd Hc30 Hlen Hok Hfuel. exists (phases L 0 c ps). split_and!.
  - unfold network. change 2 with (2 ^ Z.of_nat 1) at 2.
    by rewrite (outer_loop_prefix L d c 0) by (done || lia).
  - apply (phases_ok L d); (done || lia).
  - intros r s x y Hr Hrs Hs Hblock Hx Hy.
    assert (∀ t, blocks_ordered d (Z.of_nat c) 0 t (phases L 0 c ps)) as Hord.
    { intros t. apply (phases_ordered L d t c 0 ps); [lia|done..|].
      intros r' s' _ Hlt _ Heq _. exfalso.
      rewrite Z.pow_0_r, !Z.div_1_r in Heq. lia. }
    rewrite land_pow2_eqb, testbit_div_pow2 by lia.
    rewrite <- Z.negb_even, negb_involutive.
    destruct (Z.even (r / 2 ^ Z.of_nat c)) eqn:Heven.
    + destruct (Z.le_gt_cases x y) as [|Hlt]; [done|exfalso].
      apply (Hord y r s Hr Hrs Hs Hblock).
      { rewrite Z.pow_0_r, !Z.div_1_r. lia. }
      rewrite Heven. split; [by exists x|by exists y].
    + destruct (Z.le_gt_cases y x) as [|Hlt]; [done|exfalso].
      apply (Hord x r s Hr Hrs Hs Hblock).
      { rewrite Z.pow_0_r, !Z.div_1_r. lia. }
      rewrite Heven. split; [by exists x|by exists y].
Qed.

Lemma network_phase_invariant_witness :
  let ps := [[3; 9]; [0; 4]; [2; 7]; [1; 8]] in
  ∃ ps',
    network (1 + 3) 2 (2 ^ 2) (World ps []) =
      outer_loop 3 2 (2 ^ 2) (2 ^ Z.of_nat 2)
        (World ps' ([] ++ schedule 0 1)) ∧
    partitions_ok 2 ps' ∧
    ∀ r s x y, 0 <= r → r < s → s < 2 ^ 2 →
      r / 2 ^ Z.of_nat 1 = s / 2 ^ Z.of_nat 1 →
      x ∈ ps' !!! Z.to_nat r → y ∈ ps' !!! Z.to_nat s →
      if Z.land r (2 ^ Z.of_nat 1) =? 0 then x <= y else y <= x.
Proof.
  apply (network_phase_invariant 2 2 1 [[3; 9]; [0; 4]; [2; 7]; [1; 8]] []
           3).
  - lia.
  - lia.
  - reflexivity.
  - repeat constructor; simpl; lia.
  - lia.
Defined.

(** ** The OpenMP programs *)

(** X17: [main] of Extra/bitonicOmp.c and of OpenMP/bitonicOmp02.c, its
    parallel regions run in program order, returns 1 when the number of
    elements given is not positive (it does not fall back to 1024 as the
    MPI programs do), takes 1024 when none is given, and for
    0 < n <= 2^30 reports SORTED on an array whose first n elements are
    the n input values in ascending order. *)
Theorem openmp_main_correct fuel rnd :
  (32 <= fuel)%nat → (∀ i, rnd i <= INT_MAX) →
  (∀ n, n <= 0 → OpenMP.main fuel (Some n) rnd = Some OpenMP.ExitNotPositive) ∧
  OpenMP.main fuel None rnd = OpenMP.main fuel (Some 1024) rnd ∧
  (∀ n, 0 < n <= 2 ^ 30 →
     ∃ arr,
       OpenMP.main fuel (Some n) rnd = Some (OpenMP.Result arr true) ∧
       Sorted Z.le (take (Z.to_nat n) arr) ∧
       take (Z.to_nat n) arr ≡ₚ rnd <$> seq 0 (Z.to_nat n)).
Proof.
  intros Hfuel Hrnd. split_and!; [|done|].
  - intros n Hn. unfold OpenMP.main. by rewrite (proj2 (Z.leb_le _ _)).
  - intros n Hn. unfold OpenMP.main, OpenMP.bitonic_sort_parallel.
    rewrite (proj2 (Z.leb_gt _ _)) by lia.
    rewrite serial_next_power_of_two by lia.
    rewrite next_power_of_two_spec by done. cbn [mbind option_bind].
    pose proof (Z.log2_up_nonneg n) as Hc.
    assert (n <= 2 ^ Z.log2_up n) as HnN by (apply Z.log2_up_le_pow2; lia).
    set (N := 2 ^ Z.log2_up n) in *.
    pose proof (initial_global_length rnd n N ltac:(lia)) as Hlen.
    destruct (serial_sort_correct (initial_global rnd n N) (Z.log2_up n) Hc
                Hlen) as (Hl & Hs & Hp).
    fold N in Hl, Hs, Hp. rewrite Sorted_verify_sorted by (done || lia).
    eexists. split; [done|]. by apply (sorted_prefix rnd n N).
Qed.

Lemma openmp_main_correct_witness :
  (∀ n, n <= 0 →
     OpenMP.main 32 (Some n) sample_rnd = Some OpenMP.ExitNotPositive) ∧
  OpenMP.main 32 None sample_rnd = OpenMP.main 32 (Some 1024) sample_rnd ∧
  (∀ n, 0 < n <= 2 ^ 30 →
     ∃ arr,
       OpenMP.main 32 (Some n) sample_rnd = Some (OpenMP.Result arr true) ∧
       Sorted Z.le (take (Z.to_nat n) arr) ∧
       take (Z.to_nat n) arr ≡ₚ sample_rnd <$> seq 0 (Z.to_nat n)).
Proof.
  apply (openmp_main_correct 32 sample_rnd).
  - lia.
  - intros i. pose proof (sample_rnd_bound i). unfold INT_MAX. lia.
Defined.

(** ** The programs compared *)

Lemma Sorted_perm_eq (l1 l2 : list Z) :
  Sorted Z.le l1 → Sorted Z.le l2 → l1 ≡ₚ l2 → l1 = l2.
Proof. intros H1 H2 Hp. by apply (Sorted_unique Z.le). Qed.

(** X18: on the same n <= 2^30 input values, the first n elements that
    MPI/bitonicMPI_fixed.c gathers, on any power-of-two number of
    processes below 2^30, are the array bitonic.c prints as sorted: the
    result does not depend on the number of processes. *)
Theorem distributed_agrees_with_serial fuel n P rnd :
  0 < n <= 2 ^ 30 → pow2 P → P < 2 ^ 30 → (∀ i, rnd i <= INT_MAX) →
  (62 <= fuel)%nat →
  ∃ lg out sorted,
    main fuel (Some n) P rnd = Done (lg, out) ∧
    Serial.main fuel (Serial.Number n) rnd =
      Some (Serial.Printed (rnd <$> seq 0 (Z.to_nat n)) sorted) ∧
    take (Z.to_nat n) out = sorted.
Proof.
  intros Hn HP HP30 Hrnd Hfuel.
  destruct (pow2_below P HP HP30) as (d & Hd & ->).
  pose proof (main_spec n d rnd Hn ltac:(lia) fuel ltac:(lia) Hfuel) as Hmain.
  destruct (run_out n d rnd Hn ltac:(lia)) as (Hs & Hp & Hlen).
  destruct (sorted_prefix rnd n _ _ Hrnd Hs Hp) as [Hs1 Hp1].
  unfold Serial.main. rewrite (proj2 (Z.leb_gt _ _)) by lia.
  rewrite serial_next_power_of_two by lia.
  rewrite next_power_of_two_spec by (done || lia). cbn [mbind option_bind].
  pose proof (Z.log2_up_nonneg n) as Hc.
  assert (n <= 2 ^ Z.log2_up n) as HnN by (apply Z.log2_up_le_pow2; lia).
  set (N := 2 ^ Z.log2_up n) in *.
  pose proof (initial_global_length rnd n N ltac:(lia)) as Hlen'.
  destruct (serial_sort_correct (initial_global rnd n N) (Z.log2_up n) Hc
              Hlen') as (_ & Hs' & Hp').
  fold N in Hs', Hp'.
  destruct (sorted_prefix rnd n N _ Hrnd Hs' Hp') as [Hs2 Hp2].
  rewrite take_initial_global.
  eexists _, _, _. split; [exact Hmain|]. split; [done|].
  apply Sorted_perm_eq; [done..|]. by rewrite Hp1, Hp2.
Qed.

Lemma distributed_agrees_with_serial_witness :
  ∃ lg out sorted,
    main 62 (Some 5) 4 sample_rnd = Done (lg, out) ∧
    Serial.main 62 (Serial.Number 5) sample_rnd =
      Some (Serial.Printed (sample_rnd <$> seq 0 (Z.to_nat 5)) sorted) ∧
    take (Z.to_nat 5) out = sorted.
Proof.
  apply (distributed_agrees_with_serial 62 5 4 sample_rnd).
  - change (2 ^ 30) with 1073741824. lia.
  - pow2_tac 2.
  - change (2 ^ 30) with 1073741824. lia.
  - intros i. pose proof (sample_rnd_bound i). unfold INT_MAX. lia.
  - lia.
Defined.

(** X19: for every power-of-two process count and every n with
    0 < n <= 2^30, Extra/bitonicMPI.c ("raise total_size to size when it
    is smaller") and MPI/bitonicMPI_fixed.c ("double N until size divides
    it") compute the same padded size and the same partition size. *)
Theorem sizers_agree fuel n P :
  0 < n <= 2 ^ 30 → int_range P → pow2 P → (32 <= fuel)%nat →
  ∃ N L,
    partition_sizer fuel n P = Some (N, L) ∧
    ExtraMPI.sizes fuel n P = Some (N, L).
Proof.
  intros Hn Hr HP Hfuel. destruct (pow2_int_range P HP Hr) as (a & Ha & ->).
  pose proof (partition_sizer_value n a fuel Hn Ha Hfuel) as Hfixed.
  cbv zeta in Hfixed. eexists _, _. split; [exact Hfixed|].
  unfold ExtraMPI.sizes. rewrite serial_next_power_of_two by lia.
  rewrite next_power_of_two_spec by done. cbn [mbind option_bind].
  pose proof (Z.log2_up_nonneg n) as Hc.
  assert ((if 2 ^ Z.log2_up n <? 2 ^ a then 2 ^ a else 2 ^ Z.log2_up n) =
            2 ^ Z.max (Z.log2_up n) a) as ->; [|done].
  destruct (Z.ltb_spec (2 ^ Z.log2_up n) (2 ^ a)) as [Hlt|Hge].
  - apply pow2_lt_inv in Hlt; [|lia..]. f_equal. lia.
  - apply pow2_le_inv in Hge; [|lia..]. f_equal. lia.
Qed.

Lemma sizers_agree_witness :
  ∃ N L,
    partition_sizer 32 5 16 = Some (N, L) ∧
    ExtraMPI.sizes 32 5 16 = Some (N, L).
Proof.
  apply (sizers_agree 32 5 16).
  - change (2 ^ 30) with 1073741824. lia.
  - int_range_tac.
  - pow2_tac 4.
  - lia.
Defined.

(** ** What [main] reports *)

(** X20: every run of [main] of MPI/bitonicMPI_fixed.c that gets to its
    end reports SORTED, whatever the input values are: the gathered array
    (padding included) is in ascending order and holds the padded input,
    so the dump that follows "NOT SORTED" is never printed. *)
Theorem main_never_reports_unsorted fuel n P rnd lg out :
  0 < n → int_range n → int_range P →
  main fuel (Some n) P rnd = Done (lg, out) →
  last lg = Some (EvResult true) ∧ Sorted Z.le out ∧
  ∃ N, n <= N ∧ Z.of_nat (length out) = N ∧ out ≡ₚ initial_global rnd n N.
Proof.
  intros Hn Hrn HrP Hmain.
  destruct (main_Done_sizes fuel n P rnd _ Hn Hrn HrP Hmain)
    as (Hn30 & d & Hd & ->).
  apply (main_Done_inv n d rnd ltac:(lia) Hd) in Hmain as (Hd30 & -> & ->);
    [|done].
  destruct (run_out n d rnd ltac:(lia) Hd) as (Hs & Hp & Hlen).
  destruct (run_sizes n d ltac:(lia) Hd) as (_ & HnN & _ & _).
  split_and!; [|done|by eexists].
  unfold full_log. rewrite !app_assoc.
  change [EvGather; EvResult true] with ([EvGather] ++ [EvResult true]).
  rewrite app_assoc. apply last_snoc.
Qed.

Lemma main_never_reports_unsorted_witness :
  last (full_log 5 8 4 2 2) = Some (EvResult true) ∧
  Sorted Z.le [0; 1; 3; 4; 7; INT_MAX; INT_MAX; INT_MAX] ∧
  ∃ N, 5 <= N ∧
    Z.of_nat (length [0; 1; 3; 4; 7; INT_MAX; INT_MAX; INT_MAX]) = N ∧
    [0; 1; 3; 4; 7; INT_MAX; INT_MAX; INT_MAX] ≡ₚ
      initial_global sample_rnd 5 N.
Proof.
  apply (main_never_reports_unsorted 62 5 4 sample_rnd).
  - lia.
  - int_range_tac.
  - int_range_tac.
  - exact sample_run.
Defined.
